(** * browser-commander (Python): navigation lifecycle and action safety

    A shallow embedding of the network tracker, the navigation manager,
    the page-trigger manager and the verify-with-retry loops of
    [browser_commander], together with the properties stated about them.

    Conventions used throughout:
    - Python [str] values are lists of characters ([list ascii], each
      character read as a code point below 256); dictionary keys are
      [string]s.
    - Wall-clock time is an integer number of milliseconds ([Z]).
    - asyncio is cooperative: other handlers run only while the modelled
      coroutine is suspended in an [await].  The environment is a function
      from clock ticks (one per millisecond) to the events delivered at that
      tick; a sleep of [d] ms delivers the events of the next [d] ticks. *)

From Stdlib Require Import ZArith Lia Bool List Ascii String.
From stdpp Require Import base gmap strings list.
Import ListNotations.

Local Open Scope Z_scope.

(** Python [str] as a list of characters. *)
Abbreviation str := (list ascii).

Definition py (s : string) : str := list_ascii_of_string s.

(* ===================================================================== *)
(** * The fragment of Python's [re] module used by [make_url_condition] *)
(* ===================================================================== *)

Module Re.

(** Regular expressions after parsing.  Groups (capturing, named or not) do
    not change which strings match, so the parser keeps only their body. *)
Inductive regex : Type :=
| Nul
| Eps
| Chr (c : ascii)
| Dot
| Cls (negated : bool) (members : list ascii)
| Cat (r1 r2 : regex)
| Alt (r1 r2 : regex)
| Star (r : regex)
| Plus (r : regex)
| Opt (r : regex).

Definition newline : ascii := ascii_of_nat 10.

Definition mem (c : ascii) (cs : list ascii) : bool := existsb (Ascii.eqb c) cs.

(** [.] matches every character except a newline (no DOTALL flag). *)
Definition dot_accepts (c : ascii) : bool := negb (Ascii.eqb c newline).

Definition cls_accepts (negated : bool) (members : list ascii) (c : ascii) : bool :=
  xorb negated (mem c members).

Fixpoint nullable (r : regex) : bool :=
  match r with
  | Nul => false
  | Eps => true
  | Chr _ => false
  | Dot => false
  | Cls _ _ => false
  | Cat r1 r2 => nullable r1 && nullable r2
  | Alt r1 r2 => nullable r1 || nullable r2
  | Star _ => true
  | Plus r1 => nullable r1
  | Opt _ => true
  end.

Fixpoint deriv (c : ascii) (r : regex) : regex :=
  match r with
  | Nul => Nul
  | Eps => Nul
  | Chr c' => if Ascii.eqb c c' then Eps else Nul
  | Dot => if dot_accepts c then Eps else Nul
  | Cls n cs => if cls_accepts n cs c then Eps else Nul
  | Cat r1 r2 =>
      if nullable r1 then Alt (Cat (deriv c r1) r2) (deriv c r2)
      else Cat (deriv c r1) r2
  | Alt r1 r2 => Alt (deriv c r1) (deriv c r2)
  | Star r1 => Cat (deriv c r1) (Star r1)
  | Plus r1 => Cat (deriv c r1) (Star r1)
  | Opt r1 => deriv c r1
  end.

(** Does some prefix of [s] belong to the language of [r]?  This is
    [pattern.match(s) is not None]. *)
Fixpoint match_prefix (s : str) (r : regex) : bool :=
  nullable r ||
  match s with
  | [] => false
  | c :: s' => match_prefix s' (deriv c r)
  end.

(** [pattern.search(s) is not None]: a match starting at some position. *)
Fixpoint search (r : regex) (s : str) : bool :=
  match_prefix s r ||
  match s with
  | [] => false
  | _ :: s' => search r s'
  end.

(** Declarative meaning of a regular expression. *)
Inductive Matches : regex -> str -> Prop :=
| MEps : Matches Eps []
| MChr c : Matches (Chr c) [c]
| MDot c : dot_accepts c = true -> Matches Dot [c]
| MCls n cs c : cls_accepts n cs c = true -> Matches (Cls n cs) [c]
| MCat r1 r2 s1 s2 : Matches r1 s1 -> Matches r2 s2 -> Matches (Cat r1 r2) (s1 ++ s2)
| MAltL r1 r2 s : Matches r1 s -> Matches (Alt r1 r2) s
| MAltR r1 r2 s : Matches r2 s -> Matches (Alt r1 r2) s
| MStar0 r : Matches (Star r) []
| MStarS r s1 s2 : Matches r s1 -> Matches (Star r) s2 -> Matches (Star r) (s1 ++ s2)
| MPlus r s1 s2 : Matches r s1 -> Matches (Star r) s2 -> Matches (Plus r) (s1 ++ s2)
| MOpt0 r : Matches (Opt r) []
| MOptS r s : Matches r s -> Matches (Opt r) s.

(** ** Parsing pattern text *)

Definition is_digit (c : ascii) : bool :=
  let n := nat_of_ascii c in (Nat.leb 48 n && Nat.leb n 57)%bool.

Definition is_ascii_letter (c : ascii) : bool :=
  let n := nat_of_ascii c in
  ((Nat.leb 65 n && Nat.leb n 90) || (Nat.leb 97 n && Nat.leb n 122))%bool.

Definition is_ascii_word (c : ascii) : bool :=
  (is_ascii_letter c || is_digit c || Ascii.eqb c "_"%char)%bool.

(** Characters with a meaning of their own in pattern text. *)
Definition meta_chars : list ascii := py ".^$*+?{}[]\|()".

Definition is_meta (c : ascii) : bool := mem c meta_chars.

Definition is_quantifier (c : ascii) : bool := mem c (py "*+?").

(** A group name must be an identifier; the model accepts the ASCII ones. *)
Definition is_identifier (name : str) : bool :=
  match name with
  | [] => false
  | c :: rest =>
      ((is_ascii_letter c || Ascii.eqb c "_"%char) && forallb is_ascii_word rest)%bool
  end.

Definition str_eqb (a b : str) : bool := bool_decide (a = b).

(** Members of a bracket class up to the closing bracket.  Ranges, escapes
    and nested brackets are outside the modelled fragment. *)
Fixpoint parse_class_members (s : str) : option (list ascii * str) :=
  match s with
  | [] => None
  | c :: s' =>
      if Ascii.eqb c "]"%char then Some ([], s')
      else if mem c (py "\[-") then None
      else match parse_class_members s' with
           | Some (cs, rest) => Some (c :: cs, rest)
           | None => None
           end
  end.

Definition parse_class (s : str) : option (regex * str) :=
  let '(negated, body) :=
    match s with
    | c :: s' => if Ascii.eqb c "^"%char then (true, s') else (false, s)
    | [] => (false, s)
    end in
  match parse_class_members body with
  | Some (c :: cs, rest) => Some (Cls negated (c :: cs), rest)
  | _ => None
  end.

(** The name of a [(?P<name>...)] group, up to the closing angle bracket. *)
Fixpoint parse_group_name (s : str) : option (str * str) :=
  match s with
  | [] => None
  | c :: s' =>
      if Ascii.eqb c ">"%char then Some ([], s')
      else match parse_group_name s' with
           | Some (name, rest) => Some (c :: name, rest)
           | None => None
           end
  end.

(** A postfix quantifier after an atom.  A second quantifier character
    (lazy, possessive or an error in Python) and brace repetition are
    outside the fragment. *)
Definition parse_quantifier (a : regex) (s : str) : option (regex * str) :=
  match s with
  | [] => Some (a, [])
  | q :: rest =>
      if Ascii.eqb q "{"%char then None
      else if is_quantifier q then
        match rest with
        | q2 :: _ =>
            if (is_quantifier q2 || Ascii.eqb q2 "{"%char)%bool then None
            else Some (if Ascii.eqb q "*"%char then Star a
                       else if Ascii.eqb q "+"%char then Plus a
                       else Opt a, rest)
        | [] => Some (if Ascii.eqb q "*"%char then Star a
                      else if Ascii.eqb q "+"%char then Plus a
                      else Opt a, rest)
        end
      else Some (a, s)
  end.

(** Parser state: the text still to read and the group names seen so far
    (Python rejects a pattern that defines a group name twice). *)
Definition presult : Type := option (regex * str * list str).

Fixpoint parse_alt (fuel : nat) (s : str) (names : list str) : presult :=
  match fuel with
  | O => None
  | S f =>
      match parse_seq f s names with
      | Some (r1, c :: rest, names1) =>
          if Ascii.eqb c "|"%char then
            match parse_alt f rest names1 with
            | Some (r2, rest', names2) => Some (Alt r1 r2, rest', names2)
            | None => None
            end
          else Some (r1, c :: rest, names1)
      | other => other
      end
  end
with parse_seq (fuel : nat) (s : str) (names : list str) : presult :=
  match fuel with
  | O => None
  | S f =>
      match s with
      | [] => Some (Eps, [], names)
      | c :: _ =>
          if (Ascii.eqb c "|"%char || Ascii.eqb c ")"%char)%bool then Some (Eps, s, names)
          else
            match parse_atom f s names with
            | Some (a, rest, names1) =>
                match parse_quantifier a rest with
                | Some (qa, rest1) =>
                    match parse_seq f rest1 names1 with
                    | Some (r, rest2, names2) => Some (Cat qa r, rest2, names2)
                    | None => None
                    end
                | None => None
                end
            | None => None
            end
      end
  end
with parse_atom (fuel : nat) (s : str) (names : list str) : presult :=
  match fuel with
  | O => None
  | S f =>
      match s with
      | [] => None
      | c :: s' =>
          if negb (is_meta c) then Some (Chr c, s', names)
          else if Ascii.eqb c "."%char then Some (Dot, s', names)
          else if Ascii.eqb c "\"%char then
            match s' with
            | e :: s'' =>
                if (is_ascii_letter e || is_digit e)%bool then None
                else Some (Chr e, s'', names)
            | [] => None
            end
          else if Ascii.eqb c "["%char then
            match parse_class s' with
            | Some (r, rest) => Some (r, rest, names)
            | None => None
            end
          else if Ascii.eqb c "("%char then
            let body_and_names :=
              match s' with
              | q :: s1 =>
                  if Ascii.eqb q "?"%char then
                    match s1 with
                    | k :: s2 =>
                        if Ascii.eqb k ":"%char then Some (s2, names)
                        else if Ascii.eqb k "P"%char then
                          match s2 with
                          | lt :: s3 =>
                              if Ascii.eqb lt "<"%char then
                                match parse_group_name s3 with
                                | Some (name, s4) =>
                                    if (is_identifier name
                                        && negb (existsb (str_eqb name) names))%bool
                                    then Some (s4, name :: names)
                                    else None
                                | None => None
                                end
                              else None
                          | [] => None
                          end
                        else None
                    | [] => None
                    end
                  else Some (s', names)
              | [] => None
              end in
            match body_and_names with
            | Some (body, names1) =>
                match parse_alt f body names1 with
                | Some (r, c2 :: rest, names2) =>
                    if Ascii.eqb c2 ")"%char then Some (r, rest, names2) else None
                | _ => None
                end
            | None => None
            end
          else None
      end
  end.

(** [re.compile(text)]: [None] stands for [re.error] or for a pattern that
    uses syntax outside the modelled fragment (anchors, backslash classes,
    ranges, brace repetition, lazy quantifiers, look-around). *)
Definition compile (text : str) : option regex :=
  match parse_alt (3 * length text + 3) text [] with
  | Some (r, [], _) => Some r
  | _ => None
  end.

End Re.

(* ===================================================================== *)
(** * page_trigger_manager.py: URL conditions *)
(* ===================================================================== *)

Module UrlCondition.

(** The characters [re.escape] protects with a backslash. *)
Definition special_chars : list ascii :=
  py "()[]{}?*+-|^$\.&~# " ++ map ascii_of_nat [9; 10; 13; 11; 12]%nat.

Definition is_special (c : ascii) : bool := Re.mem c special_chars.

(** [re.escape(pattern)] *)
Fixpoint escape (s : str) : str :=
  match s with
  | [] => []
  | c :: s' => if is_special c then "\"%char :: c :: escape s' else c :: escape s'
  end.

(** [s.replace(a + b, new)] for a two-character needle: occurrences are
    replaced from left to right and never overlap. *)
Fixpoint replace2 (a b : ascii) (new : str) (s : str) : str :=
  match s with
  | [] => []
  | c :: t =>
      match t with
      | d :: s' =>
          if (Ascii.eqb c a && Ascii.eqb d b)%bool then new ++ replace2 a b new s'
          else c :: replace2 a b new t
      | [] => [c]
      end
  end.

(** [\w] on [str] patterns is Unicode-aware: alphanumeric code points and the
    underscore.  Below 256 these are the ASCII word characters and the
    Latin-1 letters, superscript digits and vulgar fractions. *)
Definition is_word (c : ascii) : bool :=
  let n := nat_of_ascii c in
  (Re.is_ascii_word c
   || Re.mem c (map ascii_of_nat [170; 178; 179; 181; 185; 186; 188; 189; 190]%nat)
   || (Nat.leb 192 n && Nat.leb n 214)
   || (Nat.leb 216 n && Nat.leb n 246)
   || Nat.leb 248 n)%bool.

Definition starts_with_word (s : str) : bool :=
  match s with
  | c :: _ => is_word c
  | [] => false
  end.

(** [re.sub(r":(\w+)", r"(?P<\1>[^/]+)", pattern)]: every colon followed by a
    maximal non-empty run of word characters becomes a named group.
    [in_name] tells whether the scan is inside such a run. *)
Fixpoint sub_params_from (in_name : bool) (s : str) : str :=
  match s with
  | [] => if in_name then py ">[^/]+)" else []
  | c :: s' =>
      if (in_name && is_word c)%bool then c :: sub_params_from true s'
      else
        (if in_name then py ">[^/]+)" else []) ++
        (if (Ascii.eqb c ":"%char && starts_with_word s')%bool
         then py "(?P<" ++ sub_params_from true s'
         else c :: sub_params_from false s')
  end.

Definition sub_params (pattern : str) : str := sub_params_from false pattern.

Fixpoint startswith (prefix s : str) : bool :=
  match prefix, s with
  | [], _ => true
  | p :: prefix', c :: s' => (Ascii.eqb p c && startswith prefix' s')%bool
  | _ :: _, [] => false
  end.

(** The argument of [make_url_condition]: a callable, a compiled regular
    expression, a string, or a value of any other type. *)
Inductive pattern : Type :=
| PCallable (f : str -> bool)
| PCompiled (r : Re.regex)
| PStr (s : str)
| POther.

Inductive outcome : Type :=
| Condition (f : str -> bool)
| ReError
| ValueError.

Definition make_url_condition (pat : pattern) : outcome :=
  match pat with
  | PCallable f => Condition f
  | PCompiled r => Condition (fun url => Re.search r url)
  | PStr p =>
      if Re.mem "*"%char p then
        let escaped := replace2 "\"%char "*"%char (py ".*") (escape p) in
        match Re.compile escaped with
        | Some regex => Condition (fun url => Re.search regex url)
        | None => ReError
        end
      else if Re.mem ":"%char p then
        let param_pattern := sub_params p in
        match Re.compile param_pattern with
        | Some regex => Condition (fun url => Re.search regex url)
        | None => ReError
        end
      else Condition (fun url => (Re.str_eqb url p || startswith p url)%bool)
  | POther => ValueError
  end.

(** Applying the result of [make_url_condition] to a URL; [None] when no
    condition was produced. *)
Definition applied (pat : pattern) (url : str) : option bool :=
  match make_url_condition pat with
  | Condition f => Some (f url)
  | _ => None
  end.

Definition all_conditions (conditions : list (str -> bool)) : str -> bool :=
  fun url => forallb (fun cond => cond url) conditions.

Definition any_condition (conditions : list (str -> bool)) : str -> bool :=
  fun url => existsb (fun cond => cond url) conditions.

Definition not_condition (condition : str -> bool) : str -> bool :=
  fun url => negb (condition url).

(** The wildcard rule in the words of the grammar table: each [*] becomes
    [.*], every other character stands for itself. *)
Definition wildcard_atom (c : ascii) : Re.regex :=
  if Ascii.eqb c "*"%char then Re.Star Re.Dot else Re.Chr c.

Definition wildcard_rule (p : str) : Re.regex :=
  fold_right (fun c r => Re.Cat (wildcard_atom c) r) Re.Eps p.

(** What a wildcard pattern matches, character by character: [*] stands for
    any run of characters without a newline, any other character for
    itself. *)
Inductive Wild : str -> str -> Prop :=
| Wild_nil : Wild [] []
| Wild_star p gap t :
    Forall (fun c => c <> Re.newline) gap -> Wild p t -> Wild ("*"%char :: p) (gap ++ t)
| Wild_chr c p t : c <> "*"%char -> Wild p t -> Wild (c :: p) (c :: t).

(** [w] occurs in [s] as a contiguous substring. *)
Definition occurs_in (w s : str) : Prop := exists a b, s = a ++ w ++ b.

(** The text handed to [re.compile] in the wildcard branch. *)
Definition wild_text (p : str) : str :=
  replace2 "\"%char "*"%char (py ".*") (escape p).

(** What one pattern character contributes to that text. *)
Definition wild_token (c : ascii) : str :=
  if Ascii.eqb c "*"%char then py ".*"
  else if is_special c then ["\"%char; c] else [c].

(** A character after which an atom ends without a quantifier and a
    sequence goes on. *)
Definition benign (c : ascii) : bool := negb (Re.mem c (py "|){*+?")).

Definition head_benign (s : str) : bool :=
  match s with
  | [] => true
  | c :: _ => benign c
  end.

End UrlCondition.

(* ===================================================================== *)
(** * core/network_tracker.py *)
(* ===================================================================== *)

Module network_tracker.

Inductive EngineType : Type := playwright | selenium.

(** A request object: its [url] and [method] attributes and its [str()]. *)
Record Request : Type := {
  url : string;
  method : string;
  as_str : string
}.

(** Listener callbacks are identified by a number; calling one is recorded
    as a notification carrying the argument it received. *)
Inductive Notification : Type :=
| on_request_start (fn : nat) (url : string) (pending_count : nat)
| on_request_end (fn : nat) (url : string) (pending_count : nat)
| on_network_idle (fn : nat).

Record NetworkTracker : Type := {
  engine : EngineType;
  idle_timeout : Z;
  request_timeout : Z;
  _pending_requests : gmap string Request;
  _request_start_times : gmap string Z;
  _listeners_on_request_start : list nat;
  _listeners_on_request_end : list nat;
  _listeners_on_network_idle : list nat;
  _is_tracking : bool;
  _idle_timer : option nat;
  _navigation_id : Z;
  (** whether the page currently has this tracker's handlers registered *)
  page_handlers : bool
}.

Definition __init__ (engine : EngineType) (idle_timeout request_timeout : Z)
  : NetworkTracker :=
  {| engine := engine; idle_timeout := idle_timeout;
     request_timeout := request_timeout;
     _pending_requests := ∅; _request_start_times := ∅;
     _listeners_on_request_start := []; _listeners_on_request_end := [];
     _listeners_on_network_idle := [];
     _is_tracking := false; _idle_timer := None; _navigation_id := 0;
     page_handlers := false |}.

Definition set_requests (self : NetworkTracker)
    (pending : gmap string Request) (times : gmap string Z) : NetworkTracker :=
  {| engine := engine self; idle_timeout := idle_timeout self;
     request_timeout := request_timeout self;
     _pending_requests := pending; _request_start_times := times;
     _listeners_on_request_start := _listeners_on_request_start self;
     _listeners_on_request_end := _listeners_on_request_end self;
     _listeners_on_network_idle := _listeners_on_network_idle self;
     _is_tracking := _is_tracking self; _idle_timer := _idle_timer self;
     _navigation_id := _navigation_id self; page_handlers := page_handlers self |}.

Definition set_idle_timer (self : NetworkTracker) (timer : option nat) : NetworkTracker :=
  {| engine := engine self; idle_timeout := idle_timeout self;
     request_timeout := request_timeout self;
     _pending_requests := _pending_requests self;
     _request_start_times := _request_start_times self;
     _listeners_on_request_start := _listeners_on_request_start self;
     _listeners_on_request_end := _listeners_on_request_end self;
     _listeners_on_network_idle := _listeners_on_network_idle self;
     _is_tracking := _is_tracking self; _idle_timer := timer;
     _navigation_id := _navigation_id self; page_handlers := page_handlers self |}.

Definition set_tracking (self : NetworkTracker) (tracking : bool)
    (navigation_id : Z) (handlers : bool) : NetworkTracker :=
  {| engine := engine self; idle_timeout := idle_timeout self;
     request_timeout := request_timeout self;
     _pending_requests := _pending_requests self;
     _request_start_times := _request_start_times self;
     _listeners_on_request_start := _listeners_on_request_start self;
     _listeners_on_request_end := _listeners_on_request_end self;
     _listeners_on_network_idle := _listeners_on_network_idle self;
     _is_tracking := tracking; _idle_timer := _idle_timer self;
     _navigation_id := navigation_id; page_handlers := handlers |}.

Definition set_listeners (self : NetworkTracker) (starts ends idles : list nat)
  : NetworkTracker :=
  {| engine := engine self; idle_timeout := idle_timeout self;
     request_timeout := request_timeout self;
     _pending_requests := _pending_requests self;
     _request_start_times := _request_start_times self;
     _listeners_on_request_start := starts;
     _listeners_on_request_end := ends;
     _listeners_on_network_idle := idles;
     _is_tracking := _is_tracking self; _idle_timer := _idle_timer self;
     _navigation_id := _navigation_id self; page_handlers := page_handlers self |}.

Definition is_playwright (e : EngineType) : bool :=
  match e with playwright => true | selenium => false end.

Definition _get_request_key (self : NetworkTracker) (request : Request) : string :=
  match engine self with
  | playwright => method request +:+ ":" +:+ url request
  | selenium => "GET" +:+ ":" +:+ as_str request
  end.

(** [request.url if self.engine == "playwright" else str(request)] *)
Definition request_url (self : NetworkTracker) (request : Request) : string :=
  match engine self with
  | playwright => url request
  | selenium => as_str request
  end.

(** [len(self._pending_requests)] *)
Definition get_pending_count (self : NetworkTracker) : nat :=
  size (_pending_requests self).

(** Handle request start; [now] is [time.time() * 1000]. *)
Definition _on_request (now : Z) (self : NetworkTracker) (request : Request)
  : NetworkTracker * list Notification :=
  let key := _get_request_key self request in
  let url := request_url self request in
  if (String.prefix "data:" url || String.prefix "blob:" url)%bool then (self, [])
  else
    let self1 :=
      set_requests self (<[key := request]> (_pending_requests self))
                        (<[key := now]> (_request_start_times self)) in
    let self2 :=
      match _idle_timer self1 with
      | Some _ => set_idle_timer self1 None
      | None => self1
      end in
    (self2,
     map (fun fn => on_request_start fn url (get_pending_count self2))
         (_listeners_on_request_start self2)).

(** Check if network is idle and trigger idle event. *)
Definition _check_idle (self : NetworkTracker) : list Notification :=
  if (Nat.eqb (get_pending_count self) 0
      && negb (bool_decide (is_Some (_idle_timer self))))%bool
  then map on_network_idle (_listeners_on_network_idle self)
  else [].

(** Handle request completion (success or failure). *)
Definition _on_request_end (self : NetworkTracker) (request : Request)
  : NetworkTracker * list Notification :=
  let key := _get_request_key self request in
  match _pending_requests self !! key with
  | None => (self, [])
  | Some _ =>
      let url := request_url self request in
      let self1 :=
        set_requests self (delete key (_pending_requests self))
                          (delete key (_request_start_times self)) in
      (self1,
       map (fun fn => on_request_end fn url (get_pending_count self1))
           (_listeners_on_request_end self1)
       ++ _check_idle self1)
  end.

Definition start_tracking (self : NetworkTracker) : NetworkTracker :=
  if _is_tracking self then self
  else
    let self1 :=
      set_tracking self true (_navigation_id self + 1)
        (if is_playwright (engine self) then true else page_handlers self) in
    set_requests self1 ∅ ∅.

Definition stop_tracking (self : NetworkTracker) : NetworkTracker :=
  if negb (_is_tracking self) then self
  else
    let self1 :=
      set_tracking self false (_navigation_id self)
        (if is_playwright (engine self) then false else page_handlers self) in
    set_requests self1 ∅ ∅.

(** Reset tracking (clear all pending requests). *)
Definition reset (self : NetworkTracker) : NetworkTracker :=
  set_requests
    (set_tracking self (_is_tracking self) (_navigation_id self + 1) (page_handlers self))
    ∅ ∅.

Definition on (self : NetworkTracker) (event : string) (callback : nat) : NetworkTracker :=
  if String.eqb event "on_request_start" then
    set_listeners self (_listeners_on_request_start self ++ [callback])
      (_listeners_on_request_end self) (_listeners_on_network_idle self)
  else if String.eqb event "on_request_end" then
    set_listeners self (_listeners_on_request_start self)
      (_listeners_on_request_end self ++ [callback]) (_listeners_on_network_idle self)
  else if String.eqb event "on_network_idle" then
    set_listeners self (_listeners_on_request_start self)
      (_listeners_on_request_end self) (_listeners_on_network_idle self ++ [callback])
  else self.

(** The stale-request sweep of the polling loop: every request started more
    than [request_timeout] ms before [now] is dropped from both tables. *)
Definition purge_timed_out (now : Z) (self : NetworkTracker) : NetworkTracker :=
  foldr
    (fun '(key, start) acc =>
       if now - start >? request_timeout acc then
         set_requests acc (delete key (_pending_requests acc))
                          (delete key (_request_start_times acc))
       else acc)
    self (map_to_list (_request_start_times self)).

(** ** The tracker while a coroutine is suspended *)

(** What can happen to the tracker between two steps of a waiting
    coroutine: the page reports a request, a finished or failed request, or
    some other task calls [reset()]. *)
Inductive Event : Type :=
| request (r : Request)
| requestfinished (r : Request)
| requestfailed (r : Request)
| reset_called.

(** Page events reach the tracker only while its handlers are registered. *)
Definition deliver (now : Z) (self : NetworkTracker) (ev : Event) : NetworkTracker :=
  match ev with
  | request r => if page_handlers self then fst (_on_request now self r) else self
  | requestfinished r | requestfailed r =>
      if page_handlers self then fst (_on_request_end self r) else self
  | reset_called => reset self
  end.

(** [n] clock ticks of one millisecond each, starting after [clock]. *)
Fixpoint run_ticks (env : Z -> list Event) (n : nat) (clock : Z)
    (self : NetworkTracker) : NetworkTracker :=
  match n with
  | O => self
  | S n' =>
      run_ticks env n' (clock + 1)
        (fold_left (deliver (clock + 1)) (env (clock + 1)) self)
  end.

(** [await asyncio.sleep(ms / 1000)]: a sleep of a non-positive duration
    returns at once. *)
Definition sleep (env : Z -> list Event) (ms : Z) (clock : Z) (self : NetworkTracker)
  : Z * NetworkTracker :=
  (clock + Z.max 0 ms, run_ticks env (Z.to_nat ms) clock self).

(** The [while True] loop of [wait_for_network_idle].  Every iteration that
    does not return sleeps at least 100 ms, so [fuel] iterations are enough
    once [100 * fuel] exceeds the timeout. *)
Fixpoint poll (fuel : nat) (env : Z -> list Event)
    (timeout idle_time start_time current_nav_id : Z)
    (clock : Z) (self : NetworkTracker) : option (bool * Z * NetworkTracker) :=
  match fuel with
  | O => None
  | S fuel' =>
      let elapsed := clock - start_time in
      if elapsed >=? timeout then Some (false, clock, self)
      else if negb (_navigation_id self =? current_nav_id) then Some (false, clock, self)
      else
        let self1 := purge_timed_out clock self in
        if Nat.eqb (get_pending_count self1) 0 then
          let '(clock2, self2) := sleep env idle_time clock self1 in
          if (Nat.eqb (get_pending_count self2) 0
              && (_navigation_id self2 =? current_nav_id))%bool
          then Some (true, clock2, self2)
          else
            let '(clock3, self3) := sleep env 100 clock2 self2 in
            poll fuel' env timeout idle_time start_time current_nav_id clock3 self3
        else
          let '(clock3, self3) := sleep env 100 clock self1 in
          poll fuel' env timeout idle_time start_time current_nav_id clock3 self3
  end.

(** [await self.wait_for_network_idle(timeout, idle_time)], called at time
    [clock].  The result is the returned boolean, the time of return and the
    tracker at that time. *)
Definition wait_for_network_idle (env : Z -> list Event) (clock : Z)
    (self : NetworkTracker) (timeout : Z) (idle_time : option Z)
  : option (bool * Z * NetworkTracker) :=
  let idle_time := default (idle_timeout self) idle_time in
  let start_time := clock in
  let current_nav_id := _navigation_id self in
  let fuel := (Z.to_nat (timeout / 100) + 2)%nat in
  if Nat.eqb (get_pending_count self) 0 then
    let '(clock1, self1) := sleep env idle_time clock self in
    if (Nat.eqb (get_pending_count self1) 0
        && (_navigation_id self1 =? current_nav_id))%bool
    then Some (true, clock1, self1)
    else poll fuel env timeout idle_time start_time current_nav_id clock1 self1
  else poll fuel env timeout idle_time start_time current_nav_id clock self.

(** A settle window: the pending set is empty when it opens at [opened], it
    is empty again [idle] ms later when the call returns, and the generation
    id equals [nav_id] at every tick of the window. *)
Definition settle_window (env : Z -> list Event) (idle nav_id : Z)
    (opened : Z) (at_open : NetworkTracker) (closed : Z) (at_close : NetworkTracker)
  : Prop :=
  get_pending_count at_open = 0%nat /\
  closed = opened + Z.max 0 idle /\
  at_close = run_ticks env (Z.to_nat idle) opened at_open /\
  get_pending_count at_close = 0%nat /\
  forall k, (k <= Z.to_nat idle)%nat ->
            _navigation_id (run_ticks env k opened at_open) = nav_id.

(** The tracker a waiting call holds at time [t]: the tracker it was called
    on at time [clock], changed since by the events of every tick up to [t]
    and by the call's own stale-request sweeps. *)
Inductive held (env : Z -> list Event) (clock : Z) (self : NetworkTracker)
  : Z -> NetworkTracker -> Prop :=
| held_at_call : held env clock self clock self
| held_tick (t : Z) (s : NetworkTracker) :
    held env clock self t s ->
    held env clock self (t + 1) (fold_left (deliver (t + 1)) (env (t + 1)) s)
| held_sweep (t : Z) (s : NetworkTracker) :
    held env clock self t s ->
    held env clock self t (purge_timed_out t s).

Definition req (m u : string) : Request := {| url := u; method := m; as_str := u |}.

(** A tracking tracker with one listener for each event and nothing pending. *)
Definition listening_tracker : NetworkTracker :=
  on (on (on (start_tracking (__init__ playwright 500 30000))
             "on_request_start" 1%nat) "on_request_end" 2%nat) "on_network_idle" 3%nat.

(** A request that starts 10 ms and finishes 20 ms after the call. *)
Definition brief_request (t : Z) : list Event :=
  if t =? 10 then [request (req "GET" "/a")]
  else if t =? 20 then [requestfinished (req "GET" "/a")]
  else [].

(** ** The rest of the tracker's interface *)

(** [list.remove(x)] on a list of callbacks: the first occurrence goes. *)
Fixpoint list_remove (x : nat) (l : list nat) : list nat :=
  match l with
  | [] => []
  | y :: l' => if Nat.eqb x y then l' else y :: list_remove x l'
  end.

(** Remove event listener: nothing happens for an unknown event or a
    callback that is not registered. *)
Definition off (self : NetworkTracker) (event : string) (callback : nat) : NetworkTracker :=
  if String.eqb event "on_request_start" then
    set_listeners self (list_remove callback (_listeners_on_request_start self))
      (_listeners_on_request_end self) (_listeners_on_network_idle self)
  else if String.eqb event "on_request_end" then
    set_listeners self (_listeners_on_request_start self)
      (list_remove callback (_listeners_on_request_end self))
      (_listeners_on_network_idle self)
  else if String.eqb event "on_network_idle" then
    set_listeners self (_listeners_on_request_start self)
      (_listeners_on_request_end self)
      (list_remove callback (_listeners_on_network_idle self))
  else self.

(** The URLs [_on_request] ignores. *)
Definition inline_url (u : string) : bool :=
  (String.prefix "data:" u || String.prefix "blob:" u)%bool.

(** Everything that can be done to a tracker from outside. *)
Inductive Operation : Type :=
| page_event (now : Z) (ev : Event)
| call_start_tracking
| call_stop_tracking
| call_on (event : string) (callback : nat)
| call_off (event : string) (callback : nat)
| call_wait_for_network_idle (env : Z -> list Event) (clock timeout : Z)
    (idle_time : option Z).

Definition perform (self : NetworkTracker) (op : Operation) : NetworkTracker :=
  match op with
  | page_event now ev => deliver now self ev
  | call_start_tracking => start_tracking self
  | call_stop_tracking => stop_tracking self
  | call_on event callback => on self event callback
  | call_off event callback => off self event callback
  | call_wait_for_network_idle env clock timeout idle_time =>
      match wait_for_network_idle env clock self timeout idle_time with
      | Some (_, _, self') => self'
      | None => self
      end
  end.

(** The two tables hold the same keys. *)
Definition tables_agree (self : NetworkTracker) : Prop :=
  dom (_pending_requests self) = dom (_request_start_times self).

(** No pending request has a [data:] or [blob:] URL. *)
Definition no_inline_pending (self : NetworkTracker) : Prop :=
  forall key r, _pending_requests self !! key = Some r ->
                inline_url (request_url self r) = false.

(** [self._listeners[event]]; an event that is not a key has no list. *)
Definition listeners_of (self : NetworkTracker) (event : string) : list nat :=
  if String.eqb event "on_request_start" then _listeners_on_request_start self
  else if String.eqb event "on_request_end" then _listeners_on_request_end self
  else if String.eqb event "on_network_idle" then _listeners_on_network_idle self
  else [].

(** What holds of a tracker between any two calls. *)
Definition consistent (self : NetworkTracker) : Prop :=
  tables_agree self /\ no_inline_pending self /\ _idle_timer self = None.

(** The state the tracker has with the Selenium engine. *)
Definition detached (self : NetworkTracker) : Prop :=
  engine self = selenium /\ page_handlers self = false /\ _pending_requests self = ∅.

(** Handlers are on the page exactly while a Playwright tracker is
    tracking, and a tracker that is not tracking has nothing pending. *)
Definition wired (self : NetworkTracker) : Prop :=
  page_handlers self = (_is_tracking self && is_playwright (engine self))%bool /\
  (_is_tracking self = false -> _pending_requests self = ∅).

(** One step of the stale-request sweep. *)
Definition purge_step (now : Z) (entry : string * Z) (acc : NetworkTracker)
  : NetworkTracker :=
  let '(key, start) := entry in
  if now - start >? request_timeout acc then
    set_requests acc (delete key (_pending_requests acc))
                     (delete key (_request_start_times acc))
  else acc.

End network_tracker.

(* ===================================================================== *)
(** * asyncio.Event objects *)
(* ===================================================================== *)

Module asyncio.

(** Every [asyncio.Event()] ever created is numbered in order of creation;
    the store remembers how many exist and which of them are set. *)
Record EventStore : Type := {
  allocated : nat;
  fired : gset nat
}.

Definition empty_store : EventStore := {| allocated := 0; fired := ∅ |}.

(** [asyncio.Event()] *)
Definition Event (st : EventStore) : nat * EventStore :=
  (allocated st, {| allocated := S (allocated st); fired := fired st |}).

(** [event.set()] *)
Definition set (e : nat) (st : EventStore) : EventStore :=
  {| allocated := allocated st; fired := {[e]} ∪ fired st |}.

(** [event.is_set()] *)
Definition is_set (e : nat) (st : EventStore) : bool := bool_decide (e ∈ fired st).

End asyncio.

(* ===================================================================== *)
(** * core/navigation_manager.py *)
(* ===================================================================== *)

Module navigation_manager.

(** A registered callback: a caller-supplied function, identified by a
    number, or the bound method [PageTriggerManager._on_url_change]. *)
Inductive Listener : Type :=
| external (id : nat)
| page_trigger_handler.

Global Instance Listener_eq_dec : EqDecision Listener.
Proof. solve_decision. Defined.

(** One call of a listener with the dictionary it receives. *)
Inductive Call : Type :=
| on_url_change (fn : Listener) (old_url new_url : str)
| on_navigation_start (fn : Listener) (url : str)
| on_navigation_complete (fn : Listener) (url : str)
| on_page_ready (fn : Listener) (url : str).

Record NavigationManager : Type := {
  engine : network_tracker.EngineType;
  network_tracker : option network_tracker.NetworkTracker;
  _is_listening : bool;
  _is_navigating : bool;
  _last_url : str;
  _abort_controller : option nat;
  _listeners_on_navigation_start : list Listener;
  _listeners_on_navigation_complete : list Listener;
  _listeners_on_url_change : list Listener;
  _listeners_on_page_ready : list Listener;
  (** whether the page has [_on_frame_navigated] registered *)
  page_handler : bool
}.

Definition __init__ (engine : network_tracker.EngineType)
    (tracker : option network_tracker.NetworkTracker) : NavigationManager :=
  {| engine := engine; network_tracker := tracker;
     _is_listening := false; _is_navigating := false; _last_url := [];
     _abort_controller := None;
     _listeners_on_navigation_start := []; _listeners_on_navigation_complete := [];
     _listeners_on_url_change := []; _listeners_on_page_ready := [];
     page_handler := false |}.

Definition set_listening (self : NavigationManager) (listening : bool)
    (last_url : str) (controller : option nat) (handler : bool) : NavigationManager :=
  {| engine := engine self; network_tracker := network_tracker self;
     _is_listening := listening; _is_navigating := _is_navigating self;
     _last_url := last_url; _abort_controller := controller;
     _listeners_on_navigation_start := _listeners_on_navigation_start self;
     _listeners_on_navigation_complete := _listeners_on_navigation_complete self;
     _listeners_on_url_change := _listeners_on_url_change self;
     _listeners_on_page_ready := _listeners_on_page_ready self;
     page_handler := handler |}.

Definition set_navigating (self : NavigationManager) (navigating : bool)
    (tracker : option network_tracker.NetworkTracker) : NavigationManager :=
  {| engine := engine self; network_tracker := tracker;
     _is_listening := _is_listening self; _is_navigating := navigating;
     _last_url := _last_url self; _abort_controller := _abort_controller self;
     _listeners_on_navigation_start := _listeners_on_navigation_start self;
     _listeners_on_navigation_complete := _listeners_on_navigation_complete self;
     _listeners_on_url_change := _listeners_on_url_change self;
     _listeners_on_page_ready := _listeners_on_page_ready self;
     page_handler := page_handler self |}.

Definition set_listeners (self : NavigationManager)
    (starts completes changes readies : list Listener) : NavigationManager :=
  {| engine := engine self; network_tracker := network_tracker self;
     _is_listening := _is_listening self; _is_navigating := _is_navigating self;
     _last_url := _last_url self; _abort_controller := _abort_controller self;
     _listeners_on_navigation_start := starts;
     _listeners_on_navigation_complete := completes;
     _listeners_on_url_change := changes;
     _listeners_on_page_ready := readies;
     page_handler := page_handler self |}.

(** [current_url] is what [_get_current_url()] reads from the page. *)
Definition start_listening (self : NavigationManager) (current_url : str)
    (events : asyncio.EventStore) : NavigationManager * asyncio.EventStore :=
  if _is_listening self then (self, events)
  else
    let '(controller, events1) := asyncio.Event events in
    (set_listening self true current_url (Some controller)
       (if network_tracker.is_playwright (engine self) then true else page_handler self),
     events1).

Definition stop_listening (self : NavigationManager) : NavigationManager :=
  if negb (_is_listening self) then self
  else
    set_listening self false (_last_url self) (_abort_controller self)
      (if network_tracker.is_playwright (engine self) then false else page_handler self).

(** Handle URL change.  The listener calls are returned in the order in
    which the two loops make them; all attribute updates come first. *)
Definition _on_url_change (self : NavigationManager) (new_url : str)
    (events : asyncio.EventStore)
  : NavigationManager * asyncio.EventStore * list Call :=
  let old_url := _last_url self in
  let '(controller, events1) :=
    match _abort_controller self with
    | Some signal =>
        let '(fresh, events1) := asyncio.Event (asyncio.set signal events) in
        (Some fresh, events1)
    | None => (None, events)
    end in
  let self1 :=
    set_navigating (set_listening self (_is_listening self) new_url controller
                      (page_handler self))
                   true (network_tracker self) in
  (self1, events1,
   map (fun fn => on_url_change fn old_url new_url) (_listeners_on_url_change self1)
   ++ map (fun fn => on_navigation_start fn new_url) (_listeners_on_navigation_start self1)).

(** Handle frame navigation event (Playwright). *)
Definition _on_frame_navigated (self : NavigationManager) (is_main_frame : bool)
    (current_url : str) (events : asyncio.EventStore)
  : NavigationManager * asyncio.EventStore * list Call :=
  if negb is_main_frame then (self, events, [])
  else
    let new_url := current_url in
    if negb (Re.str_eqb new_url (_last_url self)) then _on_url_change self new_url events
    else (self, events, []).

Definition is_navigating (self : NavigationManager) : bool := _is_navigating self.

Definition should_abort (self : NavigationManager) (events : asyncio.EventStore) : bool :=
  match _abort_controller self with
  | Some signal => asyncio.is_set signal events
  | None => false
  end.

Definition get_abort_signal (self : NavigationManager) : option nat :=
  _abort_controller self.

Definition on (self : NavigationManager) (event : string) (callback : Listener)
  : NavigationManager :=
  if String.eqb event "on_navigation_start" then
    set_listeners self (_listeners_on_navigation_start self ++ [callback])
      (_listeners_on_navigation_complete self) (_listeners_on_url_change self)
      (_listeners_on_page_ready self)
  else if String.eqb event "on_navigation_complete" then
    set_listeners self (_listeners_on_navigation_start self)
      (_listeners_on_navigation_complete self ++ [callback]) (_listeners_on_url_change self)
      (_listeners_on_page_ready self)
  else if String.eqb event "on_url_change" then
    set_listeners self (_listeners_on_navigation_start self)
      (_listeners_on_navigation_complete self) (_listeners_on_url_change self ++ [callback])
      (_listeners_on_page_ready self)
  else if String.eqb event "on_page_ready" then
    set_listeners self (_listeners_on_navigation_start self)
      (_listeners_on_navigation_complete self) (_listeners_on_url_change self)
      (_listeners_on_page_ready self ++ [callback])
  else self.

(** [list.remove(x)]: drop the first element equal to [x]. *)
Fixpoint remove_first {A} `{EqDecision A} (x : A) (l : list A) : list A :=
  match l with
  | [] => []
  | y :: l' => if decide (x = y) then l' else y :: remove_first x l'
  end.

Definition off (self : NavigationManager) (event : string) (callback : Listener)
  : NavigationManager :=
  if String.eqb event "on_navigation_start" then
    set_listeners self (remove_first callback (_listeners_on_navigation_start self))
      (_listeners_on_navigation_complete self) (_listeners_on_url_change self)
      (_listeners_on_page_ready self)
  else if String.eqb event "on_navigation_complete" then
    set_listeners self (_listeners_on_navigation_start self)
      (remove_first callback (_listeners_on_navigation_complete self))
      (_listeners_on_url_change self) (_listeners_on_page_ready self)
  else if String.eqb event "on_url_change" then
    set_listeners self (_listeners_on_navigation_start self)
      (_listeners_on_navigation_complete self)
      (remove_first callback (_listeners_on_url_change self))
      (_listeners_on_page_ready self)
  else if String.eqb event "on_page_ready" then
    set_listeners self (_listeners_on_navigation_start self)
      (_listeners_on_navigation_complete self) (_listeners_on_url_change self)
      (remove_first callback (_listeners_on_page_ready self))
  else self.

(** [await self.wait_for_page_ready(timeout, reason)], called at time
    [clock] while the page shows [current_url].  No time passes between the
    two clock readings at the top, so the remaining timeout is the timeout.
    The tracker the manager refers to is kept inside the manager record and
    is stored back after the wait.  The result is the returned boolean, the
    time of return, the manager and the listener calls made. *)
Definition wait_for_page_ready (env : Z -> list network_tracker.Event) (clock : Z)
    (self : NavigationManager) (current_url : str) (timeout : Z)
  : option (bool * Z * NavigationManager * list Call) :=
  let start_time := clock in
  let ready (clock1 : Z) (self1 : NavigationManager) :=
    Some (true, clock1, set_navigating self1 false (network_tracker self1),
          map (fun fn => on_page_ready fn current_url) (_listeners_on_page_ready self1)) in
  match network_tracker self with
  | Some tracker =>
      let remaining_timeout := timeout - (clock - start_time) in
      if remaining_timeout >? 0 then
        match network_tracker.wait_for_network_idle env clock tracker
                remaining_timeout None with
        | Some (network_idle, clock1, tracker1) =>
            let self1 := set_navigating self (_is_navigating self) (Some tracker1) in
            if negb network_idle then Some (false, clock1, self1, [])
            else ready clock1 self1
        | None => None
        end
      else ready clock self
  | None => ready clock self
  end.

(** A manager without a network tracker, in the middle of a navigation,
    with one [on_page_ready] listener. *)
Definition bare_manager : NavigationManager :=
  set_navigating
    (on (__init__ network_tracker.playwright None) "on_page_ready" (external 1))
    true None.

(** ** Navigating *)

(** What the driver call can raise: an [Exception], or a [BaseException]
    outside [Exception] such as the cancellation of the task. *)
Inductive DriverError : Type :=
| driver_Exception (tag : nat)
| driver_BaseException (tag : nat).

(** The driver call made by [navigate] ([page.goto], or [page.get] with
    Selenium): it returns or raises after some time. *)
Inductive Goto : Type :=
| goto_returns (duration : Z)
| goto_raises (duration : Z) (error : DriverError).

Inductive Navigated : Type :=
| navigate_returns (result : bool)
| navigate_raises (error : DriverError).

(** Time passes for the tracker the manager refers to. *)
Definition advance (env : Z -> list network_tracker.Event) (ms clock : Z)
    (self : NavigationManager) : NavigationManager :=
  set_navigating self (_is_navigating self)
    (network_tracker.run_ticks env (Z.to_nat ms) clock <$> network_tracker self).

(** [await self.navigate(url, wait_until, timeout)], called at time [clock];
    [current_url] is what the page shows once the driver call is over.  The
    result of [wait_for_page_ready] is not looked at. *)
Definition navigate (env : Z -> list network_tracker.Event) (clock : Z)
    (self : NavigationManager) (current_url url : str) (timeout : Z) (goto : Goto)
  : option (Navigated * Z * NavigationManager * list Call) :=
  let self1 := set_navigating self true (network_tracker self) in
  match goto with
  | goto_returns duration =>
      let self2 := advance env duration clock self1 in
      match wait_for_page_ready env (clock + Z.max 0 duration) self2 current_url timeout with
      | Some (_, clock3, self3, calls) =>
          Some (navigate_returns true, clock3,
                set_navigating self3 false (network_tracker self3),
                calls ++ map (fun fn => on_navigation_complete fn url)
                             (_listeners_on_navigation_complete self3))
      | None => None
      end
  | goto_raises duration error =>
      let self2 := advance env duration clock self1 in
      match error with
      | driver_Exception _ =>
          Some (navigate_raises error, clock + Z.max 0 duration,
                set_navigating self2 false (network_tracker self2), [])
      | driver_BaseException _ =>
          Some (navigate_raises error, clock + Z.max 0 duration, self2, [])
      end
  end.

(** The [while self._is_navigating] loop of [wait_for_navigation].  The flag
    is written by other tasks; [navigating_at t] is the value it has at time
    [t].  Each iteration that goes on sleeps 100 ms. *)
Fixpoint wait_for_navigation_loop (fuel : nat) (navigating_at : Z -> bool)
    (timeout start_time clock : Z) : option (bool * Z) :=
  match fuel with
  | O => None
  | S fuel' =>
      if navigating_at clock then
        if clock - start_time >? timeout then Some (false, clock)
        else wait_for_navigation_loop fuel' navigating_at timeout start_time (clock + 100)
      else Some (true, clock)
  end.

(** [await self.wait_for_navigation(timeout)], called at time [clock]: the
    returned boolean and the time of return. *)
Definition wait_for_navigation (navigating_at : Z -> bool) (clock timeout : Z)
  : option (bool * Z) :=
  if negb (navigating_at clock) then Some (true, clock)
  else
    wait_for_navigation_loop (Z.to_nat (timeout / 100) + 2) navigating_at timeout
      clock clock.

(** The answer and the time of return of a call, without the state. *)
Definition answered {A B C D : Type} (r : option (A * B * C * D)) : option (A * B) :=
  (fun x => (fst (fst (fst x)), snd (fst (fst x)))) <$> r.

(** A manager whose tracker has a request pending that never completes. *)
Definition manager_with_stuck_request : NavigationManager :=
  __init__ network_tracker.playwright
    (Some (fst (network_tracker._on_request 0 network_tracker.listening_tracker
                  (network_tracker.req "GET" "/a")))).

(** The flag is cleared 250 ms from now. *)
Definition navigating_until_250 (t : Z) : bool := t <? 250.

End navigation_manager.

(* ===================================================================== *)
(** * core/constants.py *)
(* ===================================================================== *)

Module constants.

Definition VERIFICATION_TIMEOUT : Z := 3000.
Definition VERIFICATION_RETRY_INTERVAL : Z := 100.
Definition NAVIGATION_TIMEOUT : Z := 30000.
Definition NETWORK_IDLE_TIMEOUT : Z := 30000.

End constants.

(* ===================================================================== *)
(** * The verify-with-retry protocol *)
(* ===================================================================== *)

Module retry.

(** What awaiting a caller-supplied verification function gives: the result
    it returns, or an exception, which the verify loops do not catch. *)
Inductive awaited (R : Type) : Type :=
| value (r : R)
| exception_raised.

Arguments value {R} r.
Arguments exception_raised {R}.

Section Protocol.

Context {R : Type}.
Variables (is_verified is_navigation_error : R -> bool).
Variables (on_verified on_navigation_error on_timeout : R -> nat -> R).
(** The verification function: its answer when called for the [n]-th time
    (counting from 0) at a given time. *)
Variable verify_fn : nat -> Z -> awaited R.
Variables (timeout retry_interval start_time : Z).

(** The generic algorithm, in the words of the protocol: loop while elapsed
    < timeout; call [verify_fn]; if verified, return success at once with
    the attempt count; if it reports a navigation error, return failure at
    once tagged as such; otherwise sleep [retry_interval] and retry; on
    timeout exhaustion return the last observed result with the attempt
    count.  [calls] lists the times at which [verify_fn] has been called. *)
Fixpoint retry_loop (fuel : nat) (clock : Z) (attempts : nat) (last_result : R)
    (calls : list Z) : option (awaited R * Z * list Z) :=
  match fuel with
  | O => None
  | S fuel' =>
      if clock - start_time <? timeout then
        match verify_fn (length calls) clock with
        | value result =>
            if is_verified result then
              Some (value (on_verified result (S attempts)), clock, calls ++ [clock])
            else if is_navigation_error result then
              Some (value (on_navigation_error result (S attempts)), clock, calls ++ [clock])
            else
              retry_loop fuel' (clock + Z.max 0 retry_interval) (S attempts) result
                (calls ++ [clock])
        | exception_raised => Some (exception_raised, clock, calls ++ [clock])
        end
      else Some (value (on_timeout last_result attempts), clock, calls)
  end.

End Protocol.

(** Iterations that are enough for the loop to end when every sleep lasts at
    least one millisecond. *)
Definition enough_fuel (timeout retry_interval : Z) : nat :=
  (Z.to_nat (timeout / Z.max 1 retry_interval) + 2)%nat.

(** What a run of a verify loop started at [start_time] has to satisfy.  The
    call ends no later than [timeout + retry_interval] after it started; the
    [n]-th call of the verification function happens [n] retry intervals
    after the start, and only while elapsed < timeout; every call but the
    last returned a result that was neither verified nor a navigation error;
    the last call decides: an exception passes through, a verified result or
    a navigation error is reported at the time of that very call, and
    anything else means the timeout ran out one retry interval later; the
    reported attempt count is the number of calls made. *)
Definition contract {R : Type} (is_verified is_navigation_error : R -> bool)
    (attempts_of : R -> nat) (verify_fn : nat -> Z -> awaited R)
    (timeout retry_interval start_time : Z)
    (run : option (awaited R * Z * list Z)) : Prop :=
  exists out clock' calls,
    run = Some (out, clock', calls) /\
    clock' - start_time <= Z.max 0 (timeout + retry_interval) /\
    (forall result, out = value result -> attempts_of result = length calls) /\
    (forall i t, calls !! i = Some t ->
                 t = start_time + Z.of_nat i * retry_interval /\ t - start_time < timeout) /\
    (forall i t, calls !! i = Some t -> (S i < length calls)%nat ->
                 exists result, verify_fn i t = value result /\
                                is_verified result = false /\
                                is_navigation_error result = false) /\
    (forall t, calls !! (length calls - 1)%nat = Some t ->
               match verify_fn (length calls - 1)%nat t with
               | exception_raised => out = exception_raised /\ clock' = t
               | value result =>
                   if is_verified result then
                     clock' = t /\
                     exists reported, out = value reported /\
                                      is_verified reported = true /\
                                      is_navigation_error reported = false
                   else if is_navigation_error result then
                     clock' = t /\
                     exists reported, out = value reported /\
                                      is_verified reported = false /\
                                      is_navigation_error reported = true
                   else
                     clock' = t + retry_interval /\ timeout <= clock' - start_time /\
                     exists reported, out = value reported /\
                                      is_verified reported = false /\
                                      is_navigation_error reported = false
               end) /\
    (calls = [] ->
     timeout <= 0 /\ clock' = start_time /\
     exists reported, out = value reported /\ is_verified reported = false).

(** The calls made so far were on schedule and none of them decided. *)
Definition undecided_so_far {R : Type} (is_verified is_navigation_error : R -> bool)
    (verify_fn : nat -> Z -> awaited R) (timeout retry_interval start_time : Z)
    (calls : list Z) : Prop :=
  forall i t, calls !! i = Some t ->
    t = start_time + Z.of_nat i * retry_interval /\ t - start_time < timeout /\
    exists result, verify_fn i t = value result /\
                   is_verified result = false /\ is_navigation_error result = false.

End retry.

(* ===================================================================== *)
(** * core/navigation_safety.py *)
(* ===================================================================== *)

Module navigation_safety.

(** An exception as the classifiers see it: whether it is an instance of
    [NavigationError] or of [ActionStoppedError], and its [str()]. *)
Inductive ErrorClass : Type :=
| NavigationError
| ActionStoppedError
| OtherException.

Record Error : Type := {
  error_class : ErrorClass;
  message : str
}.

(** [str.lower()] on code points below 256: the ASCII capitals and the
    Latin-1 capitals (all of 192..222 but the multiplication sign). *)
Definition lower_char (c : ascii) : ascii :=
  let n := nat_of_ascii c in
  if ((Nat.leb 65 n && Nat.leb n 90)
      || (Nat.leb 192 n && Nat.leb n 222 && negb (Nat.eqb n 215)))%bool
  then ascii_of_nat (n + 32) else c.

Definition lower (s : str) : str := map lower_char s.

(** [needle in s] *)
Fixpoint contains (needle s : str) : bool :=
  (UrlCondition.startswith needle s
   || match s with
      | [] => false
      | _ :: s' => contains needle s'
      end)%bool.

Definition playwright_patterns : list str :=
  map py [ "navigation"; "frame was detached"; "execution context was destroyed";
           "target closed"; "page closed"; "browser closed"; "target crashed";
           "context destroyed" ]%string.

Definition selenium_patterns : list str :=
  map py [ "stale element reference"; "no such element"; "no such window";
           "session deleted"; "target frame detached"; "web element reference" ]%string.

Definition all_patterns : list str := playwright_patterns ++ selenium_patterns.

Definition is_navigation_error (error : Error) : bool :=
  match error_class error with
  | NavigationError => true
  | _ =>
      let error_message := lower (message error) in
      existsb (fun pattern => contains pattern error_message) all_patterns
  end.

Definition timeout_patterns : list str :=
  map py [ "timeout"; "timed out"; "exceeded"; "deadline" ]%string.

Definition is_timeout_error (error : Error) : bool :=
  let error_message := lower (message error) in
  existsb (fun pattern => contains pattern error_message) timeout_patterns.

(** What awaiting a driver call gives: its value, or an [Exception]. *)
Inductive Read (A : Type) : Type :=
| read_value (a : A)
| read_raises (error : Error).

Arguments read_value {A} a.
Arguments read_raises {A} error.

(** [safe_operation(default_value)(func)(...)]: the wrapped call. *)
Definition safe_operation {A : Type} (default_value : A) (func : Read A) : Read A :=
  match func with
  | read_value a => read_value a
  | read_raises e => if is_navigation_error e then read_value default_value else read_raises e
  end.

End navigation_safety.

(* ===================================================================== *)
(** * elements/content.py *)
(* ===================================================================== *)

Module content.

(** [await get_input_value(page, engine, locator_or_element)];
    [locator_or_element] is truthy or not, and [adapter] is what creating
    the adapter and asking it for the value gives. *)
Definition get_input_value (locator_or_element : bool)
    (adapter : navigation_safety.Read str) : navigation_safety.Read str :=
  if negb locator_or_element then
    navigation_safety.read_raises
      {| navigation_safety.error_class := navigation_safety.OtherException;
         navigation_safety.message := py "locator_or_element is required" |}
  else
    match adapter with
    | navigation_safety.read_value v => navigation_safety.read_value v
    | navigation_safety.read_raises error =>
        if navigation_safety.is_navigation_error error
        then navigation_safety.read_value []
        else navigation_safety.read_raises error
    end.

End content.

(* ===================================================================== *)
(** * interactions/fill.py: verifying a fill *)
(* ===================================================================== *)

Module fill.
Import retry.

Record FillVerificationResult : Type := {
  verified : bool;
  actual_value : str;
  navigation_error : bool;
  attempts : nat
}.

(** The [while] loop of [verify_fill].  A sleep of a non-positive duration
    takes no time, calling [verify_fn] takes none either. *)
Fixpoint verify_fill_loop (fuel : nat)
    (verify_fn : nat -> Z -> awaited FillVerificationResult)
    (timeout retry_interval start_time : Z)
    (clock : Z) (attempts : nat) (last_result : FillVerificationResult)
    (calls : list Z) : option (awaited FillVerificationResult * Z * list Z) :=
  match fuel with
  | O => None
  | S fuel' =>
      if clock - start_time <? timeout then
        let attempts := S attempts in
        match verify_fn (length calls) clock with
        | exception_raised => Some (exception_raised, clock, calls ++ [clock])
        | value last_result =>
            if verified last_result then
              Some (value {| verified := true;
                             actual_value := actual_value last_result;
                             navigation_error := false;
                             attempts := attempts |},
                    clock, calls ++ [clock])
            else if navigation_error last_result then
              Some (value {| verified := false; actual_value := [];
                             navigation_error := true; attempts := attempts |},
                    clock, calls ++ [clock])
            else
              verify_fill_loop fuel' verify_fn timeout retry_interval start_time
                (clock + Z.max 0 retry_interval) attempts last_result (calls ++ [clock])
        end
      else
        Some (value {| verified := false;
                       actual_value := actual_value last_result;
                       navigation_error := false;
                       attempts := attempts |},
              clock, calls)
  end.

(** [await verify_fill(..., verify_fn, timeout, retry_interval)], called at
    time [clock].  The result is what the call returns (or that it raised),
    the time of return and the times at which [verify_fn] was called. *)
Definition verify_fill (verify_fn : nat -> Z -> awaited FillVerificationResult)
    (timeout retry_interval : option Z) (clock : Z)
  : option (awaited FillVerificationResult * Z * list Z) :=
  let timeout := default constants.VERIFICATION_TIMEOUT timeout in
  let retry_interval := default constants.VERIFICATION_RETRY_INTERVAL retry_interval in
  let start_time := clock in
  let attempts := 0%nat in
  let last_result := {| verified := false; actual_value := [];
                        navigation_error := false; attempts := 0 |} in
  verify_fill_loop (enough_fuel timeout retry_interval) verify_fn timeout retry_interval
    start_time clock attempts last_result [].

(** What [verify_fill] returns in each of its three exits. *)
Definition fill_on_verified (x : FillVerificationResult) (n : nat) :=
  {| verified := true; actual_value := actual_value x;
     navigation_error := false; attempts := n |}.

Definition fill_on_navigation_error (x : FillVerificationResult) (n : nat) :=
  {| verified := false; actual_value := [];
     navigation_error := true; attempts := n |}.

Definition fill_on_timeout (x : FillVerificationResult) (n : nat) :=
  {| verified := false; actual_value := actual_value x;
     navigation_error := false; attempts := n |}.

(** A field that is filled on the third look. *)
Definition filled_on_third_call (n : nat) (t : Z) : awaited FillVerificationResult :=
  value {| verified := Nat.leb 2 n;
           actual_value := if Nat.leb 2 n then py "hello" else [];
           navigation_error := false; attempts := 0 |}.

(** ** The default verification *)

(** [await default_fill_verification(page, engine, locator_or_element,
    expected_text)]; [input] is what [get_input_value] gives. *)
Definition default_fill_verification (input : navigation_safety.Read str)
    (expected_text : str) : awaited FillVerificationResult :=
  match input with
  | navigation_safety.read_value actual_value =>
      value {| verified := (Re.str_eqb actual_value expected_text
                            || navigation_safety.contains expected_text actual_value)%bool;
               actual_value := actual_value;
               navigation_error := false; attempts := 0 |}
  | navigation_safety.read_raises error =>
      if navigation_safety.is_navigation_error error
      then value {| verified := false; actual_value := [];
                    navigation_error := true; attempts := 0 |}
      else exception_raised
  end.

(** [verify_fill] with the default verification function: at its [n]-th
    call, at time [t], the adapter answers [adapter n t]. *)
Definition verify_fill_by_default (locator_or_element : bool)
    (adapter : nat -> Z -> navigation_safety.Read str) (expected_text : str)
    (timeout retry_interval : option Z) (clock : Z)
  : option (awaited FillVerificationResult * Z * list Z) :=
  verify_fill
    (fun n t =>
       default_fill_verification
         (content.get_input_value locator_or_element (adapter n t)) expected_text)
    timeout retry_interval clock.

End fill.

(* ===================================================================== *)
(** * browser/navigation.py: verifying a navigation, page readiness *)
(* ===================================================================== *)

Module navigation.
Import retry.

Record NavigationVerificationResult : Type := {
  verified : bool;
  actual_url : str;
  reason : str;
  navigation_error : bool;
  attempts : nat
}.

(** The [while] loop of [verify_navigation]. *)
Fixpoint verify_navigation_loop (fuel : nat)
    (verify_fn : nat -> Z -> awaited NavigationVerificationResult)
    (timeout retry_interval start_time : Z)
    (clock : Z) (attempts : nat) (last_result : NavigationVerificationResult)
    (calls : list Z) : option (awaited NavigationVerificationResult * Z * list Z) :=
  match fuel with
  | O => None
  | S fuel' =>
      if clock - start_time <? timeout then
        let attempts := S attempts in
        match verify_fn (length calls) clock with
        | exception_raised => Some (exception_raised, clock, calls ++ [clock])
        | value last_result =>
            if verified last_result then
              Some (value {| verified := verified last_result;
                             actual_url := actual_url last_result;
                             reason := reason last_result;
                             navigation_error := false;
                             attempts := attempts |},
                    clock, calls ++ [clock])
            else if navigation_error last_result then
              Some (value {| verified := verified last_result;
                             actual_url := actual_url last_result;
                             reason := reason last_result;
                             navigation_error := true;
                             attempts := attempts |},
                    clock, calls ++ [clock])
            else
              verify_navigation_loop fuel' verify_fn timeout retry_interval start_time
                (clock + Z.max 0 retry_interval) attempts last_result (calls ++ [clock])
        end
      else
        Some (value {| verified := verified last_result;
                       actual_url := actual_url last_result;
                       reason := reason last_result;
                       navigation_error := false;
                       attempts := attempts |},
              clock, calls)
  end.

(** [await verify_navigation(..., verify_fn, timeout, retry_interval)] *)
Definition verify_navigation
    (verify_fn : nat -> Z -> awaited NavigationVerificationResult)
    (timeout retry_interval : option Z) (clock : Z)
  : option (awaited NavigationVerificationResult * Z * list Z) :=
  let timeout := default constants.VERIFICATION_TIMEOUT timeout in
  let retry_interval := default constants.VERIFICATION_RETRY_INTERVAL retry_interval in
  let start_time := clock in
  let attempts := 0%nat in
  let last_result := {| verified := false; actual_url := []; reason := [];
                        navigation_error := false; attempts := 0 |} in
  verify_navigation_loop (enough_fuel timeout retry_interval) verify_fn timeout
    retry_interval start_time clock attempts last_result [].


(** What [verify_navigation] returns in each of its three exits. *)
Definition navigation_on_verified (x : NavigationVerificationResult) (n : nat) :=
  {| verified := verified x;
     actual_url := actual_url x;
     reason := reason x;
     navigation_error := false; attempts := n |}.

Definition navigation_on_navigation_error
    (x : NavigationVerificationResult) (n : nat) :=
  {| verified := verified x;
     actual_url := actual_url x;
     reason := reason x;
     navigation_error := true; attempts := n |}.

(** A page that goes away on the second look. *)
Definition gone_on_second_call (n : nat) (t : Z)
  : awaited NavigationVerificationResult :=
  value {| verified := false; actual_url := [];
           reason := py "error during verification";
           navigation_error := Nat.leb 1 n; attempts := 0 |}.

(** The module-level [wait_for_page_ready].  [wait_fn], when given, is the
    caller's wait function, modelled by the time at which a wait requested
    at a given time for a given number of milliseconds is over. *)
Definition wait_for_page_ready (env : Z -> list network_tracker.Event) (clock : Z)
    (manager : option navigation_manager.NavigationManager)
    (tracker : option network_tracker.NetworkTracker)
    (wait_fn : option (Z -> Z -> Z))
    (current_url : str) (timeout : Z) : option (bool * Z) :=
  match manager with
  | Some nm =>
      match navigation_manager.wait_for_page_ready env clock nm current_url timeout with
      | Some (ready, clock1, _, _) => Some (ready, clock1)
      | None => None
      end
  | None =>
      match tracker with
      | Some tr =>
          match network_tracker.wait_for_network_idle env clock tr timeout (Some 2000) with
          | Some (network_idle, clock1, _) => Some (network_idle, clock1)
          | None => None
          end
      | None =>
          match wait_fn with
          | Some wait => Some (true, wait clock 1000)
          | None => Some (true, clock + 1000)
          end
      end
  end.

(** ** The default verification *)

(** The [expected_url] argument: nothing, a string, or a compiled pattern
    together with its [str()]. *)
Inductive Expected : Type :=
| expected_none
| expected_str (s : str)
| expected_pattern (r : Re.regex) (printed : str).

Definition quote : ascii := ascii_of_nat 34.

Definition mismatch (expected actual : str) : str :=
  py "URL mismatch: expected " ++ [quote] ++ expected ++ [quote]
  ++ py ", got " ++ [quote] ++ actual ++ [quote].

(** [await default_navigation_verification(page, expected_url, start_url)];
    [url] is what reading the page's URL gives. *)
Definition default_navigation_verification (url : navigation_safety.Read str)
    (expected_url : Expected) (start_url : option str)
  : awaited NavigationVerificationResult :=
  let result (verified : bool) (actual_url : str) (reason : str) :=
    value {| verified := verified; actual_url := actual_url; reason := reason;
             navigation_error := false; attempts := 0 |} in
  let unexpected (actual_url : str) :=
    if match start_url with
       | Some start => (negb (Re.str_eqb start []) && negb (Re.str_eqb actual_url start))%bool
       | None => false
       end
    then result true actual_url (py "URL changed from start")
    else result true actual_url (py "navigation completed") in
  match url with
  | navigation_safety.read_value actual_url =>
      match expected_url with
      | expected_none => unexpected actual_url
      | expected_str [] => unexpected actual_url
      | expected_str expected =>
          if Re.str_eqb actual_url expected
          then result true actual_url (py "exact URL match")
          else if (navigation_safety.contains expected actual_url
                   || UrlCondition.startswith expected actual_url)%bool
          then result true actual_url (py "URL pattern match")
          else result false actual_url (mismatch expected actual_url)
      | expected_pattern r printed =>
          if Re.search r actual_url
          then result true actual_url (py "URL regex match")
          else result false actual_url (mismatch printed actual_url)
      end
  | navigation_safety.read_raises error =>
      if (navigation_safety.is_navigation_error error
          || match navigation_safety.error_class error with
             | navigation_safety.ActionStoppedError => true
             | _ => false
             end)%bool
      then value {| verified := false; actual_url := [];
                    reason := py "error during verification";
                    navigation_error := true; attempts := 0 |}
      else exception_raised
  end.

(** ** Waiting for the URL to stabilise *)

(** The page polled by [wait_for_url_stabilization]: [Some url_at] for an
    object with a [url] (method or attribute) or a [current_url] attribute,
    whose value at time [t] is [url_at t]; [None] for an object with
    neither, whose URL reads as the empty string. *)
Definition read_url (page : option (Z -> str)) (t : Z) : str :=
  match page with
  | Some url_at => url_at t
  | None => []
  end.

(** The [while stable_count < stable_checks] loop.  [wait_fn] is the
    caller's wait function, as in [wait_for_page_ready]: the time at which
    a wait requested at a given time for a given number of milliseconds is
    over (the wait is taken to return rather than raise). *)
Fixpoint wait_for_url_stabilization_loop (fuel : nat) (page : option (Z -> str))
    (wait_fn : Z -> Z -> Z) (stable_checks check_interval timeout start_time : Z)
    (clock : Z) (stable_count : Z) (last_url : str) : option (bool * Z) :=
  match fuel with
  | O => None
  | S fuel' =>
      if stable_count <? stable_checks then
        if clock - start_time >? timeout then Some (false, clock)
        else
          let clock := wait_fn clock check_interval in
          let current_url := read_url page clock in
          if Re.str_eqb current_url last_url then
            wait_for_url_stabilization_loop fuel' page wait_fn stable_checks
              check_interval timeout start_time clock (stable_count + 1) last_url
          else
            wait_for_url_stabilization_loop fuel' page wait_fn stable_checks
              check_interval timeout start_time clock 0 current_url
      else Some (true, clock)
  end.

(** [await wait_for_url_stabilization(page, log, wait_fn, navigation_manager,
    stable_checks, check_interval, timeout)], called at time [clock]: the
    returned boolean and the time of return.  With a navigation manager the
    call is handed to its [wait_for_page_ready]; [current_url] is what that
    manager's page shows.  The legacy loop is bounded by [fuel] iterations. *)
Definition wait_for_url_stabilization (fuel : nat)
    (env : Z -> list network_tracker.Event) (clock : Z)
    (page : option (Z -> str)) (wait_fn : Z -> Z -> Z)
    (manager : option navigation_manager.NavigationManager) (current_url : str)
    (stable_checks check_interval timeout : Z) : option (bool * Z) :=
  match manager with
  | Some nm =>
      navigation_manager.answered
        (navigation_manager.wait_for_page_ready env clock nm current_url timeout)
  | None =>
      let stable_count := 0 in
      let last_url := read_url page clock in
      let start_time := clock in
      wait_for_url_stabilization_loop fuel page wait_fn stable_checks check_interval
        timeout start_time clock stable_count last_url
  end.

(** The time of the [n]-th look at the URL: the call time for the first
    one, and one wait of [check_interval] after the previous look for each
    later one. *)
Definition check_time (wait_fn : Z -> Z -> Z) (check_interval clock : Z) (n : nat) : Z :=
  Nat.iter n (fun t => wait_fn t check_interval) clock.

(** The URL seen at the [n]-th look. *)
Definition url_read (page : option (Z -> str)) (wait_fn : Z -> Z -> Z)
    (check_interval clock : Z) (n : nat) : str :=
  read_url page (check_time wait_fn check_interval clock n).

(** The URL has settled at the [n]-th look: that look and the
    [stable_checks] looks before it all gave the same URL. *)
Definition settled (page : option (Z -> str)) (wait_fn : Z -> Z -> Z)
    (stable_checks check_interval clock : Z) (n : nat) : Prop :=
  stable_checks <= Z.of_nat n /\
  forall j : nat,
    Z.of_nat n - stable_checks <= Z.of_nat j <= Z.of_nat n ->
    url_read page wait_fn check_interval clock j
    = url_read page wait_fn check_interval clock n.

(** What the loop knows at the [n]-th look with [stable_count = k]: the
    last [k + 1] looks agree, and the look before them, if any, differs. *)
Definition run_of (page : option (Z -> str)) (wait_fn : Z -> Z -> Z)
    (check_interval clock : Z) (n k : nat) : Prop :=
  (k <= n)%nat /\
  (forall j : nat, (n - k <= j <= n)%nat ->
     url_read page wait_fn check_interval clock j
     = url_read page wait_fn check_interval clock n) /\
  ((k < n)%nat ->
     url_read page wait_fn check_interval clock (n - k - 1)
     <> url_read page wait_fn check_interval clock n).

(** The loop stops at the [n]-th look with [result]: no earlier look found
    the URL settled or the timeout passed, and the [n]-th look found the
    URL settled ([result] true) or, failing that, the timeout passed. *)
Definition outcome (page : option (Z -> str)) (wait_fn : Z -> Z -> Z)
    (stable_checks check_interval timeout clock : Z) (result : bool) (n : nat) : Prop :=
  (forall m : nat, (m < n)%nat ->
     ~ settled page wait_fn stable_checks check_interval clock m /\
     check_time wait_fn check_interval clock m - clock <= timeout) /\
  (result = true -> settled page wait_fn stable_checks check_interval clock n) /\
  (result = false ->
     ~ settled page wait_fn stable_checks check_interval clock n /\
     timeout < check_time wait_fn check_interval clock n - clock).

(** A wait function that sleeps exactly the time asked for. *)
Definition exact_sleep (t ms : Z) : Z := t + ms.

(** A page that is redirected once, two and a half seconds from now. *)
Definition redirected_once (t : Z) : str :=
  if t <? 2500 then py "https://x/login" else py "https://x/home".

End navigation.

(* ===================================================================== *)
(** * core/page_trigger_manager.py: contexts, triggers and the manager *)
(* ===================================================================== *)

Module page_trigger_manager.

(** What can be raised: [ActionStoppedError], any other subclass of
    [Exception], or a [BaseException] outside [Exception] (task
    cancellation, keyboard interrupt), which [except Exception] lets
    through. *)
Inductive exception : Type :=
| ActionStoppedError
| Exception_ (tag : nat)
| BaseException_ (tag : nat).

Definition is_action_stopped_error (error : exception) : bool :=
  match error with ActionStoppedError => true | _ => false end.

(** Is the error caught by [except Exception]? *)
Definition is_Exception (error : exception) : bool :=
  match error with BaseException_ _ => false | _ => true end.

Inductive outcome : Type :=
| returned
| raised (error : exception).

(** A coroutine either completes with an outcome or stays suspended for
    ever. *)
Inductive completion : Type :=
| completed (o : outcome)
| never_completes.

(** A cleanup callback: its identity and what calling it does. *)
Record Callback : Type := {
  callback_id : nat;
  callback_raises : option exception
}.

Record ActionContext : Type := {
  url : str;
  trigger_name : string;
  _abort_signal : nat;
  _cleanup_callbacks : list Callback
}.

(** A trigger action is caller-supplied code.  It is modelled by what it does
    with its context, step by step; running off the end is a normal
    return. *)
Inductive Step : Type :=
| do_on_cleanup (callback : Callback)
| do_wait (ms : Z)
| do_check_stopped
| do_sleep (ms : Z)
| do_raise (error : exception)
| do_never_return.

Definition Action : Type := list Step.

Record Trigger : Type := {
  condition : str -> bool;
  action : Action;
  name : string
}.

Record PageTriggerManager : Type := {
  _triggers : list Trigger;
  (** contexts are objects; the list holds their identities *)
  _active_actions : list nat;
  (** the URLs of the [_check_triggers] tasks created and not yet run *)
  _background_tasks : list str
}.

Inductive Observation : Type :=
| listener_called (c : navigation_manager.Call)
| action_started (ctx : nat) (t : Trigger) (url : str)
| callback_called (ctx : nat) (callback : nat).

(** The page, the event objects, the two managers and every context object
    created so far (a context's identity is its position in [contexts]). *)
Record World : Type := {
  clock : Z;
  page_url : str;
  events : asyncio.EventStore;
  navigation : navigation_manager.NavigationManager;
  manager : PageTriggerManager;
  contexts : list ActionContext;
  trace : list Observation
}.

Definition set_clock (w : World) (c : Z) : World :=
  {| clock := c; page_url := page_url w; events := events w;
     navigation := navigation w; manager := manager w;
     contexts := contexts w; trace := trace w |}.

Definition set_page_url (w : World) (u : str) : World :=
  {| clock := clock w; page_url := u; events := events w;
     navigation := navigation w; manager := manager w;
     contexts := contexts w; trace := trace w |}.

Definition set_events (w : World) (e : asyncio.EventStore) : World :=
  {| clock := clock w; page_url := page_url w; events := e;
     navigation := navigation w; manager := manager w;
     contexts := contexts w; trace := trace w |}.

Definition set_navigation (w : World) (nm : navigation_manager.NavigationManager)
  : World :=
  {| clock := clock w; page_url := page_url w; events := events w;
     navigation := nm; manager := manager w;
     contexts := contexts w; trace := trace w |}.

Definition set_manager (w : World) (m : PageTriggerManager) : World :=
  {| clock := clock w; page_url := page_url w; events := events w;
     navigation := navigation w; manager := m;
     contexts := contexts w; trace := trace w |}.

Definition set_contexts (w : World) (cs : list ActionContext) : World :=
  {| clock := clock w; page_url := page_url w; events := events w;
     navigation := navigation w; manager := manager w;
     contexts := cs; trace := trace w |}.

Definition observe (o : Observation) (w : World) : World :=
  {| clock := clock w; page_url := page_url w; events := events w;
     navigation := navigation w; manager := manager w;
     contexts := contexts w; trace := trace w ++ [o] |}.

Definition new_world (page_url : str) (nm : navigation_manager.NavigationManager)
  : World :=
  {| clock := 0; page_url := page_url; events := asyncio.empty_store;
     navigation := nm;
     manager := {| _triggers := []; _active_actions := []; _background_tasks := [] |};
     contexts := []; trace := [] |}.

(** ** ActionContext *)

(** [ctx.is_stopped()] *)
Definition is_stopped (ctx : ActionContext) (w : World) : bool :=
  asyncio.is_set (_abort_signal ctx) (events w).

(** [ctx.check_stopped()] *)
Definition check_stopped (ctx : ActionContext) (w : World) : outcome :=
  if is_stopped ctx w then raised ActionStoppedError else returned.

(** ** The manager's URL-change handler *)

(** Handle URL change event: stop all active actions, then create the task
    that checks the triggers for the new URL. *)
Definition _on_url_change (new_url : str) (w : World) : World :=
  let events1 :=
    fold_left
      (fun st ctx_id =>
         match contexts w !! ctx_id with
         | Some ctx => asyncio.set (_abort_signal ctx) st
         | None => st
         end)
      (_active_actions (manager w)) (events w) in
  set_manager (set_events w events1)
    {| _triggers := _triggers (manager w);
       _active_actions := _active_actions (manager w);
       _background_tasks := _background_tasks (manager w) ++ [new_url] |}.

(** Making one of the listener calls of the navigation manager.  The call of
    the manager's own handler runs it; any other call is only recorded. *)
Definition call_listener (w : World) (c : navigation_manager.Call) : World :=
  match c with
  | navigation_manager.on_url_change navigation_manager.page_trigger_handler _ new_url =>
      _on_url_change new_url w
  | _ => observe (listener_called c) w
  end.

(** [NavigationManager._on_url_change] with its listener loops carried
    out. *)
Definition url_changed (new_url : str) (w : World) : World :=
  let '(nm, events1, calls) :=
    navigation_manager._on_url_change (navigation w) new_url (events w) in
  fold_left call_listener calls (set_events (set_navigation w nm) events1).

(** ** The page while a coroutine is suspended *)

(** The page reports that a frame has navigated to [url]; for the main frame
    this is the new [page.url]. *)
Inductive PageEvent : Type :=
| framenavigated (is_main_frame : bool) (url : str).

Definition deliver (w : World) (ev : PageEvent) : World :=
  match ev with
  | framenavigated is_main_frame url =>
      let w1 := if is_main_frame then set_page_url w url else w in
      if navigation_manager.page_handler (navigation w1) then
        let '(nm, events1, calls) :=
          navigation_manager._on_frame_navigated (navigation w1) is_main_frame
            (page_url w1) (events w1) in
        fold_left call_listener calls (set_events (set_navigation w1 nm) events1)
      else w1
  end.

(** One millisecond passes and the events of that tick are delivered. *)
Definition tick (env : Z -> list PageEvent) (w : World) : World :=
  fold_left deliver (env (clock w + 1)) (set_clock w (clock w + 1)).

Fixpoint run_ticks (env : Z -> list PageEvent) (n : nat) (w : World) : World :=
  match n with
  | O => w
  | S n' => run_ticks env n' (tick env w)
  end.

(** [await asyncio.sleep(ms / 1000)] *)
Definition sleep (env : Z -> list PageEvent) (ms : Z) (w : World) : World :=
  run_ticks env (Z.to_nat ms) w.

(** ** Waiting on a context *)

(** The race of [asyncio.wait_for(signal.wait(), timeout)] once the signal
    was found unset at entry: at every tick before the last the signal is
    looked at after the tick's events; at the last tick the timeout wins. *)
Fixpoint wait_ticks (env : Z -> list PageEvent) (signal : nat) (n : nat) (w : World)
  : outcome * World :=
  match n with
  | O => (returned, w)
  | S n' =>
      let w' := tick env w in
      match n' with
      | O => (returned, w')
      | S _ =>
          if asyncio.is_set signal (events w') then (raised ActionStoppedError, w')
          else wait_ticks env signal n' w'
      end
  end.

(** [await ctx.wait(ms)].  [wait_for] with a timeout that is not positive
    times out before the awaited coroutine runs, so the wait returns
    normally; otherwise a signal that is already set raises at once. *)
Definition wait (env : Z -> list PageEvent) (ctx : ActionContext) (ms : Z) (w : World)
  : outcome * World :=
  if ms <=? 0 then (returned, w)
  else if asyncio.is_set (_abort_signal ctx) (events w) then (raised ActionStoppedError, w)
  else wait_ticks env (_abort_signal ctx) (Z.to_nat ms) w.

(** [ctx.on_cleanup(callback)] on the context object [ctx_id]. *)
Definition on_cleanup (ctx_id : nat) (callback : Callback) (w : World) : World :=
  match contexts w !! ctx_id with
  | Some ctx =>
      set_contexts w
        (<[ctx_id := {| url := url ctx; trigger_name := trigger_name ctx;
                        _abort_signal := _abort_signal ctx;
                        _cleanup_callbacks := _cleanup_callbacks ctx ++ [callback] |}]>
           (contexts w))
  | None => w
  end.

(** The loop of [ctx.cleanup()]: every callback is called; what it raises is
    ignored if [except Exception] catches it. *)
Fixpoint run_callbacks (ctx_id : nat) (callbacks : list Callback) (w : World)
  : outcome * World :=
  match callbacks with
  | [] => (returned, w)
  | callback :: rest =>
      let w1 := observe (callback_called ctx_id (callback_id callback)) w in
      match callback_raises callback with
      | Some error =>
          if is_Exception error then run_callbacks ctx_id rest w1
          else (raised error, w1)
      | None => run_callbacks ctx_id rest w1
      end
  end.

(** [await ctx.cleanup()] *)
Definition cleanup (ctx_id : nat) (w : World) : outcome * World :=
  match contexts w !! ctx_id with
  | Some ctx => run_callbacks ctx_id (_cleanup_callbacks ctx) w
  | None => (returned, w)
  end.

(** ** Running triggers *)

(** [await action(ctx)] for the context object [ctx_id]. *)
Fixpoint run_action (env : Z -> list PageEvent) (ctx_id : nat) (steps : Action)
    (w : World) : completion * World :=
  match steps with
  | [] => (completed returned, w)
  | step :: rest =>
      match step with
      | do_on_cleanup callback => run_action env ctx_id rest (on_cleanup ctx_id callback w)
      | do_wait ms =>
          match contexts w !! ctx_id with
          | Some ctx =>
              match wait env ctx ms w with
              | (returned, w') => run_action env ctx_id rest w'
              | (raised error, w') => (completed (raised error), w')
              end
          | None => run_action env ctx_id rest w
          end
      | do_check_stopped =>
          match contexts w !! ctx_id with
          | Some ctx =>
              match check_stopped ctx w with
              | returned => run_action env ctx_id rest w
              | raised error => (completed (raised error), w)
              end
          | None => run_action env ctx_id rest w
          end
      | do_sleep ms => run_action env ctx_id rest (sleep env ms w)
      | do_raise error => (completed (raised error), w)
      | do_never_return => (never_completes, w)
      end
  end.

(** The part of [_run_trigger] before the [try]: a fresh event, a fresh
    context bound to it, and the context appended to the active actions. *)
Definition begin_trigger (trigger : Trigger) (url : str) (w : World) : nat * World :=
  let '(abort_signal, events1) := asyncio.Event (events w) in
  let ctx := {| url := url; trigger_name := name trigger;
                _abort_signal := abort_signal; _cleanup_callbacks := [] |} in
  let ctx_id := length (contexts w) in
  let w1 := set_contexts (set_events w events1) (contexts w ++ [ctx]) in
  let w2 :=
    set_manager w1
      {| _triggers := _triggers (manager w1);
         _active_actions := _active_actions (manager w1) ++ [ctx_id];
         _background_tasks := _background_tasks (manager w1) |} in
  (ctx_id, observe (action_started ctx_id trigger url) w2).

(** The [finally] block of [_run_trigger]; [pending] is the exception that
    neither [except] clause caught, re-raised when the block is done. *)
Definition end_trigger (ctx_id : nat) (pending : option exception) (w : World)
  : completion * World :=
  match cleanup ctx_id w with
  | (raised error, w1) => (completed (raised error), w1)
  | (returned, w1) =>
      let w2 :=
        set_manager w1
          {| _triggers := _triggers (manager w1);
             _active_actions :=
               navigation_manager.remove_first ctx_id (_active_actions (manager w1));
             _background_tasks := _background_tasks (manager w1) |} in
      (completed (match pending with Some error => raised error | None => returned end),
       w2)
  end.

(** Run a trigger's action. *)
Definition _run_trigger (env : Z -> list PageEvent) (trigger : Trigger) (url : str)
    (w : World) : completion * World :=
  let '(ctx_id, w1) := begin_trigger trigger url w in
  match run_action env ctx_id (action trigger) w1 with
  | (never_completes, w2) => (never_completes, w2)
  | (completed returned, w2) => end_trigger ctx_id None w2
  | (completed (raised error), w2) =>
      if is_Exception error then end_trigger ctx_id None w2
      else end_trigger ctx_id (Some error) w2
  end.

(** The loop of [_check_triggers] over the registered triggers. *)
Fixpoint check_each (env : Z -> list PageEvent) (url : str) (triggers : list Trigger)
    (w : World) : completion * World :=
  match triggers with
  | [] => (completed returned, w)
  | trigger :: rest =>
      if condition trigger url then
        match _run_trigger env trigger url w with
        | (completed returned, w') => check_each env url rest w'
        | other => other
        end
      else check_each env url rest w
  end.

(** Check and run matching triggers for URL. *)
Definition _check_triggers (env : Z -> list PageEvent) (url : str) (w : World)
  : completion * World :=
  check_each env url (_triggers (manager w)) w.

(** The oldest task created by [_on_url_change] gets to run. *)
Definition run_background_task (env : Z -> list PageEvent) (w : World) : World :=
  match _background_tasks (manager w) with
  | [] => w
  | url :: rest =>
      snd (_check_triggers env url
             (set_manager w {| _triggers := _triggers (manager w);
                               _active_actions := _active_actions (manager w);
                               _background_tasks := rest |}))
  end.

(** ** Registration and teardown *)

(** Initialize with commander reference: subscribe to URL changes. *)
Definition initialize (w : World) : World :=
  set_navigation w
    (navigation_manager.on (navigation w) "on_url_change"
       navigation_manager.page_trigger_handler).

Record Config : Type := {
  config_condition : option UrlCondition.pattern;
  config_action : option Action;
  config_name : option string
}.

Inductive registration : Type :=
| registered (w : World)
| registration_ValueError
| registration_ReError.

(** Is the configured condition falsy ([not condition])? *)
Definition falsy (pat : UrlCondition.pattern) : bool :=
  match pat with
  | UrlCondition.PStr [] => true
  | _ => false
  end.

(** Register a page trigger. *)
Definition page_trigger (config : Config) (w : World) : registration :=
  match config_condition config, config_action config with
  | Some cond, Some act =>
      if falsy cond then registration_ValueError
      else
        let add (f : str -> bool) :=
          registered
            (set_manager w
               {| _triggers :=
                    _triggers (manager w)
                    ++ [{| condition := f; action := act;
                           name := default "unnamed"%string (config_name config) |}];
                  _active_actions := _active_actions (manager w);
                  _background_tasks := _background_tasks (manager w) |}) in
        match cond with
        | UrlCondition.PCallable f => add f
        | _ =>
            match UrlCondition.make_url_condition cond with
            | UrlCondition.Condition f => add f
            | UrlCondition.ReError => registration_ReError
            | UrlCondition.ValueError => registration_ValueError
            end
        end
  | _, _ => registration_ValueError
  end.

(** The loop of [destroy] over the active actions. *)
Fixpoint destroy_each (active : list nat) (w : World) : outcome * World :=
  match active with
  | [] => (returned, w)
  | ctx_id :: rest =>
      let w1 :=
        match contexts w !! ctx_id with
        | Some ctx => set_events w (asyncio.set (_abort_signal ctx) (events w))
        | None => w
        end in
      match cleanup ctx_id w1 with
      | (returned, w2) => destroy_each rest w2
      | (raised error, w2) => (raised error, w2)
      end
  end.

(** Clean up and stop all actions. *)
Definition destroy (w : World) : outcome * World :=
  match destroy_each (_active_actions (manager w)) w with
  | (raised error, w1) => (raised error, w1)
  | (returned, w1) =>
      let w2 :=
        set_manager w1 {| _triggers := []; _active_actions := [];
                          _background_tasks := _background_tasks (manager w1) |} in
      (returned,
       set_navigation w2
         (navigation_manager.off (navigation w2) "on_url_change"
            navigation_manager.page_trigger_handler))
  end.

(** ** Everything the rest of the program can do to the world *)

Inductive Operation : Type :=
| op_sleep (ms : Z)
| op_page_event (ev : PageEvent)
| op_run_background_task
| op_run_trigger (trigger : Trigger) (url : str)
| op_page_trigger (config : Config)
| op_initialize
| op_start_listening
| op_stop_listening
| op_destroy.

Definition perform (env : Z -> list PageEvent) (w : World) (op : Operation) : World :=
  match op with
  | op_sleep ms => sleep env ms w
  | op_page_event ev => deliver w ev
  | op_run_background_task => run_background_task env w
  | op_run_trigger trigger url => snd (_run_trigger env trigger url w)
  | op_page_trigger config =>
      match page_trigger config w with
      | registered w' => w'
      | _ => w
      end
  | op_initialize => initialize w
  | op_start_listening =>
      let '(nm, events1) :=
        navigation_manager.start_listening (navigation w) (page_url w) (events w) in
      set_events (set_navigation w nm) events1
  | op_stop_listening =>
      set_navigation w (navigation_manager.stop_listening (navigation w))
  | op_destroy => snd (destroy w)
  end.

(** What a context is created with and never changes. *)
Definition identity (ctx : ActionContext) : str * string * nat :=
  (url ctx, trigger_name ctx, _abort_signal ctx).

(** Is the error, if any, one that [except Exception] catches? *)
Definition outcome_ok (o : outcome) : bool :=
  match o with
  | returned => true
  | raised error => is_Exception error
  end.

Definition callback_ok (callback : Callback) : bool :=
  match callback_raises callback with
  | Some error => is_Exception error
  | None => true
  end.



(** Every active action is an existing context, every context is bound to an
    existing event, and no two contexts share an event. *)
Definition well_formed (w : World) : bool :=
  forallb (fun ctx_id => Nat.ltb ctx_id (length (contexts w)))
          (_active_actions (manager w))
  && forallb (fun ctx => Nat.ltb (_abort_signal ctx) (asyncio.allocated (events w)))
             (contexts w)
  && bool_decide (NoDup (_abort_signal <$> contexts w)).

(** Every event that is set exists. *)
Definition store_ok (w : World) : bool :=
  forallb (fun e => Nat.ltb e (asyncio.allocated (events w)))
          (elements (asyncio.fired (events w)))
  && match navigation_manager._abort_controller (navigation w) with
     | Some signal => Nat.ltb signal (asyncio.allocated (events w))
     | None => true
     end.

(** A few worlds to run things in. *)
Definition fresh_world : World :=
  new_world (py "https://x/a")
    (navigation_manager.__init__ network_tracker.playwright None).

Definition trigger_config (pattern : string) (a : Action) : Config :=
  {| config_condition := Some (UrlCondition.PStr (py pattern));
     config_action := Some a; config_name := None |}.

Definition quiet_env : Z -> list PageEvent := fun _ => [].

(** The manager listens, the trigger manager is subscribed, one trigger
    matching every URL is registered with action [a], the page navigates to
    [https://x/b], and the task created for that URL has run. *)
Definition after_first_navigation (a : Action) : World :=
  fold_left (perform quiet_env)
    [op_start_listening; op_initialize; op_page_trigger (trigger_config "*" a);
     op_page_event (framenavigated true (py "https://x/b"));
     op_run_background_task]
    fresh_world.

(** A navigation 50 ms from now. *)
Definition navigation_at_50 (t : Z) : list PageEvent :=
  if t =? 50 then [framenavigated true (py "https://x/c")] else [].

(** [store_ok] as a proposition. *)
Definition stored (w : World) : Prop :=
  (forall e, e ∈ asyncio.fired (events w) -> (e < asyncio.allocated (events w))%nat) /\
  (forall s, navigation_manager._abort_controller (navigation w) = Some s ->
             (s < asyncio.allocated (events w))%nat).

(** [e] is the event some active context is bound to. *)
Definition active_signal (w : World) (e : nat) : Prop :=
  exists ctx_id ctx,
    (ctx_id ∈ _active_actions (manager w)) /\
    (contexts w !! ctx_id = Some ctx) /\
    (_abort_signal ctx = e).



(** The actions this run has started, read off the trace. *)
Definition started (tr : list Observation) : list (nat * Trigger * str) :=
  omap (fun o => match o with
                 | action_started ctx t u => Some (ctx, t, u)
                 | _ => None
                 end) tr.

(** The cleanup callbacks called, read off the trace. *)
Definition callbacks_called (tr : list Observation) : list (nat * nat) :=
  omap (fun o => match o with
                 | callback_called ctx cb => Some (ctx, cb)
                 | _ => None
                 end) tr.

(** [steady w w']: going from [w] to [w'] created no context, left the
    identity of every context, the active actions and the triggers alone,
    cleared no event, and neither started an action nor called a cleanup
    callback. *)
Definition steady (w w' : World) : Prop :=
  identity <$> contexts w' = identity <$> contexts w /\
  _active_actions (manager w') = _active_actions (manager w) /\
  _triggers (manager w') = _triggers (manager w) /\
  asyncio.fired (events w) ⊆ asyncio.fired (events w') /\
  (asyncio.allocated (events w) <= asyncio.allocated (events w'))%nat /\
  started (trace w') = started (trace w) /\
  callbacks_called (trace w') = callbacks_called (trace w).

(** Is the signal set after [k] ticks? *)
Definition set_after (env : Z -> list PageEvent) (signal : nat) (w : World) (k : nat)
  : bool :=
  asyncio.is_set signal (events (run_ticks env k w)).

(** [well_formed] as a proposition. *)
Definition wf_prop (w : World) : Prop :=
  Forall (fun id => (id < length (contexts w))%nat) (_active_actions (manager w)) /\
  Forall (fun s => (s < asyncio.allocated (events w))%nat) (_abort_signal <$> contexts w) /\
  NoDup (_abort_signal <$> contexts w).

(** The invariant of every world the program can get into. *)
Definition sound (w : World) : Prop := wf_prop w /\ stored w.

(** No operation ever clears an event. *)
Definition grows (w w' : World) : Prop :=
  asyncio.fired (events w) ⊆ asyncio.fired (events w').

(** Was the manager's handler among the listeners called for the URL
    change? *)
Definition handler_called (calls : list navigation_manager.Call) : Prop :=
  exists old new,
    navigation_manager.on_url_change navigation_manager.page_trigger_handler old new
    ∈ calls.


Definition world_with (triggers : list Trigger) : World :=
  set_manager (new_world (py "https://x/") (navigation_manager.__init__ network_tracker.playwright None))
    {| _triggers := triggers; _active_actions := []; _background_tasks := [] |}.

(** An action that registers two cleanup callbacks, the first of which
    raises when called, and then fails itself. *)
Definition failing_action : Action :=
  [ do_on_cleanup {| callback_id := 1; callback_raises := Some (Exception_ 7) |};
    do_on_cleanup {| callback_id := 2; callback_raises := None |};
    do_raise (Exception_ 1) ].

Definition failing_trigger : Trigger :=
  {| condition := fun _ => true; action := failing_action; name := "failing" |}.

(** Three triggers, of which the first and the third match a checkout URL. *)
Definition three_triggers : list Trigger :=
  [ {| condition := fun u => Re.search (UrlCondition.wildcard_rule (py "*checkout*")) u;
       action := [do_wait 10]; name := "checkout" |};
    {| condition := fun u => Re.search (UrlCondition.wildcard_rule (py "*login*")) u;
       action := []; name := "login" |};
    {| condition := fun _ => true; action := failing_action; name := "always" |} ].

(** ** The elementary changes of a world *)

(** The navigation manager's part of a frame event: the page shows the URL
    and, if the manager's handler is on the page, the manager handles the
    event; the listener calls it asks for are still to be made. *)
Definition frame_navigated (w : World) (is_main_frame : bool) (url : str)
  : World * list navigation_manager.Call :=
  let w1 := if is_main_frame then set_page_url w url else w in
  if navigation_manager.page_handler (navigation w1) then
    let '(nm, events1, calls) :=
      navigation_manager._on_frame_navigated (navigation w1) is_main_frame
        (page_url w1) (events w1) in
    (set_events (set_navigation w1 nm) events1, calls)
  else (w1, []).

(** Everything the code above does to a world is a sequence of these
    changes. *)
Inductive step : World -> World -> Prop :=
| step_clock w c : step w (set_clock w c)
| step_frame w is_main_frame url : step w (fst (frame_navigated w is_main_frame url))
| step_observe w o : step w (observe o w)
| step_stop_active w new_url : step w (_on_url_change new_url w)
| step_on_cleanup w ctx_id callback : step w (on_cleanup ctx_id callback w)
| step_begin w trigger url : step w (snd (begin_trigger trigger url w))
| step_manager w m :
    (forall ctx_id, ctx_id ∈ _active_actions m -> ctx_id ∈ _active_actions (manager w)) ->
    step w (set_manager w m)
| step_set_signal w ctx_id ctx :
    contexts w !! ctx_id = Some ctx ->
    step w (set_events w (asyncio.set (_abort_signal ctx) (events w)))
| step_on w event fn :
    step w (set_navigation w (navigation_manager.on (navigation w) event fn))
| step_off w event fn :
    step w (set_navigation w (navigation_manager.off (navigation w) event fn))
| step_start_listening w :
    step w (set_events
              (set_navigation w
                 (fst (navigation_manager.start_listening (navigation w) (page_url w)
                         (events w))))
              (snd (navigation_manager.start_listening (navigation w) (page_url w)
                      (events w))))
| step_stop_listening w :
    step w (set_navigation w (navigation_manager.stop_listening (navigation w))).

(** The navigation manager's current abort event is unset and is the event
    of no context. *)
Definition controller_unset (w : World) : Prop :=
  forall s, navigation_manager._abort_controller (navigation w) = Some s ->
            (s ∉ asyncio.fired (events w)) /\ (s ∉ (_abort_signal <$> contexts w)).

(** The manager's handler is on the page exactly while it listens with the
    Playwright engine; while it is there the manager knows the URL the page
    shows; and a listening manager has an abort event. *)
Definition tracks_page (w : World) : Prop :=
  navigation_manager.page_handler (navigation w)
  = (navigation_manager._is_listening (navigation w)
     && network_tracker.is_playwright (navigation_manager.engine (navigation w)))%bool /\
  (navigation_manager.page_handler (navigation w) = true ->
   navigation_manager._last_url (navigation w) = page_url w) /\
  (navigation_manager._is_listening (navigation w) = true ->
   is_Some (navigation_manager._abort_controller (navigation w))).


(** ** [ActionContext.for_each] *)

Section ForEach.

Context {A R : Type}.

(** The function handed to [for_each] is the caller's: called with an item
    and its index it changes the world and produces a result or raises;
    [None] stands for a call that never returns. *)
Definition ItemFunction : Type := A -> nat -> World -> option ((R + exception) * World).

(** The loop of [for_each] from index [i] on, with the results so far. *)
Fixpoint for_each_from (ctx : ActionContext) (fn : ItemFunction) (i : nat)
    (items : list A) (results : list R) (w : World)
  : option ((list R + exception) * World) :=
  match items with
  | [] => Some (inl results, w)
  | item :: rest =>
      match check_stopped ctx w with
      | raised error => Some (inr error, w)
      | returned =>
          match fn item i w with
          | Some (inl result, w') =>
              for_each_from ctx fn (S i) rest (results ++ [result]) w'
          | Some (inr error, w') => Some (inr error, w')
          | None => None
          end
      end
  end.

(** [await ctx.for_each(items, fn)] *)
Definition for_each (ctx : ActionContext) (items : list A) (fn : ItemFunction)
    (w : World) : option ((list R + exception) * World) :=
  for_each_from ctx fn 0 items [] w.

End ForEach.

End page_trigger_manager.

(* ===================================================================== *)
(** * utilities/wait.py *)
(* ===================================================================== *)

Module utilities.

Record WaitResult : Type := {
  completed : bool;
  aborted : bool
}.

Inductive WaitOutcome : Type :=
| wait_returns (result : WaitResult)
| wait_ValueError.

(** [await wait(log, ms, reason, abort_signal)] in a world.  An
    [asyncio.Event] is truthy whether set or not, so a signal that is given
    is always used; [wait_for] with a timeout that is not positive times
    out before the awaited coroutine runs. *)
Definition wait (env : Z -> list page_trigger_manager.PageEvent) (ms : Z)
    (abort_signal : option nat) (w : page_trigger_manager.World)
  : WaitOutcome * page_trigger_manager.World :=
  if ms =? 0 then (wait_ValueError, w)
  else
    match abort_signal with
    | Some signal =>
        if asyncio.is_set signal (page_trigger_manager.events w)
        then (wait_returns {| completed := false; aborted := true |}, w)
        else if ms <? 0
        then (wait_returns {| completed := true; aborted := false |}, w)
        else
          match page_trigger_manager.wait_ticks env signal (Z.to_nat ms) w with
          | (page_trigger_manager.returned, w') =>
              (wait_returns {| completed := true; aborted := false |}, w')
          | (page_trigger_manager.raised _, w') =>
              (wait_returns {| completed := false; aborted := true |}, w')
          end
    | None =>
        (wait_returns {| completed := true; aborted := false |},
         page_trigger_manager.sleep env ms w)
    end.

End utilities.

(* ===================================================================== *)
(** * factory.py: the trackers and managers of a BrowserCommander *)
(* ===================================================================== *)

Module factory.

(** The tracker [BrowserCommander.__init__] creates and starts when network
    tracking is enabled. *)
Definition commander_tracker (engine : network_tracker.EngineType)
  : network_tracker.NetworkTracker :=
  network_tracker.start_tracking (network_tracker.__init__ engine 30000 30000).

(** [await commander.wait(ms, reason)] with the navigation manager
    enabled: the wait is given the manager's current abort signal. *)
Definition wait (env : Z -> list page_trigger_manager.PageEvent) (ms : Z)
    (w : page_trigger_manager.World)
  : utilities.WaitOutcome * page_trigger_manager.World :=
  utilities.wait env ms
    (navigation_manager.get_abort_signal (page_trigger_manager.navigation w)) w.

(** [await commander.destroy()] with everything enabled; the commander's
    tracker is the one its navigation manager refers to. *)
Definition destroy (w : page_trigger_manager.World)
  : page_trigger_manager.outcome * page_trigger_manager.World :=
  match page_trigger_manager.destroy w with
  | (page_trigger_manager.raised error, w1) => (page_trigger_manager.raised error, w1)
  | (page_trigger_manager.returned, w1) =>
      let nm := page_trigger_manager.navigation w1 in
      let nm1 :=
        navigation_manager.set_navigating nm (navigation_manager._is_navigating nm)
          (network_tracker.stop_tracking <$> navigation_manager.network_tracker nm) in
      (page_trigger_manager.returned,
       page_trigger_manager.set_navigation w1 (navigation_manager.stop_listening nm1))
  end.

End factory.

(* ===================================================================== *)
(** * Properties *)
(* ===================================================================== *)

Module ReFacts.
Import Re.

Lemma app_eq_nil_both {A} (a b : list A) : a ++ b = [] -> a = [] /\ b = [].
Proof. destruct a; simpl; intros H; [auto | discriminate]. Qed.

Lemma nullable_sound r : nullable r = true -> Matches r [].
Proof.
  induction r; simpl; intros H; try discriminate.
  - constructor.
  - apply andb_true_iff in H as [H1 H2].
    change (@nil ascii) with (@nil ascii ++ []). constructor; auto.
  - apply orb_true_iff in H as [H | H]; [apply MAltL | apply MAltR]; auto.
  - constructor.
  - change (@nil ascii) with (@nil ascii ++ []). constructor; [auto | constructor].
  - constructor.
Qed.

Lemma nullable_complete r s : Matches r s -> s = [] -> nullable r = true.
Proof.
  induction 1; simpl; intros E; try discriminate; auto.
  - apply app_eq_nil_both in E as [-> ->]. rewrite IHMatches1, IHMatches2; auto.
  - rewrite IHMatches; auto.
  - rewrite IHMatches, orb_true_r; auto.
  - apply app_eq_nil_both in E as [-> ->]. auto.
Qed.

Lemma nullable_spec r : nullable r = true <-> Matches r [].
Proof. split; [apply nullable_sound | intros H; eapply nullable_complete; eauto]. Qed.

Lemma deriv_sound c r : forall s, Matches (deriv c r) s -> Matches r (c :: s).
Proof.
  induction r; simpl; intros s H.
  - inversion H.
  - inversion H.
  - destruct (Ascii.eqb c c0) eqn:E; inversion H; subst.
    apply Ascii.eqb_eq in E as ->. constructor.
  - destruct (dot_accepts c) eqn:E; inversion H; subst. constructor; auto.
  - destruct (cls_accepts negated members c) eqn:E; inversion H; subst.
    constructor; auto.
  - destruct (nullable r1) eqn:N.
    + inversion H; subst.
      * match goal with K : Matches (Cat _ _) _ |- _ => inversion K; subst end.
        change (c :: s1 ++ s2) with ((c :: s1) ++ s2). constructor; auto.
      * change (c :: s) with ([] ++ c :: s). constructor; auto.
        apply nullable_sound; auto.
    + inversion H; subst.
      change (c :: s1 ++ s2) with ((c :: s1) ++ s2). constructor; auto.
  - inversion H; subst; [apply MAltL | apply MAltR]; auto.
  - inversion H; subst.
    change (c :: s1 ++ s2) with ((c :: s1) ++ s2). constructor; auto.
  - inversion H; subst.
    change (c :: s1 ++ s2) with ((c :: s1) ++ s2). constructor; auto.
  - apply MOptS; auto.
Qed.

Lemma deriv_complete c r t :
  Matches r t -> forall s, t = c :: s -> Matches (deriv c r) s.
Proof.
  induction 1; intros u E; simpl; try discriminate.
  - injection E as -> <-. rewrite Ascii.eqb_refl. constructor.
  - injection E as -> <-. rewrite H. constructor.
  - injection E as -> <-. rewrite H. constructor.
  - destruct s1 as [| a s1]; simpl in E.
    + subst s2. rewrite (nullable_complete _ _ H eq_refl).
      apply MAltR. auto.
    + injection E as -> <-.
      destruct (nullable r1); [apply MAltL |]; constructor; auto.
  - apply MAltL; auto.
  - apply MAltR; auto.
  - destruct s1 as [| a s1]; simpl in E.
    + apply (IHMatches2 u E).
    + injection E as -> <-. constructor; auto.
  - destruct s1 as [| a s1]; simpl in E.
    + apply (IHMatches2 u E).
    + injection E as -> <-. constructor; auto.
  - auto.
Qed.

Lemma deriv_spec c r s : Matches (deriv c r) s <-> Matches r (c :: s).
Proof. split; [apply deriv_sound | intros H; eapply deriv_complete; eauto]. Qed.

(** [match_prefix] finds exactly the texts with a prefix in the language. *)
Lemma match_prefix_spec s : forall r,
  match_prefix s r = true <-> exists p q, s = p ++ q /\ Matches r p.
Proof.
  induction s as [| c s IH]; intros r; simpl.
  - rewrite orb_false_r, nullable_spec. split.
    + intros H. exists [], []. auto.
    + intros (p & q & E & H). symmetry in E.
      apply app_eq_nil_both in E as [-> _]. auto.
  - rewrite orb_true_iff, nullable_spec, IH. split.
    + intros [H | (p & q & -> & H)].
      * exists [], (c :: s). auto.
      * exists (c :: p), q. split; [reflexivity | apply deriv_sound; auto].
    + intros (p & q & E & H). destruct p as [| a p]; simpl in E.
      * left; auto.
      * injection E as <- ->. right. exists p, q. split; [reflexivity |].
        apply deriv_spec; auto.
Qed.

(** [search] finds exactly the texts with a substring in the language. *)
Lemma search_spec r s :
  search r s = true <-> exists a m b, s = a ++ m ++ b /\ Matches r m.
Proof.
  induction s as [| c s IH]; simpl.
  - rewrite !orb_false_r, nullable_spec. split.
    + intros H. exists [], [], []. auto.
    + intros (a & m & b & E & H). symmetry in E.
      apply app_eq_nil_both in E as [-> E].
      apply app_eq_nil_both in E as [-> _]. auto.
  - rewrite orb_true_iff, IH.
    change (nullable r || match_prefix s (deriv c r))%bool
      with (match_prefix (c :: s) r).
    rewrite match_prefix_spec. split.
    + intros [(p & q & E & H) | (a & m & b & -> & H)].
      * exists [], p, q. auto.
      * exists (c :: a), m, b. auto.
    + intros (a & m & b & E & H). destruct a as [| x a]; simpl in E.
      * left. exists m, b. auto.
      * injection E as <- ->. right. exists a, m, b. auto.
Qed.

End ReFacts.

Module UrlConditionFacts.
Import Re UrlCondition.


Ltac each_char c :=
  destruct c as [[] [] [] [] [] [] [] []]; vm_compute; try reflexivity; try discriminate.

Lemma plain_not_meta c : is_special c = false -> is_meta c = false.
Proof. each_char c. Qed.

Lemma plain_benign c : is_special c = false -> benign c = true.
Proof. each_char c. Qed.

Lemma plain_not_backslash c : is_special c = false -> Ascii.eqb c "\"%char = false.
Proof. each_char c. Qed.

Lemma plain_not_star c : is_special c = false -> Ascii.eqb c "*"%char = false.
Proof. each_char c. Qed.

Lemma special_not_alnum c :
  is_special c = true -> (is_ascii_letter c || is_digit c)%bool = false.
Proof. each_char c. Qed.

Lemma escape_head_not_star p :
  match escape p with
  | c :: _ => Ascii.eqb c "*"%char = false
  | [] => True
  end.
Proof.
  destruct p as [| c p]; simpl; [exact I |].
  destruct (is_special c) eqn:E; [reflexivity | apply plain_not_star; auto].
Qed.

Lemma replace2_skip a b new c s :
  (Ascii.eqb c a && match s with d :: _ => Ascii.eqb d b | [] => false end)%bool = false ->
  replace2 a b new (c :: s) = c :: replace2 a b new s.
Proof.
  destruct s as [| d s]; simpl; [reflexivity |].
  intros ->. reflexivity.
Qed.

Lemma wild_text_cons c p : wild_text (c :: p) = wild_token c ++ wild_text p.
Proof.
  unfold wild_text, wild_token. simpl escape.
  pose proof (escape_head_not_star p) as Hhead.
  destruct (is_special c) eqn:Sp.
  - destruct (Ascii.eqb c "*"%char) eqn:St.
    + simpl. rewrite St. reflexivity.
    + change (replace2 "\"%char "*"%char (py ".*") ("\"%char :: c :: escape p))
        with (if (Ascii.eqb "\"%char "\"%char && Ascii.eqb c "*"%char)%bool
              then py ".*" ++ replace2 "\"%char "*"%char (py ".*") (escape p)
              else "\"%char :: replace2 "\"%char "*"%char (py ".*") (c :: escape p)).
      rewrite St. simpl andb. cbv iota.
      rewrite replace2_skip; [reflexivity |].
      destruct (escape p); [apply andb_false_r |].
      rewrite Hhead. apply andb_false_r.
  - rewrite (plain_not_star _ Sp).
    rewrite replace2_skip; [reflexivity |].
    rewrite (plain_not_backslash _ Sp). reflexivity.
Qed.

Lemma wild_token_benign c rest : head_benign (wild_token c ++ rest) = true.
Proof.
  unfold wild_token. destruct (Ascii.eqb c "*"%char); [reflexivity |].
  destruct (is_special c) eqn:Sp; [reflexivity | apply plain_benign; auto].
Qed.

Lemma wild_text_benign p : head_benign (wild_text p) = true.
Proof.
  destruct p as [| c p]; [reflexivity |].
  rewrite wild_text_cons. apply wild_token_benign.
Qed.

Lemma wild_text_length p : (length p <= length (wild_text p))%nat.
Proof.
  induction p as [| c p IH]; [reflexivity |].
  rewrite wild_text_cons, length_app. simpl.
  assert (1 <= length (wild_token c))%nat; [| lia].
  unfold wild_token. destruct (Ascii.eqb c "*"%char); [simpl; lia |].
  destruct (is_special c); simpl; lia.
Qed.

Lemma benign_facts c :
  benign c = true ->
  Ascii.eqb c "|"%char = false /\ Ascii.eqb c ")"%char = false /\
  Ascii.eqb c "{"%char = false /\ is_quantifier c = false.
Proof. each_char c; intros _; repeat split. Qed.

Lemma parse_quantifier_none a s :
  head_benign s = true -> parse_quantifier a s = Some (a, s).
Proof.
  destruct s as [| q rest]; simpl; [reflexivity |].
  intros B. destruct (benign_facts _ B) as (_ & _ & -> & ->). reflexivity.
Qed.

Lemma parse_quantifier_star a s :
  head_benign s = true -> parse_quantifier a ("*"%char :: s) = Some (Star a, s).
Proof.
  destruct s as [| q rest]; simpl; [reflexivity |].
  intros B. destruct (benign_facts _ B) as (_ & _ & -> & ->). reflexivity.
Qed.

(** One token of wildcard text parses to the atom of the wildcard rule. *)
Lemma parse_wild_token f c rest names :
  head_benign rest = true ->
  exists a rest1,
    parse_atom (S f) (wild_token c ++ rest) names = Some (a, rest1, names) /\
    parse_quantifier a rest1 = Some (wildcard_atom c, rest).
Proof.
  intros B. unfold wild_token, wildcard_atom.
  destruct (Ascii.eqb c "*"%char) eqn:St.
  - exists Dot, ("*"%char :: rest). split; [reflexivity |].
    apply parse_quantifier_star; auto.
  - destruct (is_special c) eqn:Sp.
    + exists (Chr c), rest. split; [| apply parse_quantifier_none; auto].
      simpl. rewrite (special_not_alnum _ Sp). reflexivity.
    + exists (Chr c), rest. split; [| apply parse_quantifier_none; auto].
      simpl. rewrite (plain_not_meta _ Sp). reflexivity.
Qed.

Lemma parse_seq_wild p : forall f names,
  (length p + 2 <= f)%nat ->
  parse_seq f (wild_text p) names = Some (wildcard_rule p, [], names).
Proof.
  induction p as [| c p IH]; intros f names Hf.
  - destruct f as [| f]; [simpl in Hf; lia | reflexivity].
  - destruct f as [| [| f]]; try (simpl in Hf; lia).
    rewrite wild_text_cons.
    pose proof (wild_token_benign c (wild_text p)) as B.
    destruct (parse_wild_token f c (wild_text p) names (wild_text_benign p))
      as (a & rest1 & Ha & Hq).
    destruct (wild_token c ++ wild_text p) as [| h t] eqn:E.
    { unfold wild_token in E. destruct (Ascii.eqb c "*"%char); [discriminate |].
      destruct (is_special c); discriminate. }
    simpl in B. destruct (benign_facts _ B) as (Hbar & Hpar & _ & _).
    change (parse_seq (S (S f)) (h :: t) names)
      with (if (Ascii.eqb h "|"%char || Ascii.eqb h ")"%char)%bool
            then Some (Eps, h :: t, names)
            else match parse_atom (S f) (h :: t) names with
                 | Some (a, rest, names1) =>
                     match parse_quantifier a rest with
                     | Some (qa, rest1) =>
                         match parse_seq (S f) rest1 names1 with
                         | Some (r, rest2, names2) => Some (Cat qa r, rest2, names2)
                         | None => None
                         end
                     | None => None
                     end
                 | None => None
                 end).
    rewrite Hbar, Hpar. simpl orb. cbv iota.
    rewrite Ha, Hq, IH; [reflexivity | simpl in Hf; lia].
Qed.

(** The wildcard branch always compiles, to the regular expression of the
    wildcard rule. *)
Lemma compile_wild_text p : compile (wild_text p) = Some (wildcard_rule p).
Proof.
  unfold compile.
  replace (3 * length (wild_text p) + 3)%nat
    with (S (3 * length (wild_text p) + 2))%nat by lia.
  simpl parse_alt.
  rewrite parse_seq_wild; [reflexivity |].
  pose proof (wild_text_length p). lia.
Qed.

Lemma star_dot_no_newline s t :
  Matches (Star Dot) s -> t = s -> Forall (fun c => c <> newline) t.
Proof.
  intros H. revert t. remember (Star Dot) as r eqn:Er.
  induction H; intros t ->; try discriminate.
  - constructor.
  - injection Er as ->. inversion H; subst. simpl. constructor.
    + intros ->. unfold dot_accepts in *. rewrite Ascii.eqb_refl in *. discriminate.
    + apply IHMatches2; auto.
Qed.

Lemma no_newline_star_dot s :
  Forall (fun c => c <> newline) s -> Matches (Star Dot) s.
Proof.
  induction 1 as [| c s Hc _ IH]; [constructor |].
  change (c :: s) with ([c] ++ s). constructor; [| exact IH].
  constructor. unfold dot_accepts. apply negb_true_iff, Ascii.eqb_neq. exact Hc.
Qed.

(** The regular expression of the wildcard rule means what the rule says. *)
Lemma wildcard_rule_spec p : forall m, Matches (wildcard_rule p) m <-> Wild p m.
Proof.
  induction p as [| c p IH]; intros m; simpl.
  - split; intros H; inversion H; constructor.
  - split.
    + intros H. inversion H; subst. unfold wildcard_atom in *.
      destruct (Ascii.eqb c "*"%char) eqn:St.
      * apply Ascii.eqb_eq in St as ->. constructor; [| apply IH; auto].
        eapply star_dot_no_newline; eauto.
      * match goal with K : Matches (Chr _) _ |- _ => inversion K; subst end.
        simpl. constructor; [| apply IH; auto].
        apply Ascii.eqb_neq; auto.
    + intros H. inversion H; subst.
      * constructor; [| apply IH; auto]. apply no_newline_star_dot; auto.
      * change (c :: t) with ([c] ++ t). constructor; [| apply IH; auto].
        unfold wildcard_atom.
        match goal with K : c <> _ |- _ => apply Ascii.eqb_neq in K; rewrite K end.
        constructor.
Qed.

Lemma wild_literal_prefix w : forall p2 m,
  mem "*"%char w = false -> Wild (w ++ p2) m -> exists t, m = w ++ t.
Proof.
  induction w as [| c w IH]; intros p2 m Hw H; simpl in *.
  - exists m. reflexivity.
  - apply orb_false_iff in Hw as [Hc Hw].
    inversion H; subst.
    + discriminate.
    + destruct (IH _ _ Hw ltac:(eassumption)) as [t' ->]. exists t'. reflexivity.
Qed.

(** A stretch of the pattern without [*] must occur literally in any text
    the pattern matches. *)
Lemma wild_literal_occurs p1 : forall w p2 m,
  mem "*"%char w = false -> Wild (p1 ++ w ++ p2) m -> occurs_in w m.
Proof.
  induction p1 as [| c p1 IH]; intros w p2 m Hw H; simpl in *.
  - destruct (wild_literal_prefix _ _ _ Hw H) as [t ->]. exists [], t. reflexivity.
  - inversion H; subst.
    + destruct (IH _ _ _ Hw ltac:(eassumption)) as (a & b & ->).
      exists (gap ++ a), b. rewrite <- app_assoc. reflexivity.
    + destruct (IH _ _ _ Hw ltac:(eassumption)) as (a & b & ->).
      exists (c :: a), b. reflexivity.
Qed.

Example sub_params_vacancy :
  sub_params (py "/vacancy/:id") = py "/vacancy/(?P<id>[^/]+)".
Proof. reflexivity. Qed.

Example sub_params_no_param :
  sub_params (py "https://a.com") = py "https://a.com".
Proof. reflexivity. Qed.

Example wild_text_checkout : wild_text (py "*checkout*") = py ".*checkout.*".
Proof. reflexivity. Qed.

(** The pattern ["https://a.com"] contains a colon, so it is compiled as a
    regular expression and searched for anywhere in the URL; it is not
    handled by the exact-or-prefix rule. *)
Example scheme_pattern_is_searched :
  applied (PStr (py "https://a.com")) (py "see https://aXcom") = Some true.
Proof. vm_compute. reflexivity. Qed.

(** A port number after a colon becomes a group name that is not an
    identifier, which [re.compile] rejects. *)
Example port_pattern_is_rejected :
  make_url_condition (PStr (py "http://localhost:8080/x")) = ReError.
Proof. vm_compute. reflexivity. Qed.

(** With a [*] in the pattern, [:id] stands for itself: the wildcard
    branch wins over the parameter branch. *)
Example wildcard_with_param_literal :
  applied (PStr (py "*/user/:id")) (py "https://h/user/42") = Some false /\
  applied (PStr (py "*/user/:id")) (py "https://h/user/:id") = Some true /\
  applied (PStr (py "/user/:id")) (py "https://h/user/42") = Some true.
Proof. vm_compute. repeat split. Qed.

(** C9. The URL-condition examples of the grammar: ["*checkout*"] accepts
    ["https://x/checkout/1"]; ["/vacancy/:id"] accepts
    ["https://h/vacancy/42"] and rejects ["https://h/other/42"];
    ["https://a.com"] accepts ["https://a.com/b"] and rejects
    ["https://b.com"]. *)
Theorem make_url_condition_examples :
  applied (PStr (py "*checkout*")) (py "https://x/checkout/1") = Some true /\
  applied (PStr (py "/vacancy/:id")) (py "https://h/vacancy/42") = Some true /\
  applied (PStr (py "/vacancy/:id")) (py "https://h/other/42") = Some false /\
  applied (PStr (py "https://a.com")) (py "https://a.com/b") = Some true /\
  applied (PStr (py "https://a.com")) (py "https://b.com") = Some false.
Proof. vm_compute. repeat split. Qed.

(** C10. A string pattern that contains both [*] and [:] is handled by the
    wildcard rule alone: the condition is a search for the regular
    expression in which each [*] is [.*] and every other character,
    the colon included, is a literal; so the condition holds exactly for
    URLs with a substring of the wildcard shape, and any star-free stretch
    of the pattern (such as [:name]) has to occur literally in the URL. *)
Theorem wildcard_before_param (p : str) :
  mem "*"%char p = true ->
  mem ":"%char p = true ->
  make_url_condition (PStr p) = Condition (fun url => search (wildcard_rule p) url) /\
  (forall url,
      search (wildcard_rule p) url = true <->
      exists a m b, url = a ++ m ++ b /\ Wild p m) /\
  (forall url p1 w p2,
      p = p1 ++ w ++ p2 -> mem "*"%char w = false ->
      search (wildcard_rule p) url = true -> occurs_in w url).
Proof.
  intros Hstar _. split; [| split].
  - unfold make_url_condition. rewrite Hstar.
    change (replace2 "\"%char "*"%char (py ".*") (escape p)) with (wild_text p).
    rewrite compile_wild_text. reflexivity.
  - intros url. rewrite ReFacts.search_spec. split.
    + intros (a & m & b & E & H). exists a, m, b. split; [auto |].
      apply wildcard_rule_spec; auto.
    + intros (a & m & b & E & H). exists a, m, b. split; [auto |].
      apply wildcard_rule_spec; auto.
  - intros url p1 w p2 -> Hw H.
    apply ReFacts.search_spec in H as (a & m & b & -> & H).
    apply wildcard_rule_spec in H.
    destruct (wild_literal_occurs _ _ _ _ Hw H) as (a' & b' & ->).
    exists (a ++ a'), (b' ++ b). rewrite <- !app_assoc. reflexivity.
Qed.

Lemma wildcard_before_param_witness :
  mem "*"%char (py "*/user/:id") = true /\
  mem ":"%char (py "*/user/:id") = true /\
  make_url_condition (PStr (py "*/user/:id"))
  = Condition (fun url => search (wildcard_rule (py "*/user/:id")) url).
Proof.
  split; [reflexivity |]. split; [reflexivity |].
  apply (wildcard_before_param (py "*/user/:id")); reflexivity.
Defined.

End UrlConditionFacts.

Module NetworkTrackerFacts.
Import network_tracker.

(** ** Request end *)


(** The last pending request ends: the end listener is told first, then the
    idle listener. *)
Example last_request_ends :
  snd (_on_request_end (fst (_on_request 0 listening_tracker (req "GET" "/a")))
                       (req "GET" "/a"))
  = [on_request_end 2 "/a" 0; on_network_idle 3].
Proof. vm_compute. reflexivity. Qed.

(** A request end for a key that is not pending is dropped by the guard at
    the top of the handler: nobody is notified, although nothing is
    pending. *)
Lemma request_end_unknown_key_is_silent :
  let result := _on_request_end listening_tracker (req "GET" "/never-started") in
  get_pending_count (fst result) = 0%nat /\
  _listeners_on_network_idle (fst result) = [3%nat] /\
  _listeners_on_request_end (fst result) = [2%nat] /\
  snd result = [].
Proof. vm_compute. repeat split. Qed.

(** C8 (as the handler does it). A request end whose key is pending removes
    the key from both tables, then notifies the [on_request_end] listeners
    in order with the new count, then notifies the [on_network_idle]
    listeners when nothing is pending any more and no idle timer is set; a
    request end whose key is not pending changes nothing and notifies
    nobody. *)
Theorem on_request_end_behaviour (self : NetworkTracker) (request : Request) :
  let key := _get_request_key self request in
  let result := _on_request_end self request in
  match _pending_requests self !! key with
  | None => result = (self, [])
  | Some _ =>
      _pending_requests (fst result) = delete key (_pending_requests self) /\
      _request_start_times (fst result) = delete key (_request_start_times self) /\
      _pending_requests (fst result) !! key = None /\
      _navigation_id (fst result) = _navigation_id self /\
      snd result =
        map (fun fn => on_request_end fn (request_url self request)
                         (size (delete key (_pending_requests self))))
            (_listeners_on_request_end self)
        ++ (if (Nat.eqb (size (delete key (_pending_requests self))) 0
                && negb (bool_decide (is_Some (_idle_timer self))))%bool
            then map on_network_idle (_listeners_on_network_idle self)
            else [])
  end.
Proof.
  intros key result. subst result. unfold _on_request_end. fold key.
  destruct (_pending_requests self !! key) eqn:E; [| reflexivity].
  simpl. repeat split. apply lookup_delete_eq.
Qed.

(** No operation ever sets the idle timer. *)
Lemma idle_timer_stays_unset now self ev :
  _idle_timer self = None -> _idle_timer (deliver now self ev) = None.
Proof.
  intros H. destruct ev; simpl; try exact H.
  - destruct (page_handlers self); [| exact H]. unfold _on_request.
    destruct (_ || _)%bool; [exact H |]. simpl. rewrite H. simpl. exact H.
  - destruct (page_handlers self); [| exact H]. unfold _on_request_end.
    destruct (_ !! _); exact H.
  - destruct (page_handlers self); [| exact H]. unfold _on_request_end.
    destruct (_ !! _); exact H.
Qed.

(** ** Waiting for network idle *)

Lemma nav_deliver now self ev :
  _navigation_id self <= _navigation_id (deliver now self ev).
Proof.
  destruct ev; simpl.
  - destruct (page_handlers self); [| lia]. unfold _on_request.
    destruct (_ || _)%bool; [simpl; lia |]. simpl.
    destruct (_idle_timer self); simpl; lia.
  - destruct (page_handlers self); [| lia]. unfold _on_request_end.
    destruct (_ !! _); simpl; lia.
  - destruct (page_handlers self); [| lia]. unfold _on_request_end.
    destruct (_ !! _); simpl; lia.
  - lia.
Qed.

Lemma nav_fold now evs : forall self,
  _navigation_id self <= _navigation_id (fold_left (deliver now) evs self).
Proof.
  induction evs as [| ev evs IH]; intros self; simpl; [lia |].
  pose proof (nav_deliver now self ev). pose proof (IH (deliver now self ev)). lia.
Qed.

Lemma nav_run_ticks env n : forall clock self,
  _navigation_id self <= _navigation_id (run_ticks env n clock self).
Proof.
  induction n as [| n IH]; intros clock self; simpl; [lia |].
  pose proof (nav_fold (clock + 1) (env (clock + 1)) self).
  pose proof (IH (clock + 1) (fold_left (deliver (clock + 1)) (env (clock + 1)) self)).
  lia.
Qed.

Lemma run_ticks_split env a : forall b clock self,
  run_ticks env (a + b) clock self
  = run_ticks env b (clock + Z.of_nat a) (run_ticks env a clock self).
Proof.
  induction a as [| a IH]; intros b clock self.
  - simpl. f_equal. lia.
  - simpl. rewrite IH. f_equal. lia.
Qed.

(** The generation id never decreases, so if it is the same at both ends of
    a stretch of ticks it was the same at every tick in between. *)
Lemma nav_constant_between env n clock self k :
  (k <= n)%nat ->
  _navigation_id (run_ticks env n clock self) = _navigation_id self ->
  _navigation_id (run_ticks env k clock self) = _navigation_id self.
Proof.
  intros Hk Hend.
  replace n with (k + (n - k))%nat in Hend by lia.
  rewrite run_ticks_split in Hend.
  pose proof (nav_run_ticks env k clock self).
  pose proof (nav_run_ticks env (n - k) (clock + Z.of_nat k) (run_ticks env k clock self)).
  lia.
Qed.

Lemma nav_purge now self :
  _navigation_id (purge_timed_out now self) = _navigation_id self.
Proof.
  unfold purge_timed_out.
  induction (map_to_list (_request_start_times self)) as [| [key start] l IH];
    simpl; [reflexivity |].
  destruct (_ >? _); simpl; exact IH.
Qed.


Lemma settle_window_intro env idle nav_id opened at_open :
  get_pending_count at_open = 0%nat ->
  _navigation_id at_open = nav_id ->
  (Nat.eqb (get_pending_count (run_ticks env (Z.to_nat idle) opened at_open)) 0
   && (_navigation_id (run_ticks env (Z.to_nat idle) opened at_open) =? nav_id))%bool = true ->
  settle_window env idle nav_id opened at_open (opened + Z.max 0 idle)
    (run_ticks env (Z.to_nat idle) opened at_open).
Proof.
  intros Hopen Hnav Hclose.
  apply andb_true_iff in Hclose as [Hp Hn].
  apply Nat.eqb_eq in Hp. apply Z.eqb_eq in Hn.
  repeat split; auto.
  intros k Hk. subst nav_id. eapply nav_constant_between; eauto.
Qed.

Lemma poll_sound env timeout idle start nav_id fuel : forall clock self r clock' self',
  start <= clock ->
  poll fuel env timeout idle start nav_id clock self = Some (r, clock', self') ->
  (r = true ->
   exists opened at_open,
     clock <= opened /\ settle_window env idle nav_id opened at_open clock' self') /\
  (r = false -> timeout <= clock' - start \/ _navigation_id self' <> nav_id).
Proof.
  induction fuel as [| fuel IH]; intros clock self r clock' self' Hstart H;
    [discriminate |].
  simpl in H.
  destruct (clock - start >=? timeout) eqn:Eto.
  { injection H as <- <- <-. split; [discriminate |]. intros _. left. lia. }
  destruct (_navigation_id self =? nav_id) eqn:Enav; simpl in H.
  2:{ injection H as <- <- <-. split; [discriminate |]. intros _. right.
      apply Z.eqb_neq; auto. }
  apply Z.eqb_eq in Enav.
  destruct (Nat.eqb (get_pending_count (purge_timed_out clock self)) 0) eqn:Ep.
  - unfold sleep in H.
    destruct (Nat.eqb _ 0 && (_ =? nav_id))%bool eqn:Ew.
    + injection H as <- <- <-. split; [| discriminate]. intros _.
      exists clock, (purge_timed_out clock self). split; [lia |].
      apply settle_window_intro; auto.
      * apply Nat.eqb_eq; auto.
      * rewrite nav_purge; auto.
    + apply IH in H; [| lia].
      destruct H as [Ht Hf]. split; [| exact Hf].
      intros Hr. destruct (Ht Hr) as (o & s & Ho & Hw). exists o, s. split; [lia | auto].
  - unfold sleep in H. apply IH in H; [| lia].
    destruct H as [Ht Hf]. split; [| exact Hf].
    intros Hr. destruct (Ht Hr) as (o & s & Ho & Hw). exists o, s. split; [lia | auto].
Qed.

Lemma held_run_ticks env clock0 self0 n : forall t s,
  held env clock0 self0 t s ->
  held env clock0 self0 (t + Z.of_nat n) (run_ticks env n t s).
Proof.
  induction n as [| n IH]; intros t s H.
  - replace (t + Z.of_nat 0) with t by lia. exact H.
  - replace (t + Z.of_nat (S n)) with (t + 1 + Z.of_nat n) by lia.
    cbn [run_ticks]. apply IH. apply held_tick. exact H.
Qed.

Lemma held_sleep env clock0 self0 ms t s :
  held env clock0 self0 t s ->
  held env clock0 self0 (fst (sleep env ms t s)) (snd (sleep env ms t s)).
Proof.
  intros H. unfold sleep. cbn [fst snd].
  replace (t + Z.max 0 ms) with (t + Z.of_nat (Z.to_nat ms)) by lia.
  apply held_run_ticks. exact H.
Qed.

(** A true answer of the loop closes a window that opened on the tracker
    the call held at that time. *)
Lemma poll_window_held env timeout idle start nav_id clock0 self0 fuel :
  forall clock self clock' self',
  held env clock0 self0 clock self ->
  poll fuel env timeout idle start nav_id clock self = Some (true, clock', self') ->
  exists opened at_open,
    clock <= opened /\ held env clock0 self0 opened at_open /\
    settle_window env idle nav_id opened at_open clock' self'.
Proof.
  induction fuel as [| fuel IH]; intros clock self clock' self' Hheld H;
    [discriminate |].
  cbn [poll] in H. cbv zeta in H.
  destruct (clock - start >=? timeout); [discriminate |].
  destruct (_navigation_id self =? nav_id) eqn:Enav; cbn [negb] in H; [| discriminate].
  apply Z.eqb_eq in Enav.
  pose proof (held_sweep env clock0 self0 clock self Hheld) as Hswept.
  destruct (Nat.eqb (get_pending_count (purge_timed_out clock self)) 0) eqn:Ep.
  - pose proof (held_sleep env clock0 self0 idle _ _ Hswept) as Hslept.
    unfold sleep in H, Hslept. cbn [fst snd] in Hslept.
    destruct (Nat.eqb _ 0 && (_ =? nav_id))%bool eqn:Ew.
    + injection H as <- <-.
      exists clock, (purge_timed_out clock self). split; [lia |].
      split; [exact Hswept |].
      apply settle_window_intro; auto.
      * apply Nat.eqb_eq; auto.
      * rewrite nav_purge; auto.
    + pose proof (held_sleep env clock0 self0 100 _ _ Hslept) as Hnext.
      unfold sleep in Hnext. cbn [fst snd] in Hnext.
      destruct (IH _ _ _ _ Hnext H) as (o & a & Ho & Ha & Hw).
      exists o, a. split; [lia |]. split; assumption.
  - pose proof (held_sleep env clock0 self0 100 _ _ Hswept) as Hnext.
    unfold sleep in H, Hnext. cbn [fst snd] in Hnext.
    destruct (IH _ _ _ _ Hnext H) as (o & a & Ho & Ha & Hw).
    exists o, a. split; [lia |]. split; assumption.
Qed.

Lemma poll_terminates env timeout idle start nav_id fuel : forall clock self,
  timeout - (clock - start) <= 100 * (Z.of_nat fuel - 1) ->
  (1 <= fuel)%nat ->
  exists result, poll fuel env timeout idle start nav_id clock self = Some result.
Proof.
  induction fuel as [| fuel IH]; intros clock self Hrem Hfuel; [lia |].
  simpl.
  destruct (clock - start >=? timeout) eqn:Eto; [eauto |].
  destruct (_navigation_id self =? nav_id); simpl; [| eauto].
  assert (1 <= fuel)%nat by lia.
  destruct (Nat.eqb (get_pending_count (purge_timed_out clock self)) 0).
  - unfold sleep. destruct (Nat.eqb _ 0 && (_ =? nav_id))%bool; [eauto |].
    apply IH; lia.
  - unfold sleep. apply IH; lia.
Qed.


Lemma fuel_covers_timeout timeout clock c :
  clock <= c ->
  timeout - (c - clock) <= 100 * (Z.of_nat (Z.to_nat (timeout / 100) + 2) - 1).
Proof.
  intros Hc. destruct (Z.le_gt_cases 0 timeout) as [Hpos | Hneg].
  - pose proof (Z.mul_succ_div_gt timeout 100 ltac:(lia)).
    pose proof (Z.div_pos timeout 100 Hpos ltac:(lia)). lia.
  - lia.
Qed.

(** The call always returns. *)
Lemma wait_for_network_idle_returns env clock self timeout idle_time :
  exists result, wait_for_network_idle env clock self timeout idle_time = Some result.
Proof.
  unfold wait_for_network_idle.
  destruct (Nat.eqb (get_pending_count self) 0).
  - unfold sleep. destruct (Nat.eqb _ 0 && (_ =? _navigation_id self))%bool; [eauto |].
    apply poll_terminates; [apply fuel_covers_timeout |]; lia.
  - apply poll_terminates; [apply fuel_covers_timeout |]; lia.
Qed.

(** What the call as written guarantees.  It always returns.  A true
    answer comes at the close of a settle window of [idle_time] ms that
    opened no earlier than the call on the tracker the call held at that
    time: nothing was pending in that tracker when the window opened,
    nothing is pending when it closes, and the generation id equals the
    one captured at entry at every tick of the window; so even with nothing
    pending at entry no true answer comes before [idle_time] ms have
    passed.  A false answer comes only when the timeout has elapsed or the
    generation id has changed.  When nothing is pending from entry until
    [idle_time] ms later and the generation is unchanged, the answer is
    true at that moment.  Nothing is said about the ticks inside the
    window: the loop does not look at them. *)
Lemma wait_for_network_idle_result
    (env : Z -> list Event) (clock : Z) (self : NetworkTracker)
    (timeout : Z) (idle_time : option Z) :
  let idle := default (idle_timeout self) idle_time in
  exists r clock' self',
    wait_for_network_idle env clock self timeout idle_time = Some (r, clock', self') /\
    (r = true ->
       clock + Z.max 0 idle <= clock' /\
       exists opened at_open,
         clock <= opened /\
         held env clock self opened at_open /\
         settle_window env idle (_navigation_id self) opened at_open clock' self') /\
    (r = false ->
       timeout <= clock' - clock \/ _navigation_id self' <> _navigation_id self) /\
    ((forall k, (k <= Z.to_nat idle)%nat ->
                get_pending_count (run_ticks env k clock self) = 0%nat) ->
     _navigation_id (run_ticks env (Z.to_nat idle) clock self) = _navigation_id self ->
     r = true /\ clock' = clock + Z.max 0 idle).
Proof.
  intros idle. unfold wait_for_network_idle. fold idle.
  set (fuel := (Z.to_nat (timeout / 100) + 2)%nat).
  assert (Hfuel : forall c, clock <= c -> timeout - (c - clock) <= 100 * (Z.of_nat fuel - 1)).
  { intros c Hc. subst fuel. apply fuel_covers_timeout. exact Hc. }
  assert (Hone : (1 <= fuel)%nat) by (subst fuel; lia).
  assert (Hwin : forall clock' self' opened at_open,
             clock <= opened ->
             held env clock self opened at_open ->
             settle_window env idle (_navigation_id self) opened at_open clock' self' ->
             clock + Z.max 0 idle <= clock' /\
             exists opened at_open,
               clock <= opened /\
               held env clock self opened at_open /\
               settle_window env idle (_navigation_id self) opened at_open clock' self').
  { intros c' s' o a Ho Ha Hw. split; [| eauto].
    destruct Hw as (_ & -> & _). lia. }
  pose proof (held_at_call env clock self) as Hcall.
  destruct (Nat.eqb (get_pending_count self) 0) eqn:Ep.
  - apply Nat.eqb_eq in Ep. unfold sleep.
    pose proof (held_sleep env clock self idle _ _ Hcall) as Hslept.
    unfold sleep in Hslept. cbn [fst snd] in Hslept.
    destruct (Nat.eqb _ 0 && (_ =? _navigation_id self))%bool eqn:Ew.
    + exists true, (clock + Z.max 0 idle), (run_ticks env (Z.to_nat idle) clock self).
      split; [reflexivity |]. split; [| split]; [| discriminate | auto].
      intros _. apply (Hwin _ _ clock self); [lia | exact Hcall |].
      apply settle_window_intro; auto.
    + destruct (poll_terminates env timeout idle clock (_navigation_id self) fuel
                  (clock + Z.max 0 idle) (run_ticks env (Z.to_nat idle) clock self)
                  ltac:(apply Hfuel; lia) Hone) as [[[r c'] s'] Hr].
      exists r, c', s'. split; [exact Hr |].
      split; [| split].
      * intros ->.
        destruct (poll_window_held _ _ _ _ _ _ _ _ _ _ _ _ Hslept Hr)
          as (o & a & Ho & Ha & Hw).
        apply (Hwin _ _ o a); [lia | exact Ha | exact Hw].
      * apply poll_sound in Hr; [| lia]. exact (proj2 Hr).
      * intros Hp Hn. rewrite (Hp _ (le_n _)), Hn, Z.eqb_refl in Ew. discriminate.
  - destruct (poll_terminates env timeout idle clock (_navigation_id self) fuel
                clock self ltac:(apply Hfuel; lia) Hone) as [[[r c'] s'] Hr].
    exists r, c', s'. split; [exact Hr |].
    split; [| split].
    + intros ->.
      destruct (poll_window_held _ _ _ _ _ _ _ _ _ _ _ _ Hcall Hr)
        as (o & a & Ho & Ha & Hw).
      apply (Hwin _ _ o a); [lia | exact Ha | exact Hw].
    + apply poll_sound in Hr; [| lia]. exact (proj2 Hr).
    + intros Hp. specialize (Hp 0%nat ltac:(lia)). simpl in Hp.
      rewrite Hp in Ep. discriminate.
Qed.

(** C1.  The call does not do what the claim and the docstring of
    [idle_time] ("Time network must be idle") say.  Called at time 0 with
    [idle_time] 200 on a tracker with nothing pending, while the page
    reports a request 10 ms later and its end 20 ms later, it returns true
    at 200 ms: between the call and the return one request is pending at
    the ticks 10 to 19 and nothing is pending at the other ticks, so the
    pending set was empty for at most 180 ms in a row, and not for the 200
    ms asked for. *)
Theorem idle_reported_despite_request_in_window :
  fst <$> wait_for_network_idle brief_request 0 listening_tracker 5000 (Some 200)
  = Some (true, 200) /\
  get_pending_count (run_ticks brief_request 10 0 listening_tracker) = 1%nat /\
  (forall k, (k <= 200)%nat ->
     get_pending_count (run_ticks brief_request k 0 listening_tracker)
     = if ((10 <=? k) && (k <? 20))%nat then 1%nat else 0%nat) /\
  ~ (forall k, (k <= 200)%nat ->
               get_pending_count (run_ticks brief_request k 0 listening_tracker) = 0%nat).
Proof.
  split; [vm_compute; reflexivity |].
  assert (E : get_pending_count (run_ticks brief_request 10 0 listening_tracker) = 1%nat)
    by (vm_compute; reflexivity).
  split; [exact E |]. split.
  - assert (Hall : forallb
             (fun k => Nat.eqb
                (get_pending_count (run_ticks brief_request k 0 listening_tracker))
                (if ((10 <=? k) && (k <? 20))%nat then 1%nat else 0%nat))
             (seq 0 201) = true) by (vm_compute; reflexivity).
    intros k Hk. apply Nat.eqb_eq.
    apply (proj1 (forallb_forall _ _) Hall). apply in_seq. lia.
  - intros H. specialize (H 10%nat ltac:(lia)). rewrite E in H. discriminate.
Qed.

End NetworkTrackerFacts.

Module NavigationManagerFacts.
Import navigation_manager.


(** Without a network tracker the manager's [wait_for_page_ready] returns at
    the very time it was called: it performs no delay.  The fixed delay of
    1000 ms is in the module-level function, and only when it is given
    neither a manager nor a tracker. *)
Lemma page_ready_without_tracker_has_no_delay :
  network_tracker bare_manager = None /\
  (forall env,
     wait_for_page_ready env 0 bare_manager (py "https://x/") 30000
     = Some (true, 0, set_navigating bare_manager false None,
             [on_page_ready (external 1) (py "https://x/")])) /\
  (forall env,
     navigation.wait_for_page_ready env 0 (Some bare_manager) None None
       (py "https://x/") 30000 = Some (true, 0)) /\
  (forall env,
     navigation.wait_for_page_ready env 0 None None None (py "https://x/") 30000
     = Some (true, 1000)).
Proof. repeat split. Qed.

(** C5 (as the method does it). The call always returns.  With a tracker
    attached and a positive timeout, the answer of the tracker's
    [wait_for_network_idle] (called with that timeout and the tracker's own
    idle time) decides: false is passed on at once, leaving the navigating
    flag as it was and calling no listener.  With no tracker attached, or a
    timeout that is not positive, the call does not wait at all.  Whenever
    the call returns true it has cleared the navigating flag and has called
    the [on_page_ready] listeners, in order, with the current URL. *)
Theorem wait_for_page_ready_behaviour
    (env : Z -> list network_tracker.Event) (clock : Z)
    (self : NavigationManager) (current_url : str) (timeout : Z) :
  exists ready clock' self' calls,
    wait_for_page_ready env clock self current_url timeout
    = Some (ready, clock', self', calls) /\
    match network_tracker self with
    | Some tracker =>
        if timeout >? 0 then
          exists tracker',
            network_tracker.wait_for_network_idle env clock tracker timeout None
            = Some (ready, clock', tracker') /\
            network_tracker self' = Some tracker'
        else ready = true /\ clock' = clock
    | None => ready = true /\ clock' = clock
    end /\
    (ready = true ->
       is_navigating self' = false /\
       calls = map (fun fn => on_page_ready fn current_url) (_listeners_on_page_ready self)) /\
    (ready = false ->
       is_navigating self' = is_navigating self /\ calls = []).
Proof.
  unfold wait_for_page_ready.
  destruct (network_tracker self) as [tracker |] eqn:Etr.
  - replace (timeout - (clock - clock)) with timeout by lia.
    destruct (timeout >? 0) eqn:Eto.
    + destruct (NetworkTrackerFacts.wait_for_network_idle_returns
                  env clock tracker timeout None)
        as [[[idle c1] tr1] Hw].
      rewrite Hw. destruct idle; simpl.
      * do 4 eexists. split; [reflexivity |]. split; [eauto |].
        split; [auto | discriminate].
      * do 4 eexists. split; [reflexivity |]. split; [eauto |].
        split; [discriminate | auto].
    + do 4 eexists. split; [reflexivity |]. split; [auto |].
      split; [auto | discriminate].
  - do 4 eexists. split; [reflexivity |]. split; [auto |].
    split; [auto | discriminate].
Qed.

End NavigationManagerFacts.

Module PageTriggerFacts.
Import page_trigger_manager.

(** ** What suspension can and cannot change *)


Lemma steady_refl w : steady w w.
Proof. repeat split; auto. Qed.

Lemma steady_trans w1 w2 w3 : steady w1 w2 -> steady w2 w3 -> steady w1 w3.
Proof.
  intros (A1 & A2 & A3 & A4 & A5 & A6 & A7) (B1 & B2 & B3 & B4 & B5 & B6 & B7).
  repeat split; try congruence; [set_solver | lia].
Qed.

Lemma steady_fold {A} (f : World -> A -> World) (l : list A) :
  (forall w a, steady w (f w a)) -> forall w, steady w (fold_left f l w).
Proof.
  intros Hf. induction l as [| a l IH]; intros w; simpl; [apply steady_refl |].
  eapply steady_trans; [apply Hf | apply IH].
Qed.

Lemma fired_stop_active cs active : forall st,
  asyncio.fired st ⊆
    asyncio.fired
      (fold_left (fun st ctx_id =>
                    match cs !! ctx_id with
                    | Some ctx => asyncio.set (_abort_signal ctx) st
                    | None => st
                    end) active st) /\
  asyncio.allocated
      (fold_left (fun st ctx_id =>
                    match (cs : list ActionContext) !! ctx_id with
                    | Some ctx => asyncio.set (_abort_signal ctx) st
                    | None => st
                    end) active st) = asyncio.allocated st.
Proof.
  induction active as [| id active IH]; intros st; simpl.
  { split; [reflexivity | reflexivity]. }
  destruct (cs !! id) as [ctx |]; [| apply IH].
  destruct (IH (asyncio.set (_abort_signal ctx) st)) as [H1 H2].
  split; [| rewrite H2; reflexivity].
  etrans; [| exact H1]. simpl. apply union_subseteq_r.
Qed.

Lemma steady_on_url_change u w : steady w (_on_url_change u w).
Proof.
  unfold _on_url_change, steady; simpl.
  destruct (fired_stop_active (contexts w) (_active_actions (manager w)) (events w))
    as [H1 H2].
  repeat split; auto. rewrite H2. lia.
Qed.

Lemma started_observe_listener c tr :
  started (tr ++ [listener_called c]) = started tr.
Proof. unfold started. rewrite omap_app. simpl. apply app_nil_r. Qed.

Lemma callbacks_observe_listener c tr :
  callbacks_called (tr ++ [listener_called c]) = callbacks_called tr.
Proof. unfold callbacks_called. rewrite omap_app. simpl. apply app_nil_r. Qed.

Lemma steady_observe_listener c w : steady w (observe (listener_called c) w).
Proof.
  unfold steady; simpl.
  rewrite started_observe_listener, callbacks_observe_listener. repeat split; auto.
Qed.

Lemma steady_call_listener w c : steady w (call_listener w c).
Proof.
  destruct c as [fn old new | fn u | fn u | fn u]; simpl;
    try apply steady_observe_listener.
  destruct fn; [apply steady_observe_listener | apply steady_on_url_change].
Qed.

Lemma steady_set_navigation_events w nm st :
  asyncio.fired (events w) ⊆ asyncio.fired st ->
  (asyncio.allocated (events w) <= asyncio.allocated st)%nat ->
  steady w (set_events (set_navigation w nm) st).
Proof. intros H1 H2. repeat split; auto. Qed.

Lemma nav_url_change_store nm u st :
  let '(_, st', _) := navigation_manager._on_url_change nm u st in
  asyncio.fired st ⊆ asyncio.fired st' /\
  (asyncio.allocated st <= asyncio.allocated st')%nat.
Proof.
  unfold navigation_manager._on_url_change.
  destruct (navigation_manager._abort_controller nm); simpl; split; try set_solver; lia.
Qed.

Lemma nav_frame_navigated_store nm main u st :
  let '(_, st', _) := navigation_manager._on_frame_navigated nm main u st in
  asyncio.fired st ⊆ asyncio.fired st' /\
  (asyncio.allocated st <= asyncio.allocated st')%nat.
Proof.
  unfold navigation_manager._on_frame_navigated.
  destruct (negb main); [split; [set_solver | lia] |].
  destruct (negb _); [apply nav_url_change_store | split; [set_solver | lia]].
Qed.

Lemma steady_url_changed u w : steady w (url_changed u w).
Proof.
  unfold url_changed.
  pose proof (nav_url_change_store (navigation w) u (events w)) as H.
  destruct (navigation_manager._on_url_change (navigation w) u (events w))
    as [[nm st] calls].
  destruct H as [H1 H2].
  eapply steady_trans; [apply (steady_set_navigation_events w nm st H1 H2) |].
  apply steady_fold. apply steady_call_listener.
Qed.

Lemma steady_deliver w ev : steady w (deliver w ev).
Proof.
  destruct ev as [main u]; simpl.
  set (w1 := if main then set_page_url w u else w).
  assert (S1 : steady w w1) by (subst w1; destruct main; repeat split; auto).
  destruct (navigation_manager.page_handler (navigation w1)); [| exact S1].
  pose proof (nav_frame_navigated_store (navigation w1) main (page_url w1) (events w1)) as H.
  destruct (navigation_manager._on_frame_navigated (navigation w1) main
              (page_url w1) (events w1)) as [[nm st] calls].
  destruct H as [H1 H2].
  eapply steady_trans; [exact S1 |].
  eapply steady_trans; [apply (steady_set_navigation_events w1 nm st H1 H2) |].
  apply steady_fold. apply steady_call_listener.
Qed.

Lemma steady_tick env w : steady w (tick env w).
Proof.
  unfold tick. eapply steady_trans; [| apply steady_fold; apply steady_deliver].
  repeat split; auto.
Qed.

Lemma steady_run_ticks env n : forall w, steady w (run_ticks env n w).
Proof.
  induction n as [| n IH]; intros w; simpl; [apply steady_refl |].
  eapply steady_trans; [apply steady_tick | apply IH].
Qed.

(** The clock is moved by ticks only. *)
Lemma clock_fold_call calls : forall w, clock (fold_left call_listener calls w) = clock w.
Proof.
  induction calls as [| c calls IH]; intros w; simpl; [reflexivity |].
  rewrite IH. destruct c as [fn ? ? | fn ? | fn ? | fn ?]; try reflexivity.
  destruct fn; reflexivity.
Qed.

Lemma clock_deliver w ev : clock (deliver w ev) = clock w.
Proof.
  destruct ev as [main u]; simpl.
  set (w1 := if main then set_page_url w u else w).
  assert (E : clock w1 = clock w) by (subst w1; destruct main; reflexivity).
  destruct (navigation_manager.page_handler (navigation w1)); [| exact E].
  destruct (navigation_manager._on_frame_navigated _ _ _ _) as [[nm st] calls].
  rewrite clock_fold_call. exact E.
Qed.

Lemma clock_tick env w : clock (tick env w) = clock w + 1.
Proof.
  unfold tick.
  assert (H : forall evs w0, clock (fold_left deliver evs w0) = clock w0).
  { induction evs as [| ev evs IH]; intros w0; simpl; [reflexivity |].
    rewrite IH. apply clock_deliver. }
  rewrite H. reflexivity.
Qed.

Lemma clock_run_ticks env n : forall w,
  clock (run_ticks env n w) = clock w + Z.of_nat n.
Proof.
  induction n as [| n IH]; intros w; simpl run_ticks; [lia |].
  rewrite IH, clock_tick. lia.
Qed.

Lemma run_ticks_S env n w : run_ticks env (S n) w = tick env (run_ticks env n w).
Proof.
  revert w. induction n as [| n IH]; intros w; [reflexivity |].
  change (run_ticks env (S (S n)) w) with (run_ticks env (S n) (tick env w)).
  rewrite IH. reflexivity.
Qed.

(** ** Waiting on a context *)


Lemma wait_ticks_spec env signal n : forall w,
  set_after env signal w 0 = false ->
  (exists k, (0 < k < n)%nat /\
             wait_ticks env signal n w = (raised ActionStoppedError, run_ticks env k w) /\
             set_after env signal w k = true /\
             forall j, (j < k)%nat -> set_after env signal w j = false)
  \/
  (wait_ticks env signal n w = (returned, run_ticks env n w) /\
   forall j, (j < n)%nat -> set_after env signal w j = false).
Proof.
  induction n as [| n IH]; intros w H0.
  - right. split; [reflexivity |]. intros j Hj. lia.
  - destruct n as [| n].
    + right. split; [reflexivity |]. intros j Hj.
      replace j with 0%nat by lia. exact H0.
    + change (wait_ticks env signal (S (S n)) w)
        with (if asyncio.is_set signal (events (tick env w))
              then (raised ActionStoppedError, tick env w)
              else wait_ticks env signal (S n) (tick env w)).
      destruct (asyncio.is_set signal (events (tick env w))) eqn:E.
      * left. exists 1%nat. split; [lia |]. split; [reflexivity |].
        split; [exact E |]. intros j Hj. replace j with 0%nat by lia. exact H0.
      * destruct (IH (tick env w) E) as [(k & Hk & Hw & Hs & Hb) | (Hw & Hb)].
        -- left. exists (S k). split; [lia |]. split; [exact Hw |].
           split; [exact Hs |]. intros j Hj. destruct j as [| j]; [exact H0 |].
           apply (Hb j). lia.
        -- right. split; [exact Hw |]. intros j Hj.
           destruct j as [| j]; [exact H0 |]. apply (Hb j). lia.
Qed.

(** C6. For a positive duration, [ctx.wait(ms)] raises
    [ActionStoppedError] exactly when the bound signal is set at entry or
    becomes set at a tick before the duration has elapsed; it then stops at
    the first such tick, before the full duration; otherwise it returns
    normally when the duration has elapsed. *)
Theorem wait_raises_iff_signal_first
    (env : Z -> list PageEvent) (ctx : ActionContext) (ms : Z) (w : World) :
  0 < ms ->
  let result := wait env ctx ms w in
  let signal := _abort_signal ctx in
  (fst result = raised ActionStoppedError <->
   exists k, Z.of_nat k < ms /\ set_after env signal w k = true) /\
  (fst result = raised ActionStoppedError ->
   exists k, Z.of_nat k < ms /\ set_after env signal w k = true /\
             (forall j, (j < k)%nat -> set_after env signal w j = false) /\
             snd result = run_ticks env k w /\
             clock (snd result) = clock w + Z.of_nat k /\
             clock (snd result) < clock w + ms) /\
  (fst result = returned <->
   forall k, Z.of_nat k < ms -> set_after env signal w k = false) /\
  (fst result = returned ->
   snd result = run_ticks env (Z.to_nat ms) w /\ clock (snd result) = clock w + ms) /\
  (fst result = returned \/ fst result = raised ActionStoppedError).
Proof.
  intros Hms result signal. subst result. unfold wait.
  destruct (ms <=? 0) eqn:Ele; [lia |]. clear Ele. fold signal.
  destruct (asyncio.is_set signal (events w)) eqn:E0.
  - (* already set at entry *)
    assert (Hex : exists k, Z.of_nat k < ms /\ set_after env signal w k = true).
    { exists 0%nat. split; [lia | exact E0]. }
    simpl. split; [tauto |]. split.
    + intros _. exists 0%nat. repeat split; auto; try lia; intros; lia.
    + split; [| split; [discriminate | auto]].
      split; [discriminate |]. intros H. specialize (H 0%nat ltac:(lia)).
      unfold set_after in H. simpl in H. congruence.
  - destruct (wait_ticks_spec env signal (Z.to_nat ms) w E0)
      as [(k & Hk & Hw & Hs & Hb) | (Hw & Hb)]; rewrite Hw; simpl.
    + assert (Hex : exists k, Z.of_nat k < ms /\ set_after env signal w k = true).
      { exists k. split; [lia | exact Hs]. }
      split; [tauto |]. split.
      * intros _. exists k. rewrite clock_run_ticks. repeat split; auto; lia.
      * split; [| split; [discriminate | auto]].
        split; [discriminate |]. intros H. rewrite (H k) in Hs; [discriminate | lia].
    + split.
      * split; [discriminate |]. intros (k & Hk & Hs).
        rewrite (Hb k) in Hs; [discriminate | lia].
      * split; [discriminate |]. split; [| split; [| auto]].
        -- split; [| reflexivity]. intros _ k Hk. apply Hb. lia.
        -- intros _. split; [reflexivity |]. rewrite clock_run_ticks. lia.
Qed.


(** ** Running one trigger *)

Lemma contexts_fold_call calls : forall w,
  contexts (fold_left call_listener calls w) = contexts w.
Proof.
  induction calls as [| c calls IH]; intros w; simpl; [reflexivity |].
  rewrite IH. destruct c as [fn ? ? | fn ? | fn ? | fn ?]; try reflexivity.
  destruct fn; reflexivity.
Qed.

Lemma contexts_deliver w ev : contexts (deliver w ev) = contexts w.
Proof.
  destruct ev as [main u]; simpl.
  set (w1 := if main then set_page_url w u else w).
  assert (E : contexts w1 = contexts w) by (subst w1; destruct main; reflexivity).
  destruct (navigation_manager.page_handler (navigation w1)); [| exact E].
  destruct (navigation_manager._on_frame_navigated _ _ _ _) as [[nm st] calls].
  rewrite contexts_fold_call. exact E.
Qed.

Lemma contexts_tick env w : contexts (tick env w) = contexts w.
Proof.
  unfold tick.
  assert (H : forall evs w0, contexts (fold_left deliver evs w0) = contexts w0).
  { induction evs as [| ev evs IH]; intros w0; simpl; [reflexivity |].
    rewrite IH. apply contexts_deliver. }
  rewrite H. reflexivity.
Qed.


Lemma wait_ticks_quiet env signal n : forall w,
  steady w (snd (wait_ticks env signal n w)) /\
  contexts (snd (wait_ticks env signal n w)) = contexts w.
Proof.
  induction n as [| n IH]; intros w; [split; [apply steady_refl | reflexivity] |].
  destruct n as [| n].
  - simpl. split; [apply steady_tick | apply contexts_tick].
  - change (wait_ticks env signal (S (S n)) w)
      with (if asyncio.is_set signal (events (tick env w))
            then (raised ActionStoppedError, tick env w)
            else wait_ticks env signal (S n) (tick env w)).
    destruct (asyncio.is_set signal (events (tick env w))).
    + simpl. split; [apply steady_tick | apply contexts_tick].
    + destruct (IH (tick env w)) as [H1 H2]. split.
      * eapply steady_trans; [apply steady_tick | exact H1].
      * rewrite H2. apply contexts_tick.
Qed.

Lemma wait_quiet env ctx ms w :
  steady w (snd (wait env ctx ms w)) /\ contexts (snd (wait env ctx ms w)) = contexts w.
Proof.
  unfold wait. destruct (ms <=? 0); [split; [apply steady_refl | reflexivity] |].
  destruct (asyncio.is_set _ _); [split; [apply steady_refl | reflexivity] |].
  apply wait_ticks_quiet.
Qed.

Lemma steady_on_cleanup ctx_id callback w : steady w (on_cleanup ctx_id callback w).
Proof.
  unfold on_cleanup. destruct (contexts w !! ctx_id) as [ctx |] eqn:E;
    [| apply steady_refl].
  repeat split; auto. simpl.
  rewrite list_fmap_insert. apply list_insert_id.
  rewrite list_lookup_fmap, E. reflexivity.
Qed.

Lemma steady_run_action env ctx_id steps : forall w,
  steady w (snd (run_action env ctx_id steps w)).
Proof.
  induction steps as [| step steps IH]; intros w; simpl; [apply steady_refl |].
  destruct step as [callback | ms | | ms | error |].
  - eapply steady_trans; [apply steady_on_cleanup | apply IH].
  - destruct (contexts w !! ctx_id) as [ctx |]; [| apply IH].
    pose proof (wait_quiet env ctx ms w) as [H _].
    destruct (wait env ctx ms w) as [[| error] w']; simpl in *; [| exact H].
    eapply steady_trans; [exact H | apply IH].
  - destruct (contexts w !! ctx_id) as [ctx |]; [| apply IH].
    destruct (check_stopped ctx w); [apply IH | apply steady_refl].
  - eapply steady_trans; [apply steady_run_ticks | apply IH].
  - apply steady_refl.
  - apply steady_refl.
Qed.

Lemma callbacks_observe_callback ctx_id cb tr :
  callbacks_called (tr ++ [callback_called ctx_id cb]) = callbacks_called tr ++ [(ctx_id, cb)].
Proof. unfold callbacks_called. rewrite omap_app. reflexivity. Qed.

Lemma started_observe_callback ctx_id cb tr :
  started (tr ++ [callback_called ctx_id cb]) = started tr.
Proof. unfold started. rewrite omap_app. simpl. apply app_nil_r. Qed.

(** Callbacks that raise nothing beyond [Exception] are all called, in
    order, and the loop ends normally; nothing but the trace changes. *)
Lemma run_callbacks_all ctx_id callbacks : forall w,
  forallb callback_ok callbacks = true ->
  exists w',
    run_callbacks ctx_id callbacks w = (returned, w') /\
    contexts w' = contexts w /\ manager w' = manager w /\ events w' = events w /\
    navigation w' = navigation w /\ clock w' = clock w /\
    started (trace w') = started (trace w) /\
    callbacks_called (trace w')
    = callbacks_called (trace w) ++ ((fun cb => (ctx_id, callback_id cb)) <$> callbacks).
Proof.
  induction callbacks as [| cb callbacks IH]; intros w Hok; simpl.
  - exists w. rewrite app_nil_r. repeat split; auto.
  - simpl in Hok. apply andb_true_iff in Hok as [Hcb Hrest].
    destruct (IH (observe (callback_called ctx_id (callback_id cb)) w) Hrest)
      as (w' & Hr & H1 & H2 & H3 & H4 & H5 & H6 & H7).
    exists w'. unfold callback_ok in Hcb.
    destruct (callback_raises cb) as [error |]; [rewrite Hcb |];
      (split; [exact Hr |]); repeat split; auto;
      try (rewrite H6; apply started_observe_callback);
      rewrite H7; simpl; rewrite callbacks_observe_callback, <- app_assoc; reflexivity.
Qed.

Lemma remove_first_fresh (x : nat) (l : list nat) :
  x ∉ l -> navigation_manager.remove_first x (l ++ [x]) = l.
Proof.
  induction l as [| y l IH]; intros Hx; simpl.
  - destruct (decide (x = x)); [reflexivity | congruence].
  - destruct (decide (x = y)) as [-> | Hne]; [exfalso; apply Hx; left |].
    rewrite IH; [reflexivity |]. intros Hin. apply Hx. right. exact Hin.
Qed.

Lemma active_below w :
  forallb (fun ctx_id => Nat.ltb ctx_id (length (contexts w)))
          (_active_actions (manager w)) = true ->
  length (contexts w) ∉ _active_actions (manager w).
Proof.
  intros H Hin. rewrite forallb_forall in H.
  apply list_elem_of_In in Hin. apply H in Hin.
  apply Nat.ltb_lt in Hin. lia.
Qed.

(** What [begin_trigger] sets up. *)
Lemma begin_trigger_spec trigger u w :
  let '(ctx_id, w1) := begin_trigger trigger u w in
  ctx_id = length (contexts w) /\
  contexts w1 = contexts w ++ [{| url := u; trigger_name := name trigger;
                                  _abort_signal := asyncio.allocated (events w);
                                  _cleanup_callbacks := [] |}] /\
  _active_actions (manager w1) = _active_actions (manager w) ++ [length (contexts w)] /\
  _triggers (manager w1) = _triggers (manager w) /\
  asyncio.fired (events w1) = asyncio.fired (events w) /\
  asyncio.allocated (events w1) = S (asyncio.allocated (events w)) /\
  started (trace w1) = started (trace w) ++ [(length (contexts w), trigger, u)] /\
  callbacks_called (trace w1) = callbacks_called (trace w).
Proof.
  unfold begin_trigger. simpl. repeat split.
  - unfold started. rewrite omap_app. reflexivity.
  - unfold callbacks_called. rewrite omap_app. simpl. apply app_nil_r.
Qed.

(** The heart of C7 and C3: a run whose action ends, with only catchable
    errors around, ends normally, calls every cleanup callback and leaves
    the active actions as they were before the run. *)
Lemma run_trigger_ends env trigger u w o w2 :
  forallb (fun ctx_id => Nat.ltb ctx_id (length (contexts w)))
          (_active_actions (manager w)) = true ->
  run_action env (fst (begin_trigger trigger u w)) (action trigger)
             (snd (begin_trigger trigger u w)) = (completed o, w2) ->
  outcome_ok o = true ->
  (forall ctx, contexts w2 !! fst (begin_trigger trigger u w) = Some ctx ->
               forallb callback_ok (_cleanup_callbacks ctx) = true) ->
  exists w' ctx,
    _run_trigger env trigger u w = (completed returned, w') /\
    contexts w2 !! fst (begin_trigger trigger u w) = Some ctx /\
    callbacks_called (trace w')
    = callbacks_called (trace w2)
      ++ ((fun cb => (fst (begin_trigger trigger u w), callback_id cb))
            <$> _cleanup_callbacks ctx) /\
    (fst (begin_trigger trigger u w) ∉ _active_actions (manager w')) /\
    _active_actions (manager w') = _active_actions (manager w) /\
    contexts w' = contexts w2 /\ events w' = events w2 /\
    _triggers (manager w') = _triggers (manager w) /\
    started (trace w') = started (trace w2).
Proof.
  intros Hact Hrun Hout Hcbs.
  pose proof (begin_trigger_spec trigger u w) as Hb.
  destruct (begin_trigger trigger u w) as [ctx_id w1] eqn:Eb. simpl in *.
  destruct Hb as (-> & Hc1 & Ha1 & Ht1 & _).
  pose proof (steady_run_action env (length (contexts w)) (action trigger) w1) as St.
  rewrite Hrun in *. simpl in St.
  destruct St as (Sid & Sact & Str & _).
  assert (Hlook : exists ctx, contexts w2 !! length (contexts w) = Some ctx).
  { apply lookup_lt_is_Some.
    rewrite <- (length_fmap identity (contexts w2)), Sid, length_fmap, Hc1, length_app.
    simpl. lia. }
  destruct Hlook as [ctx Hctx].
  assert (Hend : exists w',
             end_trigger (length (contexts w)) None w2 = (completed returned, w') /\
             callbacks_called (trace w')
             = callbacks_called (trace w2)
               ++ ((fun cb => (length (contexts w), callback_id cb))
                     <$> _cleanup_callbacks ctx) /\
             _active_actions (manager w') = _active_actions (manager w) /\
             contexts w' = contexts w2 /\ events w' = events w2 /\
             _triggers (manager w') = _triggers (manager w) /\
             started (trace w') = started (trace w2)).
  { unfold end_trigger, cleanup. rewrite Hctx.
    destruct (run_callbacks_all (length (contexts w)) (_cleanup_callbacks ctx) w2
                (Hcbs ctx Hctx)) as (w3 & Hr & H1 & H2 & H3 & H4 & H5 & H6 & H7).
    rewrite Hr. eexists. split; [reflexivity |]. simpl.
    rewrite H2, Sact, Ha1, Str, Ht1.
    rewrite remove_first_fresh by (apply active_below; exact Hact).
    repeat split; auto. }
  destruct Hend as (w' & He & H1 & H2 & H3 & H4 & H5 & H6).
  exists w', ctx.
  assert (Hgoal : _run_trigger env trigger u w = (completed returned, w')).
  { unfold _run_trigger. rewrite Eb, Hrun.
    destruct o as [| error]; [exact He |].
    simpl in Hout. rewrite Hout. exact He. }
  split; [exact Hgoal |]. split; [exact Hctx |]. split; [exact H1 |].
  split; [rewrite H2; apply active_below; exact Hact |].
  repeat split; auto.
Qed.

(** C7. When a trigger's action ends, whether by returning, by
    [ActionStoppedError] or by any other [Exception], the run ends normally:
    nothing is propagated.  Every cleanup callback registered on the context
    has then been called, in order, whatever [Exception] the callbacks
    themselves raise, and the context is no longer among the active
    actions. *)
Theorem run_trigger_swallows_and_cleans_up
    (env : Z -> list PageEvent) (trigger : Trigger) (u : str) (w : World)
    (o : outcome) (w2 : World) :
  let ctx_id := fst (begin_trigger trigger u w) in
  forallb (fun id => Nat.ltb id (length (contexts w))) (_active_actions (manager w)) = true ->
  run_action env ctx_id (action trigger) (snd (begin_trigger trigger u w))
  = (completed o, w2) ->
  outcome_ok o = true ->
  (forall ctx, contexts w2 !! ctx_id = Some ctx ->
               forallb callback_ok (_cleanup_callbacks ctx) = true) ->
  exists w' ctx,
    _run_trigger env trigger u w = (completed returned, w') /\
    contexts w2 !! ctx_id = Some ctx /\
    callbacks_called (trace w')
    = callbacks_called (trace w2)
      ++ ((fun cb => (ctx_id, callback_id cb)) <$> _cleanup_callbacks ctx) /\
    ctx_id ∉ _active_actions (manager w').
Proof.
  intros ctx_id Hact Hrun Hout Hcbs.
  destruct (run_trigger_ends env trigger u w o w2 Hact Hrun Hout Hcbs)
    as (w' & ctx & H1 & H2 & H3 & H4 & _).
  exists w', ctx. auto.
Qed.


(** ** Checking the triggers for a URL *)


Lemma well_formed_iff w : well_formed w = true <-> wf_prop w.
Proof.
  unfold well_formed, wf_prop.
  rewrite !andb_true_iff, bool_decide_eq_true, !forallb_forall, !Forall_forall.
  split.
  - intros [[H1 H2] H3]. split; [| split]; auto.
    + intros id Hin. apply Nat.ltb_lt, H1, list_elem_of_In, Hin.
    + intros s Hin. apply list_elem_of_fmap in Hin as (ctx & -> & Hin).
      apply Nat.ltb_lt, H2, list_elem_of_In, Hin.
  - intros (H1 & H2 & H3). split; [split |]; auto.
    + intros id Hin. apply Nat.ltb_lt, H1, list_elem_of_In, Hin.
    + intros ctx Hin. apply Nat.ltb_lt, H2, list_elem_of_fmap.
      exists ctx. split; [reflexivity | apply list_elem_of_In, Hin].
Qed.

Lemma signals_of_identity (l : list ActionContext) :
  _abort_signal <$> l = snd <$> (identity <$> l).
Proof. rewrite <- list_fmap_compose. reflexivity. Qed.









(** ** URL changes and the abort signals *)


Lemma grows_refl w : grows w w.
Proof. unfold grows. reflexivity. Qed.

Lemma grows_trans w1 w2 w3 : grows w1 w2 -> grows w2 w3 -> grows w1 w3.
Proof. unfold grows. intros H1 H2. etrans; eauto. Qed.

Lemma grows_steady w w' : steady w w' -> grows w w'.
Proof. intros (_ & _ & _ & H & _). exact H. Qed.

Lemma events_run_callbacks ctx_id callbacks : forall w,
  events (snd (run_callbacks ctx_id callbacks w)) = events w.
Proof.
  induction callbacks as [| cb callbacks IH]; intros w; simpl; [reflexivity |].
  destruct (callback_raises cb) as [error |]; [destruct (is_Exception error) |];
    try rewrite IH; reflexivity.
Qed.

Lemma events_cleanup ctx_id w : events (snd (cleanup ctx_id w)) = events w.
Proof.
  unfold cleanup. destruct (contexts w !! ctx_id); [| reflexivity].
  apply events_run_callbacks.
Qed.

Lemma grows_end_trigger ctx_id pending w : grows w (snd (end_trigger ctx_id pending w)).
Proof.
  unfold end_trigger, grows. pose proof (events_cleanup ctx_id w) as H.
  destruct (cleanup ctx_id w) as [[| error] w1]; simpl in *; rewrite H; reflexivity.
Qed.

Lemma grows_run_trigger env trigger u w : grows w (snd (_run_trigger env trigger u w)).
Proof.
  unfold _run_trigger.
  pose proof (begin_trigger_spec trigger u w) as Hb.
  destruct (begin_trigger trigger u w) as [ctx_id w1].
  destruct Hb as (_ & _ & _ & _ & Hf & _).
  assert (G1 : grows w w1) by (unfold grows; rewrite Hf; reflexivity).
  pose proof (steady_run_action env ctx_id (action trigger) w1) as St.
  destruct (run_action env ctx_id (action trigger) w1) as [[o |] w2]; simpl in St.
  - assert (G2 : grows w w2) by (eapply grows_trans; [exact G1 | apply grows_steady, St]).
    destruct o as [| error]; [| destruct (is_Exception error)];
      (eapply grows_trans; [exact G2 | apply grows_end_trigger]).
  - simpl. eapply grows_trans; [exact G1 | apply grows_steady, St].
Qed.

Lemma grows_check_each env u triggers : forall w,
  grows w (snd (check_each env u triggers w)).
Proof.
  induction triggers as [| t triggers IH]; intros w; simpl; [apply grows_refl |].
  destruct (condition t u); [| apply IH].
  pose proof (grows_run_trigger env t u w) as G.
  destruct (_run_trigger env t u w) as [[[| error] |] w1]; simpl in *; try exact G.
  eapply grows_trans; [exact G | apply IH].
Qed.

Lemma grows_destroy_each active : forall w, grows w (snd (destroy_each active w)).
Proof.
  induction active as [| id active IH]; intros w; simpl; [apply grows_refl |].
  set (w1 := match contexts w !! id with
             | Some ctx => set_events w (asyncio.set (_abort_signal ctx) (events w))
             | None => w
             end).
  assert (G1 : grows w w1).
  { subst w1. unfold grows. destruct (contexts w !! id); [| reflexivity].
    simpl. apply union_subseteq_r. }
  pose proof (events_cleanup id w1) as Hc.
  destruct (cleanup id w1) as [[| error] w2]; simpl in *.
  - eapply grows_trans; [exact G1 |].
    eapply grows_trans; [| apply IH]. unfold grows. rewrite Hc. reflexivity.
  - eapply grows_trans; [exact G1 |]. unfold grows. rewrite Hc. reflexivity.
Qed.

Lemma grows_perform env w op : grows w (perform env w op).
Proof.
  destruct op as [ms | ev | | trigger u | config | | | |]; simpl.
  - apply grows_steady, steady_run_ticks.
  - apply grows_steady, steady_deliver.
  - unfold run_background_task.
    destruct (_background_tasks (manager w)) as [| u rest]; [apply grows_refl |].
    unfold _check_triggers.
    match goal with |- grows w (snd (check_each env u ?ts ?w0)) =>
      apply (grows_trans w w0); [unfold grows; reflexivity | apply grows_check_each]
    end.
  - apply grows_run_trigger.
  - unfold page_trigger.
    destruct (config_condition config) as [cond |]; [| apply grows_refl].
    destruct (config_action config) as [act |]; [| apply grows_refl].
    destruct (falsy cond); [apply grows_refl |].
    destruct cond as [f | r | p0 | ];
      try (destruct (UrlCondition.make_url_condition _));
      unfold grows; reflexivity.
  - unfold grows; reflexivity.
  - unfold navigation_manager.start_listening.
    destruct (navigation_manager._is_listening (navigation w)); unfold grows; reflexivity.
  - unfold grows; reflexivity.
  - unfold destroy.
    pose proof (grows_destroy_each (_active_actions (manager w)) w) as G.
    destruct (destroy_each (_active_actions (manager w)) w) as [[| error] w1];
      simpl in *; exact G.
Qed.

Lemma grows_operations env ops : forall w, grows w (fold_left (perform env) ops w).
Proof.
  induction ops as [| op ops IH]; intros w; simpl; [apply grows_refl |].
  eapply grows_trans; [apply grows_perform | apply IH].
Qed.

(** The events set by the loop of the manager's handler. *)
Lemma stop_active_fired (cs : list ActionContext) active : forall st e,
  e ∈ asyncio.fired
        (fold_left (fun st ctx_id =>
                      match cs !! ctx_id with
                      | Some ctx => asyncio.set (_abort_signal ctx) st
                      | None => st
                      end) active st)
  <-> (e ∈ asyncio.fired st) \/
      exists ctx_id ctx,
        (ctx_id ∈ active) /\ (cs !! ctx_id = Some ctx) /\ (_abort_signal ctx = e).
Proof.
  induction active as [| id active IH]; intros st e; simpl.
  - split; [auto |]. intros [H | (i & c & Hin & _)]; [exact H |].
    apply elem_of_nil in Hin. contradiction.
  - rewrite IH. split.
    + intros [H | (i & c & Hin & Hl & He)].
      * destruct (cs !! id) as [ctx |] eqn:E; [| auto].
        simpl in H. apply elem_of_union in H as [H | H]; [| auto].
        apply elem_of_singleton in H. right. exists id, ctx.
        split; [left | auto].
      * right. exists i, c. split; [right; exact Hin | auto].
    + intros [H | (i & c & Hin & Hl & He)].
      * left. destruct (cs !! id); [| exact H]. simpl. apply elem_of_union. auto.
      * apply elem_of_cons in Hin as [-> | Hin].
        -- left. rewrite Hl. simpl. apply elem_of_union. left.
           apply elem_of_singleton. auto.
        -- right. exists i, c. auto.
Qed.

Lemma on_url_change_fired u w e :
  e ∈ asyncio.fired (events (_on_url_change u w))
  <-> (e ∈ asyncio.fired (events w)) \/ active_signal w e.
Proof. unfold _on_url_change, active_signal. simpl. apply stop_active_fired. Qed.


Lemma fold_calls_spec calls : forall w,
  let w' := fold_left call_listener calls w in
  contexts w' = contexts w /\
  _active_actions (manager w') = _active_actions (manager w) /\
  navigation w' = navigation w /\
  asyncio.allocated (events w') = asyncio.allocated (events w) /\
  forall e, e ∈ asyncio.fired (events w')
            <-> (e ∈ asyncio.fired (events w)) \/ (handler_called calls /\ active_signal w e).
Proof.
  induction calls as [| c calls IH]; intros w; simpl.
  - repeat split; auto. intros [H | [(o & n & Hin) _]]; [exact H |].
    apply elem_of_nil in Hin. contradiction.
  - destruct (IH (call_listener w c)) as (H1 & H2 & H3 & H4 & H5).
    assert (Hsame : forall w0, contexts w0 = contexts w ->
                    _active_actions (manager w0) = _active_actions (manager w) ->
                    forall e, active_signal w0 e <-> active_signal w e).
    { intros w0 E1 E2 e. unfold active_signal. rewrite E1, E2. reflexivity. }
    assert (Hobs : forall o, 
              (forall old new, c <> navigation_manager.on_url_change
                                      navigation_manager.page_trigger_handler old new) ->
              call_listener w c = observe o w -> 
              contexts (fold_left call_listener calls (call_listener w c)) = contexts w /\
              _active_actions (manager (fold_left call_listener calls (call_listener w c)))
              = _active_actions (manager w) /\
              navigation (fold_left call_listener calls (call_listener w c)) = navigation w /\
              asyncio.allocated (events (fold_left call_listener calls (call_listener w c)))
              = asyncio.allocated (events w) /\
              forall e, e ∈ asyncio.fired
                          (events (fold_left call_listener calls (call_listener w c)))
                        <-> (e ∈ asyncio.fired (events w))
                            \/ (handler_called (c :: calls) /\ active_signal w e)).
    { intros o Hne Eo. rewrite Eo in *. simpl in *. repeat split; auto.
      - intros He. apply H5 in He as [He | [(old & new & Hin) Ha]]; [auto |].
        right. split; [exists old, new; right; exact Hin |].
        apply (Hsame (observe o w)); auto.
      - intros [He | [(old & new & Hin) Ha]]; apply H5; [auto |].
        apply elem_of_cons in Hin as [Hin | Hin]; [exfalso; eapply Hne; eauto |].
        right. split; [exists old, new; exact Hin |].
        apply (Hsame (observe o w)); auto. }
    destruct c as [fn old new | fn u0 | fn u0 | fn u0];
      try (eapply Hobs; [intros; discriminate | reflexivity]).
    destruct fn as [id |];
      [eapply Hobs; [intros; discriminate | reflexivity] |].
    change (call_listener w (navigation_manager.on_url_change
                               navigation_manager.page_trigger_handler old new))
      with (_on_url_change new w) in *.
    assert (Ec : contexts (_on_url_change new w) = contexts w) by reflexivity.
    assert (Ea : _active_actions (manager (_on_url_change new w))
                 = _active_actions (manager w)) by reflexivity.
    assert (En : navigation (_on_url_change new w) = navigation w) by reflexivity.
    assert (El : asyncio.allocated (events (_on_url_change new w))
                 = asyncio.allocated (events w)).
    { apply (fired_stop_active (contexts w) (_active_actions (manager w)) (events w)). }
    assert (Hc : handler_called
                   (navigation_manager.on_url_change
                      navigation_manager.page_trigger_handler old new :: calls)).
    { exists old, new. left. }
    rewrite H1, H2, H3, H4, Ec, Ea, En, El.
    split; [reflexivity |]. split; [reflexivity |]. split; [reflexivity |].
    split; [reflexivity |].
    intros e. rewrite H5, on_url_change_fired, (Hsame _ Ec Ea e). tauto.
Qed.

Lemma store_ok_prop w e :
  store_ok w = true -> e ∈ asyncio.fired (events w) ->
  (e < asyncio.allocated (events w))%nat.
Proof.
  unfold store_ok. rewrite andb_true_iff, forallb_forall. intros [H _] Hin.
  apply Nat.ltb_lt, H, list_elem_of_In, elem_of_elements, Hin.
Qed.

Lemma active_signal_below w e :
  well_formed w = true -> active_signal w e -> (e < asyncio.allocated (events w))%nat.
Proof.
  intros Hwf (id & ctx & _ & Hl & <-).
  apply well_formed_iff in Hwf as (_ & Hs & _).
  rewrite Forall_forall in Hs. apply Hs.
  apply list_elem_of_fmap. exists ctx. split; [reflexivity |].
  eapply list_elem_of_lookup_2; eauto.
Qed.

(** What the handling of one URL change does to the event objects. *)
Lemma url_changed_spec new_url w signal :
  navigation_manager._abort_controller (navigation w) = Some signal ->
  navigation_manager.page_trigger_handler
    ∈ navigation_manager._listeners_on_url_change (navigation w) ->
  let w' := url_changed new_url w in
  asyncio.allocated (events w') = S (asyncio.allocated (events w)) /\
  navigation_manager._abort_controller (navigation w')
  = Some (asyncio.allocated (events w)) /\
  navigation_manager.is_navigating (navigation w') = true /\
  navigation_manager._last_url (navigation w') = new_url /\
  forall e, e ∈ asyncio.fired (events w')
            <-> (e ∈ asyncio.fired (events w)) \/ e = signal \/ active_signal w e.
Proof.
  intros Hctl Hsub. unfold url_changed, navigation_manager._on_url_change.
  rewrite Hctl. simpl.
  match goal with |- context [fold_left call_listener ?cs ?w0] =>
    destruct (fold_calls_spec cs w0) as (H1 & H2 & H3 & H4 & H5);
    assert (Hcalled : handler_called cs)
  end.
  { exists (navigation_manager._last_url (navigation w)), new_url.
    apply elem_of_app. left. apply list_elem_of_fmap.
    exists navigation_manager.page_trigger_handler. split; [reflexivity | exact Hsub]. }
  simpl in *. rewrite H3, H4. simpl. repeat split; auto.
  - intros He. apply H5 in He as [He | [_ Ha]].
    + apply elem_of_union in He as [He | He]; [| auto].
      apply elem_of_singleton in He. auto.
    + right. right. exact Ha.
  - intros [He | [He | Ha]]; apply H5.
    + left. apply elem_of_union. auto.
    + left. apply elem_of_union. left. apply elem_of_singleton. exact He.
    + right. split; [exact Hcalled | exact Ha].
Qed.


(** ** Every reachable world is well-formed *)

Lemma store_ok_iff w : store_ok w = true <-> stored w.
Proof.
  unfold store_ok, stored. rewrite andb_true_iff, forallb_forall. split.
  - intros [H1 H2]. split.
    + intros e Hin. apply Nat.ltb_lt, H1, list_elem_of_In, elem_of_elements, Hin.
    + intros s0 E. rewrite E in H2. apply Nat.ltb_lt. exact H2.
  - intros [H1 H2]. split.
    + intros e Hin. apply Nat.ltb_lt, H1, elem_of_elements, list_elem_of_In, Hin.
    + destruct (navigation_manager._abort_controller (navigation w)) as [s0 |];
        [apply Nat.ltb_lt, H2; reflexivity | reflexivity].
Qed.

Lemma sound_iff w : (well_formed w && store_ok w)%bool = true <-> sound w.
Proof. rewrite andb_true_iff, well_formed_iff, store_ok_iff. reflexivity. Qed.

(** Soundness looks at the contexts' events, the active actions, the event
    store and the abort controller only. *)
Lemma sound_frame w w' :
  identity <$> contexts w' = identity <$> contexts w ->
  _active_actions (manager w') = _active_actions (manager w) ->
  events w' = events w ->
  navigation_manager._abort_controller (navigation w')
  = navigation_manager._abort_controller (navigation w) ->
  sound w -> sound w'.
Proof.
  intros Hc Ha He Hn [(W1 & W2 & W3) [S1 S2]].
  assert (Hl : length (contexts w') = length (contexts w)).
  { rewrite <- (length_fmap identity), Hc, length_fmap. reflexivity. }
  unfold sound, wf_prop, stored.
  rewrite (signals_of_identity (contexts w')), Hc, <- signals_of_identity, Ha, He, Hn, Hl.
  auto.
Qed.

Lemma wf_steady w w' : steady w w' -> wf_prop w -> wf_prop w'.
Proof.
  intros (Hc & Ha & _ & _ & Hal & _) (W1 & W2 & W3).
  assert (Hl : length (contexts w') = length (contexts w)).
  { rewrite <- (length_fmap identity), Hc, length_fmap. reflexivity. }
  unfold wf_prop.
  rewrite (signals_of_identity (contexts w')), Hc, <- signals_of_identity, Ha, Hl.
  split; [exact W1 |]. split; [| exact W3].
  eapply Forall_impl; [exact W2 |]. simpl. intros; lia.
Qed.

Lemma sound_set_signal w e :
  (e < asyncio.allocated (events w))%nat -> sound w ->
  sound (set_events w (asyncio.set e (events w))).
Proof.
  intros He [W [S1 S2]]. split; [exact W |]. split; [| exact S2].
  simpl. intros x Hx. apply elem_of_union in Hx as [Hx | Hx]; [| auto].
  apply elem_of_singleton in Hx. subst x. exact He.
Qed.

Lemma sound_on_url_change u w : sound w -> sound (_on_url_change u w).
Proof.
  intros [W [S1 S2]]. split; [exact (wf_steady _ _ (steady_on_url_change u w) W) |].
  destruct (fired_stop_active (contexts w) (_active_actions (manager w)) (events w))
    as [_ Hal].
  split.
  - intros e He. apply on_url_change_fired in He as [He | He].
    + unfold _on_url_change. simpl. rewrite Hal. auto.
    + unfold _on_url_change. simpl. rewrite Hal.
      apply active_signal_below; [apply well_formed_iff; exact W | exact He].
  - unfold _on_url_change. simpl. rewrite Hal. exact S2.
Qed.

Lemma sound_call_listener w c : sound w -> sound (call_listener w c).
Proof.
  intros H. destruct c as [fn old new | fn u | fn u | fn u]; simpl; try exact H.
  destruct fn; [exact H | apply sound_on_url_change; exact H].
Qed.

Lemma sound_fold_calls calls : forall w, sound w -> sound (fold_left call_listener calls w).
Proof.
  induction calls as [| c calls IH]; intros w H; simpl; [exact H |].
  apply IH, sound_call_listener, H.
Qed.

(** The manager's part of a URL change: the controller's event is set and a
    fresh one takes its place. *)
Lemma sound_nav_url_change u w :
  sound w ->
  sound (set_events
           (set_navigation w
              (fst (fst (navigation_manager._on_url_change (navigation w) u (events w)))))
           (snd (fst (navigation_manager._on_url_change (navigation w) u (events w))))).
Proof.
  intros [(W1 & W2 & W3) [S1 S2]].
  unfold navigation_manager._on_url_change.
  destruct (navigation_manager._abort_controller (navigation w)) as [signal |] eqn:E;
    simpl.
  - split; [split; [exact W1 | split; [| exact W3]] | split].
    + eapply Forall_impl; [exact W2 |]. simpl. intros; lia.
    + simpl. intros e He. apply elem_of_union in He as [He | He].
      * apply elem_of_singleton in He. subst e. specialize (S2 signal eq_refl). lia.
      * specialize (S1 e He). lia.
    + simpl. intros s0 [= <-]. lia.
  - split; [split; [exact W1 | split; [exact W2 | exact W3]] | split].
    + exact S1.
    + simpl. intros s0 Hs. discriminate.
Qed.

Lemma sound_url_changed u w : sound w -> sound (url_changed u w).
Proof.
  intros H. unfold url_changed.
  pose proof (sound_nav_url_change u w H) as H1.
  destruct (navigation_manager._on_url_change (navigation w) u (events w))
    as [[nm st] calls]. simpl in H1.
  apply sound_fold_calls. exact H1.
Qed.

Lemma sound_deliver w ev : sound w -> sound (deliver w ev).
Proof.
  intros H. destruct ev as [main u]. simpl.
  set (w1 := if main then set_page_url w u else w).
  assert (H1 : sound w1) by (subst w1; destruct main; exact H).
  destruct (navigation_manager.page_handler (navigation w1)); [| exact H1].
  unfold navigation_manager._on_frame_navigated.
  destruct (negb main); [simpl; exact H1 |].
  destruct (negb _).
  - pose proof (sound_nav_url_change (page_url w1) w1 H1) as H2.
    destruct (navigation_manager._on_url_change (navigation w1) (page_url w1) (events w1))
      as [[nm st] calls]. simpl in H2.
    apply sound_fold_calls. exact H2.
  - simpl. exact H1.
Qed.

Lemma sound_tick env w : sound w -> sound (tick env w).
Proof.
  intros H. unfold tick.
  assert (Hf : forall evs w0, sound w0 -> sound (fold_left deliver evs w0)).
  { induction evs as [| ev evs IH]; intros w0 H0; simpl; [exact H0 |].
    apply IH, sound_deliver, H0. }
  apply Hf. exact H.
Qed.

Lemma sound_run_ticks env n : forall w, sound w -> sound (run_ticks env n w).
Proof.
  induction n as [| n IH]; intros w H; simpl; [exact H |].
  apply IH, sound_tick, H.
Qed.

Lemma sound_wait_ticks env signal n : forall w,
  sound w -> sound (snd (wait_ticks env signal n w)).
Proof.
  induction n as [| n IH]; intros w H; [exact H |].
  destruct n as [| n]; [simpl; apply sound_tick, H |].
  change (wait_ticks env signal (S (S n)) w)
    with (if asyncio.is_set signal (events (tick env w))
          then (raised ActionStoppedError, tick env w)
          else wait_ticks env signal (S n) (tick env w)).
  destruct (asyncio.is_set signal (events (tick env w)));
    [simpl; apply sound_tick, H | apply IH, sound_tick, H].
Qed.

Lemma sound_wait env ctx ms w : sound w -> sound (snd (wait env ctx ms w)).
Proof.
  intros H. unfold wait. destruct (ms <=? 0); [exact H |].
  destruct (asyncio.is_set _ _); [exact H | apply sound_wait_ticks, H].
Qed.

Lemma sound_on_cleanup ctx_id callback w : sound w -> sound (on_cleanup ctx_id callback w).
Proof.
  intros H. eapply sound_frame; [| | | | exact H]; try reflexivity.
  - apply (steady_on_cleanup ctx_id callback w).
  - unfold on_cleanup. destruct (contexts w !! ctx_id); reflexivity.
  - unfold on_cleanup. destruct (contexts w !! ctx_id); reflexivity.
  - unfold on_cleanup. destruct (contexts w !! ctx_id); reflexivity.
Qed.

Lemma sound_run_action env ctx_id steps : forall w,
  sound w -> sound (snd (run_action env ctx_id steps w)).
Proof.
  induction steps as [| step steps IH]; intros w H; simpl; [exact H |].
  destruct step as [callback | ms | | ms | error |]; simpl; try exact H.
  - apply IH, sound_on_cleanup, H.
  - destruct (contexts w !! ctx_id) as [ctx |]; [| apply IH, H].
    pose proof (sound_wait env ctx ms w H) as Hw.
    destruct (wait env ctx ms w) as [[| error] w']; simpl in *; [apply IH, Hw | exact Hw].
  - destruct (contexts w !! ctx_id) as [ctx |]; [| apply IH, H].
    destruct (check_stopped ctx w); [apply IH, H | exact H].
  - apply IH, sound_run_ticks, H.
Qed.

Lemma sound_begin_trigger trigger u w : sound w -> sound (snd (begin_trigger trigger u w)).
Proof.
  intros [(W1 & W2 & W3) [S1 S2]]. unfold begin_trigger. simpl.
  split; [split; [| split] | split]; simpl.
  - rewrite length_app. simpl. apply Forall_app. split.
    + eapply Forall_impl; [exact W1 |]. simpl. intros; lia.
    + constructor; [lia | constructor].
  - rewrite fmap_app. apply Forall_app. split.
    + eapply Forall_impl; [exact W2 |]. simpl. intros; lia.
    + constructor; [simpl; lia | constructor].
  - rewrite fmap_app. apply NoDup_app. split; [exact W3 |].
    split; [| apply NoDup_singleton].
    intros x Hin Hin'. apply list_elem_of_singleton in Hin'. subst x.
    rewrite Forall_forall in W2. apply W2 in Hin. simpl in Hin. lia.
  - intros e He. specialize (S1 e He). lia.
  - intros s0 Hs. specialize (S2 s0 Hs). lia.
Qed.

(** Calling cleanup callbacks changes the trace only. *)
Lemma run_callbacks_frame ctx_id callbacks : forall w,
  contexts (snd (run_callbacks ctx_id callbacks w)) = contexts w /\
  manager (snd (run_callbacks ctx_id callbacks w)) = manager w /\
  events (snd (run_callbacks ctx_id callbacks w)) = events w /\
  navigation (snd (run_callbacks ctx_id callbacks w)) = navigation w.
Proof.
  induction callbacks as [| cb callbacks IH]; intros w; simpl; [auto |].
  destruct (callback_raises cb) as [error |]; [destruct (is_Exception error) |];
    try apply (IH (observe (callback_called ctx_id (callback_id cb)) w)); simpl; auto.
Qed.

Lemma cleanup_frame ctx_id w :
  contexts (snd (cleanup ctx_id w)) = contexts w /\
  manager (snd (cleanup ctx_id w)) = manager w /\
  events (snd (cleanup ctx_id w)) = events w /\
  navigation (snd (cleanup ctx_id w)) = navigation w.
Proof.
  unfold cleanup. destruct (contexts w !! ctx_id); [apply run_callbacks_frame | auto].
Qed.

Lemma sound_cleanup ctx_id w : sound w -> sound (snd (cleanup ctx_id w)).
Proof.
  intros H. destruct (cleanup_frame ctx_id w) as (H1 & H2 & H3 & H4).
  eapply sound_frame; [| | | | exact H]; congruence.
Qed.

Lemma Forall_remove_first (P : nat -> Prop) x l :
  Forall P l -> Forall P (navigation_manager.remove_first x l).
Proof.
  induction 1 as [| y l Hy Hl IH]; simpl; [constructor |].
  destruct (decide (x = y)); [exact Hl | constructor; auto].
Qed.

Lemma sound_end_trigger ctx_id pending w :
  sound w -> sound (snd (end_trigger ctx_id pending w)).
Proof.
  intros H. unfold end_trigger.
  pose proof (sound_cleanup ctx_id w H) as Hc.
  destruct (cleanup ctx_id w) as [[| error] w1]; simpl in *; [| exact Hc].
  destruct Hc as [(W1 & W2 & W3) S]. split; [| exact S].
  split; [| split; [exact W2 | exact W3]]. simpl.
  apply Forall_remove_first. exact W1.
Qed.

Lemma sound_run_trigger env trigger u w :
  sound w -> sound (snd (_run_trigger env trigger u w)).
Proof.
  intros H. unfold _run_trigger.
  pose proof (sound_begin_trigger trigger u w H) as Hb.
  destruct (begin_trigger trigger u w) as [ctx_id w1]. simpl in Hb.
  pose proof (sound_run_action env ctx_id (action trigger) w1 Hb) as Hr.
  destruct (run_action env ctx_id (action trigger) w1) as [[[| error] |] w2];
    simpl in *; [| destruct (is_Exception error) |]; try apply sound_end_trigger; exact Hr.
Qed.

Lemma sound_check_each env u triggers : forall w,
  sound w -> sound (snd (check_each env u triggers w)).
Proof.
  induction triggers as [| t triggers IH]; intros w H; simpl; [exact H |].
  destruct (condition t u); [| apply IH, H].
  pose proof (sound_run_trigger env t u w H) as Hr.
  destruct (_run_trigger env t u w) as [[[| error] |] w1]; simpl in *; try exact Hr.
  apply IH, Hr.
Qed.

Lemma sound_destroy_each active : forall w,
  Forall (fun id => (id < length (contexts w))%nat) active ->
  sound w -> sound (snd (destroy_each active w)) /\
             contexts (snd (destroy_each active w)) = contexts w.
Proof.
  induction active as [| id active IH]; intros w Hact H; simpl; [auto |].
  inversion Hact as [| ? ? Hid Hrest]; subst.
  set (w1 := match contexts w !! id with
             | Some ctx => set_events w (asyncio.set (_abort_signal ctx) (events w))
             | None => w
             end).
  assert (H1 : sound w1 /\ contexts w1 = contexts w).
  { subst w1. destruct (contexts w !! id) as [ctx |] eqn:E; [| auto].
    split; [| reflexivity]. apply sound_set_signal; [| exact H].
    destruct H as [(_ & W2 & _) _]. rewrite Forall_forall in W2. apply W2.
    apply list_elem_of_fmap. exists ctx. split; [reflexivity |].
    eapply list_elem_of_lookup_2; eauto. }
  destruct H1 as [H1 Hc1].
  pose proof (sound_cleanup id w1 H1) as H2.
  destruct (cleanup_frame id w1) as (Hc2 & _).
  destruct (cleanup id w1) as [[| error] w2]; simpl in *.
  - destruct (IH w2) as [H3 Hc3]; [rewrite Hc2, Hc1; exact Hrest | exact H2 |].
    split; [exact H3 | congruence].
  - split; [exact H2 | congruence].
Qed.

Lemma off_keeps_controller nm event fn :
  navigation_manager._abort_controller (navigation_manager.off nm event fn)
  = navigation_manager._abort_controller nm.
Proof.
  unfold navigation_manager.off.
  repeat (match goal with |- context [if ?b then _ else _] => destruct b end);
    reflexivity.
Qed.

Lemma on_keeps_controller nm event fn :
  navigation_manager._abort_controller (navigation_manager.on nm event fn)
  = navigation_manager._abort_controller nm.
Proof.
  unfold navigation_manager.on.
  repeat (match goal with |- context [if ?b then _ else _] => destruct b end);
    reflexivity.
Qed.

(** Every operation takes a sound world to a sound world. *)
Lemma sound_perform env w op : sound w -> sound (perform env w op).
Proof.
  intros H. destruct op as [ms | ev | | trigger u | config | | | |]; simpl.
  - apply sound_run_ticks, H.
  - apply sound_deliver, H.
  - unfold run_background_task.
    destruct (_background_tasks (manager w)) as [| u rest]; [exact H |].
    apply sound_check_each. exact H.
  - apply sound_run_trigger, H.
  - unfold page_trigger.
    destruct (config_condition config) as [cond |]; [| exact H].
    destruct (config_action config) as [act |]; [| exact H].
    destruct (falsy cond); [exact H |].
    destruct cond as [f | r | p0 | ];
      try (destruct (UrlCondition.make_url_condition _)); exact H.
  - eapply sound_frame; [| | | | exact H];
      first [reflexivity | apply on_keeps_controller].
  - unfold navigation_manager.start_listening.
    destruct (navigation_manager._is_listening (navigation w)); [exact H |].
    destruct H as [(W1 & W2 & W3) [S1 S2]]. simpl.
    split; [split; [exact W1 | split; [| exact W3]] | split]; simpl.
    + eapply Forall_impl; [exact W2 |]. simpl. intros; lia.
    + intros e He. specialize (S1 e He). lia.
    + intros s0 [= <-]. lia.
  - unfold navigation_manager.stop_listening.
    destruct (negb _); exact H.
  - unfold destroy.
    destruct (sound_destroy_each (_active_actions (manager w)) w) as [Hd _];
      [apply H | exact H |].
    destruct (destroy_each (_active_actions (manager w)) w) as [[| error] w1];
      simpl in *; [| exact Hd].
    destruct Hd as [(W1 & W2 & W3) [S1 S2]].
    split; [split; [constructor | split; [exact W2 | exact W3]] | split].
    + exact S1.
    + first [exact S2 | rewrite off_keeps_controller; exact S2].
Qed.

(** A world that starts with a new navigation manager and nothing else is
    sound, and stays so whatever is done to it: the well-formedness assumed
    of worlds below holds of every world the program can reach. *)
Lemma reachable_worlds_are_sound env page_url engine tracker ops :
  sound (fold_left (perform env) ops
           (new_world page_url (navigation_manager.__init__ engine tracker))).
Proof.
  assert (H0 : sound (new_world page_url (navigation_manager.__init__ engine tracker))).
  { split; [split; [constructor | split; [constructor | constructor]] | split].
    - simpl. intros e He. apply elem_of_empty in He. contradiction.
    - simpl. intros s0 Hs. discriminate. }
  revert H0. generalize (new_world page_url (navigation_manager.__init__ engine tracker)).
  induction ops as [| op ops IH]; intros w H; simpl; [exact H |].
  apply IH, sound_perform, H.
Qed.

(** A context whose action has already ended is no longer among the active
    actions, so a later URL change does not set its event: the context was
    created before the URL change and still reports that it is not
    stopped. *)
Lemma finished_context_is_not_stopped :
  let w := after_first_navigation [] in
  let w' := deliver w (framenavigated true (py "https://x/c")) in
  navigation_manager._last_url (navigation w') = py "https://x/c" /\
  _active_actions (manager w) = [] /\
  exists ctx, contexts w !! 0%nat = Some ctx /\
              url ctx = py "https://x/b" /\
              is_stopped ctx w' = false.
Proof.
  split; [vm_compute; reflexivity |]. split; [vm_compute; reflexivity |].
  eexists. split; [vm_compute; reflexivity |]. split; vm_compute; reflexivity.
Qed.

(** Scenario: an action is waiting 10000 ms on its context; 50 ms later the
    page navigates; the wait raises at that very tick. *)
Example wait_interrupted_by_navigation :
  let w := after_first_navigation [do_never_return] in
  exists ctx,
    contexts w !! 0%nat = Some ctx /\
    fst (wait navigation_at_50 ctx 10000 w) = raised ActionStoppedError /\
    clock (snd (wait navigation_at_50 ctx 10000 w)) = clock w + 50.
Proof.
  eexists. split; [vm_compute; reflexivity |]. split; vm_compute; reflexivity.
Qed.

(** C2 (for the contexts that are still active). When the navigation
    manager has an abort controller and the trigger manager's handler is
    subscribed, handling one URL change sets the controller's current event
    and puts exactly one new, unset event in its place; besides that event
    only the events of the active contexts get set; and every context that
    was active when the URL changed reports that it is stopped from then on,
    whatever happens afterwards. *)
Theorem url_change_stops_active_contexts
    (env : Z -> list PageEvent) (new_url : str) (w : World) (signal : nat) :
  navigation_manager._abort_controller (navigation w) = Some signal ->
  bool_decide (navigation_manager.page_trigger_handler
                 ∈ navigation_manager._listeners_on_url_change (navigation w)) = true ->
  well_formed w = true ->
  store_ok w = true ->
  let w' := url_changed new_url w in
  asyncio.allocated (events w') = S (asyncio.allocated (events w)) /\
  navigation_manager._abort_controller (navigation w')
  = Some (asyncio.allocated (events w)) /\
  asyncio.is_set signal (events w') = true /\
  navigation_manager.should_abort (navigation w') (events w') = false /\
  (forall e, e ∈ asyncio.fired (events w')
             <-> (e ∈ asyncio.fired (events w)) \/ e = signal \/ active_signal w e) /\
  (forall ctx_id ctx ops,
      ctx_id ∈ _active_actions (manager w) ->
      contexts w !! ctx_id = Some ctx ->
      is_stopped ctx w' = true /\
      is_stopped ctx (fold_left (perform env) ops w') = true).
Proof.
  intros Hctl Hsub Hwf Hok w'.
  apply bool_decide_eq_true in Hsub.
  destruct (url_changed_spec new_url w signal Hctl Hsub) as (Hal & Hnew & _ & _ & Hf).
  fold w' in Hal, Hnew, Hf.
  split; [exact Hal |]. split; [exact Hnew |]. split; [| split; [| split; [exact Hf |]]].
  - apply bool_decide_eq_true. apply Hf. auto.
  - unfold navigation_manager.should_abort. rewrite Hnew.
    apply bool_decide_eq_false. intros Hin. apply Hf in Hin as [Hin | [Hin | Hin]].
    + apply (store_ok_prop w _ Hok) in Hin. lia.
    + unfold store_ok in Hok. apply andb_true_iff in Hok as [_ Hok].
      rewrite Hctl in Hok. apply Nat.ltb_lt in Hok. lia.
    + apply (active_signal_below w _ Hwf) in Hin. lia.
  - intros ctx_id ctx ops Hin Hl.
    assert (Hset : _abort_signal ctx ∈ asyncio.fired (events w')).
    { apply Hf. right. right. exists ctx_id, ctx. auto. }
    split; apply bool_decide_eq_true; [exact Hset |].
    apply (grows_operations env ops w'). exact Hset.
Qed.

Lemma url_change_stops_active_contexts_witness :
  let w := after_first_navigation [do_never_return] in
  let w' := url_changed (py "https://x/c") w in
  asyncio.allocated (events w') = S (asyncio.allocated (events w)) /\
  navigation_manager._abort_controller (navigation w')
  = Some (asyncio.allocated (events w)) /\
  asyncio.is_set 1%nat (events w') = true /\
  navigation_manager.should_abort (navigation w') (events w') = false /\
  (forall e, e ∈ asyncio.fired (events w')
             <-> (e ∈ asyncio.fired (events w)) \/ e = 1%nat \/ active_signal w e) /\
  (forall ctx_id ctx ops,
      ctx_id ∈ _active_actions (manager w) ->
      contexts w !! ctx_id = Some ctx ->
      is_stopped ctx w' = true /\
      is_stopped ctx (fold_left (perform quiet_env) ops w') = true).
Proof.
  apply (url_change_stops_active_contexts quiet_env (py "https://x/c")
           (after_first_navigation [do_never_return]) 1%nat);
    vm_compute; reflexivity.
Defined.

Lemma wait_raises_iff_signal_first_witness :
  let w := after_first_navigation [do_never_return] in
  let ctx := {| url := py "https://x/b"; trigger_name := "unnamed";
                _abort_signal := 2; _cleanup_callbacks := [] |} in
  0 < 10000 /\
  (fst (wait navigation_at_50 ctx 10000 w) = raised ActionStoppedError <->
   exists k, Z.of_nat k < 10000 /\ set_after navigation_at_50 2 w k = true).
Proof.
  split; [lia |].
  exact (proj1 (wait_raises_iff_signal_first navigation_at_50
                  {| url := py "https://x/b"; trigger_name := "unnamed";
                     _abort_signal := 2; _cleanup_callbacks := [] |}
                  10000 (after_first_navigation [do_never_return]) ltac:(lia))).
Defined.


Example failing_action_is_cleaned_up :
  let result := _run_trigger quiet_env failing_trigger (py "https://x/b") fresh_world in
  fst result = completed returned /\
  callbacks_called (trace (snd result)) = [(0%nat, 1%nat); (0%nat, 2%nat)] /\
  _active_actions (manager (snd result)) = [].
Proof. vm_compute. repeat split. Qed.

Lemma run_trigger_swallows_and_cleans_up_witness :
  let u := py "https://x/b" in
  let ctx_id := fst (begin_trigger failing_trigger u fresh_world) in
  let w2 := snd (run_action quiet_env ctx_id failing_action
                   (snd (begin_trigger failing_trigger u fresh_world))) in
  exists w' ctx,
    _run_trigger quiet_env failing_trigger u fresh_world = (completed returned, w') /\
    contexts w2 !! ctx_id = Some ctx /\
    callbacks_called (trace w')
    = callbacks_called (trace w2)
      ++ ((fun cb => (ctx_id, callback_id cb)) <$> _cleanup_callbacks ctx) /\
    (ctx_id ∉ _active_actions (manager w')).
Proof.
  apply (run_trigger_swallows_and_cleans_up quiet_env failing_trigger
           (py "https://x/b") fresh_world (raised (Exception_ 1))).
  - reflexivity.
  - vm_compute. reflexivity.
  - reflexivity.
  - intros ctx H. vm_compute in H. injection H as <-. reflexivity.
Defined.


Example two_of_three_triggers_run :
  let w := world_with three_triggers in
  let result := _check_triggers quiet_env (py "https://x/checkout/1") w in
  fst result = completed returned /\
  map (fun '(ctx, t, u) => (ctx, name t)) (started (trace (snd result)))
  = [(0%nat, "checkout"%string); (1%nat, "always"%string)].
Proof. vm_compute. repeat split. Qed.


End PageTriggerFacts.

Module RetryFacts.
Import retry.

Lemma lookup_snoc_Some {A} (l : list A) (x y : A) (i : nat) :
  (l ++ [x]) !! i = Some y ->
  ((i < length l)%nat /\ l !! i = Some y) \/ (i = length l /\ y = x).
Proof.
  intros H. apply lookup_app_Some in H as [H | [Hge H]].
  - left. split; [eapply lookup_lt_Some; eauto | exact H].
  - right. destruct (i - length l)%nat as [| k] eqn:E; simpl in H.
    + injection H as <-. split; [lia | reflexivity].
    + destruct k; discriminate.
Qed.

Section Generic.

Context {R : Type}.
Variables (is_verified is_navigation_error : R -> bool) (attempts_of : R -> nat).
Variables (on_verified on_navigation_error on_timeout : R -> nat -> R).
Variable verify_fn : nat -> Z -> awaited R.
Variables (timeout retry_interval start_time : Z).

Hypothesis interval_positive : 0 < retry_interval.
Hypothesis attempts_on_verified : forall x n, attempts_of (on_verified x n) = n.
Hypothesis attempts_on_navigation_error :
  forall x n, attempts_of (on_navigation_error x n) = n.
Hypothesis attempts_on_timeout : forall x n, attempts_of (on_timeout x n) = n.
Hypothesis flags_on_verified : forall x n,
  is_verified x = true ->
  is_verified (on_verified x n) = true /\ is_navigation_error (on_verified x n) = false.
Hypothesis flags_on_navigation_error : forall x n,
  is_verified x = false ->
  is_verified (on_navigation_error x n) = false /\
  is_navigation_error (on_navigation_error x n) = true.
Hypothesis flags_on_timeout : forall x n,
  is_verified x = false ->
  is_verified (on_timeout x n) = false /\ is_navigation_error (on_timeout x n) = false.

Local Abbreviation undecided_so_far :=
  (retry.undecided_so_far is_verified is_navigation_error verify_fn
     timeout retry_interval start_time).

(** Returning right after a call that decided. *)
Lemma contract_return_now calls clock out :
  undecided_so_far calls ->
  clock = start_time + Z.of_nat (length calls) * retry_interval ->
  clock - start_time < timeout ->
  (forall result, out = value result -> attempts_of result = S (length calls)) ->
  match verify_fn (length calls) clock with
  | exception_raised => out = exception_raised
  | value result =>
      if is_verified result then
        exists reported, out = value reported /\ is_verified reported = true /\
                         is_navigation_error reported = false
      else if is_navigation_error result then
        exists reported, out = value reported /\ is_verified reported = false /\
                         is_navigation_error reported = true
      else False
  end ->
  contract is_verified is_navigation_error attempts_of verify_fn
    timeout retry_interval start_time (Some (out, clock, calls ++ [clock])).
Proof.
  intros Hist Hclock Hlt Hatt Hdec.
  exists out, clock, (calls ++ [clock]). split; [reflexivity |].
  split; [lia |]. split; [| split; [| split; [| split]]].
  - intros result E. rewrite (Hatt result E), length_app. simpl. lia.
  - intros i t Hl. apply lookup_snoc_Some in Hl as [[_ Hl] | [-> ->]].
    + destruct (Hist i t Hl) as (H1 & H2 & _). auto.
    + split; [exact Hclock | exact Hlt].
  - intros i t Hl Hi. rewrite length_app in Hi. simpl in Hi.
    apply lookup_snoc_Some in Hl as [[_ Hl] | [-> _]]; [| lia].
    destruct (Hist i t Hl) as (_ & _ & H3). exact H3.
  - intros t Hl. rewrite length_app in *. simpl in *.
    replace (length calls + 1 - 1)%nat with (length calls) in * by lia.
    apply lookup_snoc_Some in Hl as [[Hi _] | [_ ->]]; [lia |].
    destruct (verify_fn (length calls) clock) as [result |]; [| auto].
    destruct (is_verified result); [auto |].
    destruct (is_navigation_error result); [auto | contradiction].
  - intros E. destruct calls; discriminate.
Qed.

Lemma retry_loop_contract fuel : forall clock attempts last_result calls,
  attempts = length calls ->
  clock = start_time + Z.of_nat (length calls) * retry_interval ->
  is_verified last_result = false ->
  timeout - (clock - start_time) <= retry_interval * (Z.of_nat fuel - 1) ->
  (1 <= fuel)%nat ->
  undecided_so_far calls ->
  contract is_verified is_navigation_error attempts_of verify_fn
    timeout retry_interval start_time
    (retry_loop is_verified is_navigation_error on_verified on_navigation_error
       on_timeout verify_fn timeout retry_interval start_time
       fuel clock attempts last_result calls).
Proof.
  induction fuel as [| fuel IH];
    intros clock attempts last_result calls Hatt Hclock Hlast Hfuel Hone Hist; [lia |].
  simpl. destruct (clock - start_time <? timeout) eqn:Ec.
  - apply Z.ltb_lt in Ec.
    destruct (verify_fn (length calls) clock) as [result |] eqn:Ef.
    + destruct (is_verified result) eqn:Ev; [| destruct (is_navigation_error result) eqn:En].
      * apply contract_return_now; auto.
        -- intros res [= <-]. rewrite attempts_on_verified. lia.
        -- rewrite Ef, Ev. eexists. split; [reflexivity |].
           apply flags_on_verified. exact Ev.
      * apply contract_return_now; auto.
        -- intros res [= <-]. rewrite attempts_on_navigation_error. lia.
        -- rewrite Ef, Ev, En. eexists. split; [reflexivity |].
           apply flags_on_navigation_error. exact Ev.
      * apply IH.
        -- rewrite length_app. simpl. lia.
        -- rewrite length_app. simpl. lia.
        -- exact Ev.
        -- nia.
        -- nia.
        -- intros i t Hl. apply lookup_snoc_Some in Hl as [[_ Hl] | [-> ->]].
           ++ exact (Hist i t Hl).
           ++ split; [exact Hclock |]. split; [exact Ec |]. eauto.
    + apply contract_return_now; auto.
      * intros res E. discriminate.
      * rewrite Ef. reflexivity.
  - apply Z.ltb_ge in Ec.
    exists (value (on_timeout last_result attempts)), clock, calls.
    split; [reflexivity |].
    assert (Hreported : exists reported,
               value (on_timeout last_result attempts) = value reported /\
               is_verified reported = false /\ is_navigation_error reported = false).
    { eexists. split; [reflexivity |]. apply flags_on_timeout. exact Hlast. }
    split; [| split; [| split; [| split; [| split]]]].
    + destruct calls as [| c calls].
      * simpl in Hclock. lia.
      * destruct (lookup_lt_is_Some_2 (c :: calls) (length calls)) as [t Hl];
          [simpl; lia |].
        destruct (Hist (length calls) t Hl) as (H1 & H2 & _).
        simpl length in Hclock. lia.
    + intros res [= <-]. rewrite attempts_on_timeout. exact Hatt.
    + intros i t Hl. destruct (Hist i t Hl) as (H1 & H2 & _). auto.
    + intros i t Hl _. destruct (Hist i t Hl) as (_ & _ & H3). exact H3.
    + intros t Hl. destruct (Hist _ t Hl) as (H1 & H2 & result & Hf & Hv & Hn).
      rewrite Hf, Hv, Hn.
      assert (1 <= length calls)%nat.
      { apply lookup_lt_Some in Hl. lia. }
      split; [| split; [| exact Hreported]]; nia.
    + intros ->. simpl in Hclock. split; [lia |]. split; [lia |].
      destruct Hreported as (rep & E & Hv & _). eauto.
Qed.

Lemma enough_fuel_is_enough :
  timeout - 0 <= retry_interval * (Z.of_nat (enough_fuel timeout retry_interval) - 1) /\
  (1 <= enough_fuel timeout retry_interval)%nat.
Proof.
  unfold enough_fuel. rewrite Z.max_r by lia. split; [| lia].
  destruct (Z.le_gt_cases 0 timeout) as [Hpos | Hneg].
  - pose proof (Z.mul_succ_div_gt timeout retry_interval interval_positive).
    pose proof (Z.div_pos timeout retry_interval Hpos interval_positive). nia.
  - nia.
Qed.

End Generic.

End RetryFacts.

Module VerifyFacts.
Import retry.


(** The loop of [verify_fill] is the generic algorithm. *)
Lemma verify_fill_loop_generic verify_fn timeout retry_interval start_time fuel :
  forall clock attempts last_result calls,
    fill.verify_fill_loop fuel verify_fn timeout retry_interval start_time
      clock attempts last_result calls
    = retry_loop fill.verified fill.navigation_error
        fill.fill_on_verified fill.fill_on_navigation_error fill.fill_on_timeout
        verify_fn timeout retry_interval start_time fuel clock attempts last_result calls.
Proof.
  induction fuel as [| fuel IH]; intros clock attempts last_result calls; simpl;
    [reflexivity |].
  destruct (clock - start_time <? timeout); [| reflexivity].
  destruct (verify_fn (length calls) clock) as [result |]; [| reflexivity].
  destruct (fill.verified result); [reflexivity |].
  destruct (fill.navigation_error result); [reflexivity | apply IH].
Qed.

(** So is the loop of [verify_navigation]. *)
Lemma verify_navigation_loop_generic verify_fn timeout retry_interval start_time fuel :
  forall clock attempts last_result calls,
    navigation.verify_navigation_loop fuel verify_fn timeout retry_interval start_time
      clock attempts last_result calls
    = retry_loop navigation.verified navigation.navigation_error
        navigation.navigation_on_verified navigation.navigation_on_navigation_error navigation.navigation_on_verified
        verify_fn timeout retry_interval start_time fuel clock attempts last_result calls.
Proof.
  induction fuel as [| fuel IH]; intros clock attempts last_result calls; simpl;
    [reflexivity |].
  destruct (clock - start_time <? timeout); [| reflexivity].
  destruct (verify_fn (length calls) clock) as [result |]; [| reflexivity].
  destruct (navigation.verified result) eqn:Ev;
    [unfold navigation.navigation_on_verified; rewrite Ev; reflexivity |].
  destruct (navigation.navigation_error result);
    [unfold navigation.navigation_on_navigation_error; rewrite Ev; reflexivity | apply IH].
Qed.



Example fill_verified_on_third_call :
  fill.verify_fill fill.filled_on_third_call None None 0
  = Some (value {| fill.verified := true; fill.actual_value := py "hello";
                   fill.navigation_error := false; fill.attempts := 3 |},
          200, [0; 100; 200]).
Proof. vm_compute. reflexivity. Qed.

Example navigation_gone_on_second_call :
  navigation.verify_navigation navigation.gone_on_second_call (Some 1000) (Some 250) 0
  = Some (value {| navigation.verified := false; navigation.actual_url := [];
                   navigation.reason := py "error during verification";
                   navigation.navigation_error := true; navigation.attempts := 2 |},
          250, [0; 250]).
Proof. vm_compute. reflexivity. Qed.

Example fill_never_verified :
  fill.verify_fill (fun _ _ => value {| fill.verified := false; fill.actual_value := [];
                                        fill.navigation_error := false;
                                        fill.attempts := 0 |})
                   (Some 250) (Some 100) 0
  = Some (value {| fill.verified := false; fill.actual_value := [];
                   fill.navigation_error := false; fill.attempts := 3 |},
          300, [0; 100; 200]).
Proof. vm_compute. reflexivity. Qed.

(** C4. With a positive retry interval and verification calls that take
    no time, [verify_fill] and [verify_navigation] both return no later than
    [timeout + retry_interval] after they were called; they stop at the
    first call of the verification function whose result is verified or a
    navigation error and report it at the time of that call; and the
    attempt count they report is the number of calls of the verification
    function they made. *)
Theorem verify_loops_meet_contract
    (fill_fn : nat -> Z -> awaited fill.FillVerificationResult)
    (navigation_fn : nat -> Z -> awaited navigation.NavigationVerificationResult)
    (timeout retry_interval : option Z) (clock : Z) :
  0 < default constants.VERIFICATION_RETRY_INTERVAL retry_interval ->
  contract fill.verified fill.navigation_error fill.attempts fill_fn
    (default constants.VERIFICATION_TIMEOUT timeout)
    (default constants.VERIFICATION_RETRY_INTERVAL retry_interval) clock
    (fill.verify_fill fill_fn timeout retry_interval clock) /\
  contract navigation.verified navigation.navigation_error navigation.attempts
    navigation_fn
    (default constants.VERIFICATION_TIMEOUT timeout)
    (default constants.VERIFICATION_RETRY_INTERVAL retry_interval) clock
    (navigation.verify_navigation navigation_fn timeout retry_interval clock).
Proof.
  intros Hpos.
  set (t := default constants.VERIFICATION_TIMEOUT timeout) in *.
  set (r := default constants.VERIFICATION_RETRY_INTERVAL retry_interval) in *.
  destruct (RetryFacts.enough_fuel_is_enough t r Hpos) as [Hfuel Hone].
  split.
  - unfold fill.verify_fill. fold t r. rewrite verify_fill_loop_generic.
    apply RetryFacts.retry_loop_contract;
      first [ exact Hpos | exact Hone | reflexivity
            | (intros x n; reflexivity)
            | (intros x n Hx; split; first [reflexivity | exact Hx])
            | (intros i z Hl; discriminate)
            | (simpl; lia) ].
  - unfold navigation.verify_navigation. fold t r. rewrite verify_navigation_loop_generic.
    apply RetryFacts.retry_loop_contract;
      first [ exact Hpos | exact Hone | reflexivity
            | (intros x n; reflexivity)
            | (intros x n Hx; split; first [reflexivity | exact Hx])
            | (intros i z Hl; discriminate)
            | (simpl; lia) ].
Qed.

Lemma verify_loops_meet_contract_witness :
  0 < 100 /\
  contract fill.verified fill.navigation_error fill.attempts fill.filled_on_third_call
    3000 100 0 (fill.verify_fill fill.filled_on_third_call (Some 3000) (Some 100) 0) /\
  contract navigation.verified navigation.navigation_error navigation.attempts
    navigation.gone_on_second_call 3000 100 0
    (navigation.verify_navigation navigation.gone_on_second_call (Some 3000) (Some 100) 0).
Proof.
  split; [lia |].
  apply (verify_loops_meet_contract fill.filled_on_third_call navigation.gone_on_second_call
           (Some 3000) (Some 100) 0).
  simpl. lia.
Defined.

End VerifyFacts.

Module NetworkTrackerLaws.
Import network_tracker.

(** ** Properties kept by every operation *)

Section Kept.

Variable P : NetworkTracker -> Prop.

Hypothesis P_deliver : forall now self ev, P self -> P (deliver now self ev).
Hypothesis P_forget : forall self key, P self ->
  P (set_requests self (delete key (_pending_requests self))
                       (delete key (_request_start_times self))).

Lemma kept_by_purge now self : P self -> P (purge_timed_out now self).
Proof.
  intros H. unfold purge_timed_out.
  induction (map_to_list (_request_start_times self)) as [| [key start] l IH];
    simpl; [exact H |].
  destruct (_ >? _); [apply P_forget |]; exact IH.
Qed.

Lemma kept_by_events now evs : forall self,
  P self -> P (fold_left (deliver now) evs self).
Proof.
  induction evs as [| ev evs IH]; intros self H; simpl; [exact H |].
  apply IH, P_deliver, H.
Qed.

Lemma kept_by_run_ticks env n : forall clock self,
  P self -> P (run_ticks env n clock self).
Proof.
  induction n as [| n IH]; intros clock self H; simpl; [exact H |].
  apply IH, kept_by_events, H.
Qed.

Lemma kept_by_poll env timeout idle start nav_id fuel : forall clock self r clock' self',
  P self ->
  poll fuel env timeout idle start nav_id clock self = Some (r, clock', self') ->
  P self'.
Proof.
  induction fuel as [| fuel IH]; intros clock self r clock' self' H E; [discriminate |].
  cbn [poll] in E.
  destruct (clock - start >=? timeout); [injection E as <- <- <-; exact H |].
  destruct (negb _); [injection E as <- <- <-; exact H |].
  unfold sleep in E.
  destruct (Nat.eqb (get_pending_count (purge_timed_out clock self)) 0).
  - destruct (Nat.eqb _ 0 && _)%bool.
    + injection E as <- <- <-. apply kept_by_run_ticks, kept_by_purge, H.
    + eapply IH; [| exact E]. do 2 apply kept_by_run_ticks. apply kept_by_purge, H.
  - eapply IH; [| exact E]. apply kept_by_run_ticks, kept_by_purge, H.
Qed.

Lemma kept_by_wait env clock self timeout idle_time r clock' self' :
  P self ->
  wait_for_network_idle env clock self timeout idle_time = Some (r, clock', self') ->
  P self'.
Proof.
  intros H E. unfold wait_for_network_idle, sleep in E.
  destruct (Nat.eqb (get_pending_count self) 0).
  - destruct (Nat.eqb _ 0 && _)%bool.
    + injection E as <- <- <-. apply kept_by_run_ticks, H.
    + eapply kept_by_poll; [| exact E]. apply kept_by_run_ticks, H.
  - eapply kept_by_poll; [| exact E]. exact H.
Qed.

Hypothesis P_start : forall self, P self -> P (start_tracking self).
Hypothesis P_stop : forall self, P self -> P (stop_tracking self).
Hypothesis P_on : forall self event callback, P self -> P (on self event callback).
Hypothesis P_off : forall self event callback, P self -> P (off self event callback).

Lemma kept_by_perform self op : P self -> P (perform self op).
Proof.
  intros H. destruct op; simpl; auto.
  destruct (wait_for_network_idle env clock self timeout idle_time)
    as [[[r c'] s'] |] eqn:E; [| exact H].
  eapply kept_by_wait; eauto.
Qed.

Lemma kept_by_operations ops : forall self,
  P self -> P (fold_left perform ops self).
Proof.
  induction ops as [| op ops IH]; intros self H; simpl; [exact H |].
  apply IH, kept_by_perform, H.
Qed.

End Kept.

(** ** The tables of a tracker *)

Lemma consistent_forget self key :
  consistent self ->
  consistent (set_requests self (delete key (_pending_requests self))
                                (delete key (_request_start_times self))).
Proof.
  intros (Ht & Hi & Hn). split; [| split]; [| | exact Hn].
  - unfold tables_agree in *. simpl. rewrite !dom_delete_L, Ht. reflexivity.
  - intros k r. simpl. intros [_ Hl]%lookup_delete_Some. exact (Hi k r Hl).
Qed.

Lemma consistent_cleared self tracking nav handlers :
  consistent self ->
  consistent (set_requests (set_tracking self tracking nav handlers) ∅ ∅).
Proof.
  intros (Ht & Hi & Hn). split; [| split]; [| | exact Hn].
  - unfold tables_agree. simpl. rewrite !dom_empty_L. reflexivity.
  - intros k r. simpl. rewrite lookup_empty. discriminate.
Qed.

Lemma consistent_on_request now self r :
  consistent self -> consistent (fst (_on_request now self r)).
Proof.
  intros (Ht & Hi & Hn). unfold _on_request.
  destruct (_ || _)%bool eqn:Einline; [repeat split; assumption |].
  simpl. rewrite Hn. simpl. split; [| split]; [| | exact Hn].
  - unfold tables_agree in *. simpl. rewrite !dom_insert_L, Ht. reflexivity.
  - intros k r'. simpl. intros [[_ <-] | [_ Hl]]%lookup_insert_Some.
    + exact Einline.
    + exact (Hi k r' Hl).
Qed.

Lemma consistent_on_request_end self r :
  consistent self -> consistent (fst (_on_request_end self r)).
Proof.
  intros H. unfold _on_request_end.
  destruct (_ !! _); [| exact H]. simpl. apply consistent_forget, H.
Qed.

Lemma consistent_deliver now self ev :
  consistent self -> consistent (deliver now self ev).
Proof.
  intros H. destruct ev; simpl.
  - destruct (page_handlers self); [apply consistent_on_request |]; exact H.
  - destruct (page_handlers self); [apply consistent_on_request_end |]; exact H.
  - destruct (page_handlers self); [apply consistent_on_request_end |]; exact H.
  - apply consistent_cleared, H.
Qed.

Lemma consistent_start self : consistent self -> consistent (start_tracking self).
Proof.
  intros H. unfold start_tracking. destruct (_is_tracking self); [exact H |].
  apply consistent_cleared, H.
Qed.

Lemma consistent_stop self : consistent self -> consistent (stop_tracking self).
Proof.
  intros H. unfold stop_tracking. destruct (negb _); [exact H |].
  apply consistent_cleared, H.
Qed.

Lemma consistent_on self event callback :
  consistent self -> consistent (on self event callback).
Proof.
  intros H. unfold on.
  repeat (destruct (String.eqb event _); [exact H |]). exact H.
Qed.

Lemma consistent_off self event callback :
  consistent self -> consistent (off self event callback).
Proof.
  intros H. unfold off.
  repeat (destruct (String.eqb event _); [exact H |]). exact H.
Qed.

(** Whatever is done to a tracker from its creation on, the two tables hold
    the same keys, no [data:] or [blob:] request is pending, and the idle
    timer is unset: the guards [if key in self._request_start_times] of
    [_on_request_end] and [if key in self._pending_requests] of the sweep
    always succeed, and the branch of [_on_request] that cancels the timer
    is never taken. *)
Theorem reachable_tracker_is_consistent
    (e : EngineType) (idle request : Z) (ops : list Operation) :
  let self := fold_left perform ops (__init__ e idle request) in
  dom (_pending_requests self) = dom (_request_start_times self) /\
  (forall key r, _pending_requests self !! key = Some r ->
                 String.prefix "data:" (request_url self r) = false /\
                 String.prefix "blob:" (request_url self r) = false) /\
  _idle_timer self = None.
Proof.
  intros self.
  assert (H : consistent self).
  { apply kept_by_operations.
    - apply consistent_deliver.
    - apply consistent_forget.
    - apply consistent_start.
    - apply consistent_stop.
    - apply consistent_on.
    - apply consistent_off.
    - split; [| split]; [reflexivity | | reflexivity].
      intros k r. simpl. rewrite lookup_empty. discriminate. }
  destruct H as (Ht & Hi & Hn). split; [exact Ht |]. split; [| exact Hn].
  intros key r Hl. apply orb_false_iff. exact (Hi key r Hl).
Qed.

(** ** The Selenium engine *)

Lemma detached_deliver now self ev : detached self -> detached (deliver now self ev).
Proof.
  intros (He & Hh & Hp). destruct ev; simpl; rewrite ?Hh; repeat split; assumption.
Qed.

Lemma detached_forget self key :
  detached self ->
  detached (set_requests self (delete key (_pending_requests self))
                              (delete key (_request_start_times self))).
Proof.
  intros (He & Hh & Hp). repeat split; simpl; try assumption.
  rewrite Hp. apply delete_empty.
Qed.

Lemma detached_start self : detached self -> detached (start_tracking self).
Proof.
  intros (He & Hh & Hp). unfold start_tracking.
  destruct (_is_tracking self); [repeat split; assumption |].
  repeat split; simpl; try assumption. rewrite He. exact Hh.
Qed.

Lemma detached_stop self : detached self -> detached (stop_tracking self).
Proof.
  intros (He & Hh & Hp). unfold stop_tracking.
  destruct (negb _); [repeat split; assumption |].
  repeat split; simpl; try assumption. rewrite He. exact Hh.
Qed.

Lemma detached_on self event callback : detached self -> detached (on self event callback).
Proof.
  intros H. unfold on. repeat (destruct (String.eqb event _); [exact H |]). exact H.
Qed.

Lemma detached_off self event callback : detached self -> detached (off self event callback).
Proof.
  intros H. unfold off. repeat (destruct (String.eqb event _); [exact H |]). exact H.
Qed.

(** With the Selenium engine [start_tracking] registers no page handler, so
    no request ever becomes pending, whatever the page does. *)
Theorem selenium_tracker_never_pending
    (idle request : Z) (ops : list Operation) :
  get_pending_count (fold_left perform ops (__init__ selenium idle request)) = 0%nat.
Proof.
  assert (H : detached (fold_left perform ops (__init__ selenium idle request))).
  { apply kept_by_operations.
    - apply detached_deliver.
    - apply detached_forget.
    - apply detached_start.
    - apply detached_stop.
    - apply detached_on.
    - apply detached_off.
    - repeat split. }
  destruct H as (_ & _ & Hp). unfold get_pending_count. rewrite Hp. reflexivity.
Qed.

(** ** Handlers and tracking *)

Lemma wired_deliver now self ev : wired self -> wired (deliver now self ev).
Proof.
  intros W. pose proof W as (Hh & Hp).
  assert (Hoff : page_handlers self = true -> _is_tracking self = false -> False).
  { intros E Ht. rewrite E, Ht in Hh. discriminate. }
  destruct ev; simpl.
  - destruct (page_handlers self) eqn:E; [| exact W].
    unfold _on_request. destruct (_ || _)%bool; [exact W |].
    simpl. destruct (_idle_timer self); simpl;
      (split; [exact (proj1 W) | intros Ht; destruct (Hoff eq_refl Ht)]).
  - destruct (page_handlers self) eqn:E; [| exact W].
    unfold _on_request_end. destruct (_ !! _); [| exact W].
    simpl. split; [exact (proj1 W) | intros Ht; destruct (Hoff eq_refl Ht)].
  - destruct (page_handlers self) eqn:E; [| exact W].
    unfold _on_request_end. destruct (_ !! _); [| exact W].
    simpl. split; [exact (proj1 W) | intros Ht; destruct (Hoff eq_refl Ht)].
  - split; [exact Hh | reflexivity].
Qed.

Lemma wired_forget self key :
  wired self ->
  wired (set_requests self (delete key (_pending_requests self))
                           (delete key (_request_start_times self))).
Proof.
  intros (Hh & Hp). split; [exact Hh |]. simpl. intros Ht.
  rewrite (Hp Ht). apply delete_empty.
Qed.

Lemma wired_start self : wired self -> wired (start_tracking self).
Proof.
  intros W. pose proof W as (Hh & Hp). unfold start_tracking.
  destruct (_is_tracking self) eqn:Et; [exact W |].
  split; [| discriminate]. simpl.
  destruct (engine self); simpl in *; [reflexivity | exact Hh].
Qed.

Lemma wired_stop self : wired self -> wired (stop_tracking self).
Proof.
  intros W. pose proof W as (Hh & Hp). unfold stop_tracking.
  destruct (_is_tracking self) eqn:Et; simpl; [| exact W].
  split; [| reflexivity]. simpl.
  destruct (engine self); simpl in *; [reflexivity | exact Hh].
Qed.

Lemma wired_on self event callback : wired self -> wired (on self event callback).
Proof.
  intros H. unfold on. repeat (destruct (String.eqb event _); [exact H |]). exact H.
Qed.

Lemma wired_off self event callback : wired self -> wired (off self event callback).
Proof.
  intros H. unfold off. repeat (destruct (String.eqb event _); [exact H |]). exact H.
Qed.

(** Whatever is done to a tracker from its creation on, the page has its
    handlers exactly while it is tracking with the Playwright engine, and
    while it is not tracking nothing is pending. *)
Theorem reachable_handlers_follow_tracking
    (e : EngineType) (idle request : Z) (ops : list Operation) :
  let self := fold_left perform ops (__init__ e idle request) in
  page_handlers self = (_is_tracking self && is_playwright (engine self))%bool /\
  (_is_tracking self = false -> get_pending_count self = 0%nat).
Proof.
  intros self.
  assert (H : wired self).
  { apply kept_by_operations.
    - apply wired_deliver.
    - apply wired_forget.
    - apply wired_start.
    - apply wired_stop.
    - apply wired_on.
    - apply wired_off.
    - split; reflexivity. }
  destruct H as (Hh & Hp). split; [exact Hh |].
  intros Ht. unfold get_pending_count. rewrite (Hp Ht). reflexivity.
Qed.

(** ** One request *)

(** A request that starts and ends while its key is not pending leaves the
    tracker as it was. *)
Theorem request_round_trip (now : Z) (self : NetworkTracker) (request : Request) :
  dom (_pending_requests self) = dom (_request_start_times self) ->
  _idle_timer self = None ->
  _pending_requests self !! _get_request_key self request = None ->
  fst (_on_request_end (fst (_on_request now self request)) request) = self.
Proof.
  intros Ht Hn Hp.
  assert (Hs : _request_start_times self !! _get_request_key self request = None).
  { apply not_elem_of_dom. rewrite <- Ht. apply not_elem_of_dom, Hp. }
  unfold _on_request.
  destruct (_ || _)%bool.
  - simpl. unfold _on_request_end. rewrite Hp. reflexivity.
  - simpl. rewrite Hn. simpl. unfold _on_request_end.
    change (_get_request_key (set_requests self _ _) request)
      with (_get_request_key self request).
    simpl. rewrite lookup_insert_eq. simpl.
    rewrite !delete_insert_id by assumption.
    destruct self; reflexivity.
Qed.

Lemma request_round_trip_witness :
  let self := listening_tracker in
  dom (_pending_requests self) = dom (_request_start_times self) /\
  _idle_timer self = None /\
  _pending_requests self !! _get_request_key self (req "GET" "/a") = None /\
  fst (_on_request_end (fst (_on_request 7 self (req "GET" "/a"))) (req "GET" "/a")) = self.
Proof.
  assert (H1 : dom (_pending_requests listening_tracker)
               = dom (_request_start_times listening_tracker)) by reflexivity.
  assert (H2 : _idle_timer listening_tracker = None) by reflexivity.
  assert (H3 : _pending_requests listening_tracker
                 !! _get_request_key listening_tracker (req "GET" "/a") = None)
    by reflexivity.
  exact (conj H1 (conj H2 (conj H3
           (request_round_trip 7 listening_tracker (req "GET" "/a") H1 H2 H3)))).
Defined.

(** Requests are keyed by method and URL.  A request whose key is already
    pending is not counted a second time, it only restarts the clock of the
    key; and the first completion with that key removes it, whichever
    request it belongs to. *)
Theorem request_with_pending_key_is_not_counted
    (now : Z) (self : NetworkTracker) (request earlier : Request) :
  _pending_requests self !! _get_request_key self request = Some earlier ->
  inline_url (request_url self request) = false ->
  let key := _get_request_key self request in
  let self1 := fst (_on_request now self request) in
  let self2 := fst (_on_request_end self1 request) in
  get_pending_count self1 = get_pending_count self /\
  _request_start_times self1 !! key = Some now /\
  _pending_requests self2 !! key = None /\
  get_pending_count self2 = pred (get_pending_count self).
Proof.
  intros Hp Hi key self1 self2. subst self2 self1 key. unfold _on_request.
  unfold inline_url in Hi. rewrite Hi.
  unfold _on_request_end, get_pending_count, _get_request_key in *.
  simpl. destruct (_idle_timer self); simpl; rewrite !lookup_insert_eq; simpl;
    rewrite lookup_delete_eq, map_size_delete, lookup_insert_eq,
      map_size_insert, Hp; repeat split; reflexivity.
Qed.

Lemma request_with_pending_key_is_not_counted_witness :
  let self := fst (_on_request 0 listening_tracker (req "GET" "/a")) in
  let self1 := fst (_on_request 5 self (req "GET" "/a")) in
  let self2 := fst (_on_request_end self1 (req "GET" "/a")) in
  _pending_requests self !! _get_request_key self (req "GET" "/a")
    = Some (req "GET" "/a") /\
  inline_url (request_url self (req "GET" "/a")) = false /\
  get_pending_count self1 = get_pending_count self /\
  _request_start_times self1 !! _get_request_key self (req "GET" "/a") = Some 5 /\
  _pending_requests self2 !! _get_request_key self (req "GET" "/a") = None /\
  get_pending_count self2 = pred (get_pending_count self).
Proof.
  assert (H1 : _pending_requests (fst (_on_request 0 listening_tracker (req "GET" "/a")))
                 !! _get_request_key (fst (_on_request 0 listening_tracker (req "GET" "/a")))
                      (req "GET" "/a") = Some (req "GET" "/a")) by reflexivity.
  assert (H2 : inline_url (request_url (fst (_on_request 0 listening_tracker (req "GET" "/a")))
                 (req "GET" "/a")) = false) by reflexivity.
  exact (conj H1 (conj H2
    (request_with_pending_key_is_not_counted 5
       (fst (_on_request 0 listening_tracker (req "GET" "/a")))
       (req "GET" "/a") (req "GET" "/a") H1 H2))).
Defined.

(** ** The stale-request sweep *)

Lemma purge_fold_spec now self (l : list (string * Z)) :
  let acc := foldr (purge_step now) self l in
  request_timeout acc = request_timeout self /\
  set_requests self (_pending_requests acc) (_request_start_times acc) = acc /\
  (forall key st,
     _request_start_times acc !! key = Some st <->
     _request_start_times self !! key = Some st /\
     forall st', (key, st') ∈ l -> now - st' <= request_timeout self) /\
  (forall key r,
     _pending_requests acc !! key = Some r <->
     _pending_requests self !! key = Some r /\
     forall st', (key, st') ∈ l -> now - st' <= request_timeout self).
Proof.
  induction l as [| [k0 s0] l IH]; simpl.
  - split; [reflexivity |]. split; [destruct self; reflexivity |].
    split; intros key x; (split; [intros H; split; [exact H |] | intros [H _]; exact H]);
      intros st' Hin; inversion Hin.
  - destruct IH as (Hrt & Hrest & Htimes & Hpending).
    set (acc := foldr (purge_step now) self l) in *.
    rewrite Hrt.
    destruct (now - s0 >? request_timeout self) eqn:E.
    + apply Z.gtb_lt in E. simpl.
      split; [exact Hrt |].
      split; [rewrite <- Hrest; reflexivity |].
      split; intros key x; rewrite lookup_delete_Some.
      * rewrite Htimes. split.
        -- intros (Hne & Hl & Hall). split; [exact Hl |].
           intros st' [Heq | Hin]%elem_of_cons; [congruence | auto].
        -- intros (Hl & Hall). split; [| split; [exact Hl |]].
           ++ intros <-. specialize (Hall s0 ltac:(left)). lia.
           ++ intros st' Hin. apply Hall. right. exact Hin.
      * rewrite Hpending. split.
        -- intros (Hne & Hl & Hall). split; [exact Hl |].
           intros st' [Heq | Hin]%elem_of_cons; [congruence | auto].
        -- intros (Hl & Hall). split; [| split; [exact Hl |]].
           ++ intros <-. specialize (Hall s0 ltac:(left)). lia.
           ++ intros st' Hin. apply Hall. right. exact Hin.
    + assert (now - s0 <= request_timeout self).
      { destruct (Z.gtb_spec (now - s0) (request_timeout self)); [discriminate | lia]. }
      split; [exact Hrt |]. split; [exact Hrest |].
      split; intros key x.
      * rewrite Htimes. split.
        -- intros (Hl & Hall). split; [exact Hl |].
           intros st' [Heq | Hin]%elem_of_cons; [| auto].
           injection Heq as -> ->. assumption.
        -- intros (Hl & Hall). split; [exact Hl |].
           intros st' Hin. apply Hall. right. exact Hin.
      * rewrite Hpending. split.
        -- intros (Hl & Hall). split; [exact Hl |].
           intros st' [Heq | Hin]%elem_of_cons; [| auto].
           injection Heq as -> ->. assumption.
        -- intros (Hl & Hall). split; [exact Hl |].
           intros st' Hin. apply Hall. right. exact Hin.
Qed.

Lemma purge_timed_out_fold now self :
  purge_timed_out now self
  = foldr (purge_step now) self (map_to_list (_request_start_times self)).
Proof.
  unfold purge_timed_out.
  induction (map_to_list (_request_start_times self)) as [| [key start] l IH];
    simpl; [reflexivity |].
  rewrite IH. reflexivity.
Qed.

(** The sweep drops exactly the keys whose request started more than
    [request_timeout] ms ago, from both tables, and touches nothing else: a
    request that started exactly [request_timeout] ms ago stays, and so
    does a pending request that has no start time. *)
Theorem purge_timed_out_spec (now : Z) (self : NetworkTracker) :
  let self' := purge_timed_out now self in
  (forall key st,
     _request_start_times self' !! key = Some st <->
     _request_start_times self !! key = Some st /\ now - st <= request_timeout self) /\
  (forall key r,
     _pending_requests self' !! key = Some r <->
     _pending_requests self !! key = Some r /\
     forall st, _request_start_times self !! key = Some st ->
                now - st <= request_timeout self) /\
  set_requests self (_pending_requests self') (_request_start_times self') = self'.
Proof.
  intros self'. subst self'. rewrite purge_timed_out_fold.
  destruct (purge_fold_spec now self (map_to_list (_request_start_times self)))
    as (_ & Hrest & Htimes & Hpending).
  split; [| split]; [| | exact Hrest].
  - intros key st. rewrite Htimes. split.
    + intros (Hl & Hall). split; [exact Hl |].
      apply Hall, elem_of_map_to_list, Hl.
    + intros (Hl & Hle). split; [exact Hl |].
      intros st' Hin%elem_of_map_to_list. congruence.
  - intros key r. rewrite Hpending. split.
    + intros (Hl & Hall). split; [exact Hl |].
      intros st Hs. apply Hall, elem_of_map_to_list, Hs.
    + intros (Hl & Hall). split; [exact Hl |].
      intros st' Hin%elem_of_map_to_list. auto.
Qed.

(** ** Listeners *)

Lemma list_remove_snoc x l : x ∉ l -> list_remove x (l ++ [x]) = l.
Proof.
  induction l as [| y l IH]; simpl; intros Hn.
  - rewrite Nat.eqb_refl. reflexivity.
  - apply not_elem_of_cons in Hn as [Hne Hn].
    destruct (Nat.eqb x y) eqn:E; [apply Nat.eqb_eq in E; congruence |].
    f_equal. apply IH, Hn.
Qed.

(** [off] undoes [on] for a callback that was not registered for the event
    before; for an event that is not one of the three, both do nothing. *)
Theorem off_undoes_on (self : NetworkTracker) (event : string) (callback : nat) :
  callback ∉ listeners_of self event ->
  off (on self event callback) event callback = self.
Proof.
  unfold listeners_of, on, off. intros H.
  destruct (String.eqb event "on_request_start").
  { simpl. rewrite list_remove_snoc by exact H. destruct self; reflexivity. }
  destruct (String.eqb event "on_request_end").
  { simpl. rewrite list_remove_snoc by exact H. destruct self; reflexivity. }
  destruct (String.eqb event "on_network_idle").
  { simpl. rewrite list_remove_snoc by exact H. destruct self; reflexivity. }
  reflexivity.
Qed.

Lemma off_undoes_on_witness :
  (4%nat ∉ listeners_of listening_tracker "on_request_end") /\
  off (on listening_tracker "on_request_end" 4%nat) "on_request_end" 4%nat
  = listening_tracker.
Proof.
  assert (H : 4%nat ∉ listeners_of listening_tracker "on_request_end").
  { simpl. apply not_elem_of_cons. split; [discriminate | apply not_elem_of_nil]. }
  exact (conj H (off_undoes_on listening_tracker "on_request_end" 4%nat H)).
Defined.

(** ** How long [wait_for_network_idle] takes *)

Lemma poll_deadline env timeout idle start nav_id fuel : forall clock self r clock' self',
  poll fuel env timeout idle start nav_id clock self = Some (r, clock', self') ->
  clock <= clock' /\
  clock' <= Z.max clock (start + timeout + Z.max 0 idle + 99).
Proof.
  induction fuel as [| fuel IH]; intros clock self r clock' self' E; [discriminate |].
  cbn [poll] in E.
  destruct (clock - start >=? timeout) eqn:Eto; [injection E as <- <- <-; lia |].
  rewrite Z.geb_leb in Eto. apply Z.leb_gt in Eto.
  destruct (negb _); [injection E as <- <- <-; lia |].
  unfold sleep in E.
  destruct (Nat.eqb (get_pending_count (purge_timed_out clock self)) 0).
  - destruct (Nat.eqb _ 0 && _)%bool.
    + injection E as <- <- <-. lia.
    + apply IH in E. lia.
  - apply IH in E. lia.
Qed.

(** The call returns no later than [idle_time + timeout + 99] ms after it
    was made (no later than [idle_time] ms for a timeout below -99): the
    timeout is looked at only when a poll begins, so a settle window and a
    poll interval that began just before it run to their end. *)
Theorem wait_for_network_idle_deadline
    (env : Z -> list Event) (clock : Z) (self : NetworkTracker)
    (timeout : Z) (idle_time : option Z) :
  let idle := default (idle_timeout self) idle_time in
  exists r clock' self',
    wait_for_network_idle env clock self timeout idle_time = Some (r, clock', self') /\
    clock <= clock' /\
    clock' <= clock + Z.max 0 idle + Z.max 0 (timeout + 99).
Proof.
  intros idle.
  destruct (NetworkTrackerFacts.wait_for_network_idle_returns
              env clock self timeout idle_time) as [[[r c'] s'] E].
  exists r, c', s'. split; [exact E |].
  unfold wait_for_network_idle, sleep in E. fold idle in E.
  destruct (Nat.eqb (get_pending_count self) 0).
  - destruct (Nat.eqb _ 0 && _)%bool.
    + injection E as <- <- <-. lia.
    + apply poll_deadline in E. lia.
  - apply poll_deadline in E. lia.
Qed.

(** ** A reset during the wait *)

Lemma nav_events_reset now evs : forall self,
  reset_called ∈ evs ->
  _navigation_id self < _navigation_id (fold_left (deliver now) evs self).
Proof.
  induction evs as [| ev evs IH]; intros self Hin; [inversion Hin |].
  simpl. apply elem_of_cons in Hin as [<- | Hin].
  - pose proof (NetworkTrackerFacts.nav_fold now evs (deliver now self reset_called)).
    simpl in *. lia.
  - pose proof (NetworkTrackerFacts.nav_deliver now self ev).
    specialize (IH (deliver now self ev) Hin). lia.
Qed.

Lemma nav_run_ticks_quiet env n : forall clock self,
  _navigation_id (run_ticks env n clock self) = _navigation_id self ->
  forall t, clock < t <= clock + Z.of_nat n -> reset_called ∉ env t.
Proof.
  induction n as [| n IH]; intros clock self Heq t Ht; [lia |].
  simpl in Heq.
  pose proof (NetworkTrackerFacts.nav_fold (clock + 1) (env (clock + 1)) self) as H1.
  pose proof (NetworkTrackerFacts.nav_run_ticks env n (clock + 1)
                (fold_left (deliver (clock + 1)) (env (clock + 1)) self)) as H2.
  destruct (Z.eq_dec t (clock + 1)) as [-> | Hne].
  - intros Hin. pose proof (nav_events_reset (clock + 1) _ self Hin). lia.
  - apply (IH (clock + 1) (fold_left (deliver (clock + 1)) (env (clock + 1)) self));
      lia.
Qed.

Lemma poll_true_quiet env timeout idle start nav_id fuel : forall clock self clock' self',
  poll fuel env timeout idle start nav_id clock self = Some (true, clock', self') ->
  _navigation_id self = nav_id /\
  forall t, clock < t <= clock' -> reset_called ∉ env t.
Proof.
  induction fuel as [| fuel IH]; intros clock self clock' self' E; [discriminate |].
  cbn [poll] in E.
  destruct (clock - start >=? timeout); [discriminate |].
  destruct (_navigation_id self =? nav_id) eqn:Enav; cbn [negb] in E; [| discriminate].
  apply Z.eqb_eq in Enav. split; [exact Enav |].
  unfold sleep in E.
  pose proof (NetworkTrackerFacts.nav_purge clock self) as Hpurge.
  set (self1 := purge_timed_out clock self) in *.
  pose proof (NetworkTrackerFacts.nav_run_ticks env (Z.to_nat idle) clock self1) as Hm1.
  destruct (Nat.eqb (get_pending_count self1) 0).
  - destruct (Nat.eqb _ 0 && _)%bool eqn:Ew.
    + injection E as <- <-. apply andb_true_iff in Ew as [_ Hn%Z.eqb_eq].
      intros t Ht. apply (nav_run_ticks_quiet env (Z.to_nat idle) clock self1); lia.
    + pose proof (NetworkTrackerFacts.nav_run_ticks env (Z.to_nat 100)
                    (clock + Z.max 0 idle) (run_ticks env (Z.to_nat idle) clock self1))
        as Hm2.
      apply IH in E as [Hn Hq]. intros t Ht.
      destruct (Z_le_gt_dec t (clock + Z.max 0 idle)) as [Hle | Hgt].
      * apply (nav_run_ticks_quiet env (Z.to_nat idle) clock self1); lia.
      * destruct (Z_le_gt_dec t (clock + Z.max 0 idle + Z.max 0 100)) as [Hle2 | Hgt2].
        -- apply (nav_run_ticks_quiet env (Z.to_nat 100) (clock + Z.max 0 idle)
                    (run_ticks env (Z.to_nat idle) clock self1)); lia.
        -- apply Hq. lia.
  - pose proof (NetworkTrackerFacts.nav_run_ticks env (Z.to_nat 100) clock self1) as Hm2.
    apply IH in E as [Hn Hq]. intros t Ht.
    destruct (Z_le_gt_dec t (clock + Z.max 0 100)) as [Hle | Hgt].
    + apply (nav_run_ticks_quiet env (Z.to_nat 100) clock self1); lia.
    + apply Hq. lia.
Qed.

(** The call returns true only if [reset()] was not called at any time
    between the call and the return, not only during the last settle
    window. *)
Theorem wait_true_means_no_reset
    (env : Z -> list Event) (clock : Z) (self : NetworkTracker)
    (timeout : Z) (idle_time : option Z) (clock' : Z) :
  fst <$> wait_for_network_idle env clock self timeout idle_time = Some (true, clock') ->
  forall t, clock < t <= clock' -> reset_called ∉ env t.
Proof.
  intros E.
  destruct (wait_for_network_idle env clock self timeout idle_time)
    as [[[r c'] s'] |] eqn:Ew; [| discriminate].
  simpl in E. injection E as -> ->.
  unfold wait_for_network_idle, sleep in Ew.
  set (idle := default (idle_timeout self) idle_time) in *.
  pose proof (NetworkTrackerFacts.nav_run_ticks env (Z.to_nat idle) clock self) as Hm.
  destruct (Nat.eqb (get_pending_count self) 0).
  - destruct (Nat.eqb _ 0 && _)%bool eqn:Ec.
    + injection Ew as <- <-. apply andb_true_iff in Ec as [_ Hn%Z.eqb_eq].
      intros t Ht. apply (nav_run_ticks_quiet env (Z.to_nat idle) clock self); lia.
    + apply poll_true_quiet in Ew as [Hn Hq]. intros t Ht.
      destruct (Z_le_gt_dec t (clock + Z.max 0 idle)) as [Hle | Hgt].
      * apply (nav_run_ticks_quiet env (Z.to_nat idle) clock self); lia.
      * apply Hq. lia.
  - apply poll_true_quiet in Ew as [_ Hq]. exact Hq.
Qed.

Lemma wait_true_means_no_reset_witness :
  fst <$> wait_for_network_idle brief_request 0 listening_tracker 5000 (Some 200)
    = Some (true, 200) /\
  forall t, 0 < t <= 200 -> reset_called ∉ brief_request t.
Proof.
  assert (H : fst <$> wait_for_network_idle brief_request 0 listening_tracker 5000
                        (Some 200) = Some (true, 200)) by (vm_compute; reflexivity).
  exact (conj H (wait_true_means_no_reset brief_request 0 listening_tracker 5000
                   (Some 200) 200 H)).
Defined.

End NetworkTrackerLaws.

Module NavigationManagerLaws.
Import navigation_manager.

(** ** [navigate] *)

Lemma wait_for_page_ready_returns env clock self current_url timeout :
  exists ready clock' self' calls,
    wait_for_page_ready env clock self current_url timeout
    = Some (ready, clock', self', calls) /\
    (calls = [] \/
     calls = map (fun fn => on_page_ready fn current_url) (_listeners_on_page_ready self)) /\
    _listeners_on_navigation_complete self' = _listeners_on_navigation_complete self.
Proof.
  unfold wait_for_page_ready.
  destruct (network_tracker self) as [tracker |].
  - destruct (_ >? 0).
    + destruct (NetworkTrackerFacts.wait_for_network_idle_returns
                  env clock tracker (timeout - (clock - clock)) None)
        as [[[idle c1] tr1] Hw].
      rewrite Hw. destruct idle; simpl; do 4 eexists; (split; [reflexivity |]); auto.
    + do 4 eexists. split; [reflexivity |]. auto.
  - do 4 eexists. split; [reflexivity |]. auto.
Qed.

(** [navigate] always comes to an end.  When the driver call returns, it
    returns True whatever [wait_for_page_ready] answered, at the time that
    call returned, with the navigating flag cleared and every
    [on_navigation_complete] listener called with the requested URL after
    the [on_page_ready] listeners, if those were called.  When the driver
    call raises an [Exception] the flag is cleared, no listener is called
    and the error is raised again; an error that is not an [Exception]
    leaves the flag set. *)
Theorem navigate_outcome
    (env : Z -> list network_tracker.Event) (clock : Z) (self : NavigationManager)
    (current_url url : str) (timeout : Z) (goto : Goto) :
  exists r clock' self' calls,
    navigate env clock self current_url url timeout goto = Some (r, clock', self', calls) /\
    match goto with
    | goto_returns duration =>
        r = navigate_returns true /\
        is_navigating self' = false /\
        (exists ready ready_self ready_calls,
           wait_for_page_ready env (clock + Z.max 0 duration)
             (advance env duration clock (set_navigating self true (network_tracker self)))
             current_url timeout
           = Some (ready, clock', ready_self, ready_calls) /\
           (ready_calls = [] \/
            ready_calls = map (fun fn => on_page_ready fn current_url)
                              (_listeners_on_page_ready self)) /\
           calls = ready_calls ++ map (fun fn => on_navigation_complete fn url)
                                      (_listeners_on_navigation_complete self))
    | goto_raises duration (driver_Exception tag) =>
        r = navigate_raises (driver_Exception tag) /\
        clock' = clock + Z.max 0 duration /\
        is_navigating self' = false /\ calls = []
    | goto_raises duration (driver_BaseException tag) =>
        r = navigate_raises (driver_BaseException tag) /\
        clock' = clock + Z.max 0 duration /\
        is_navigating self' = true /\ calls = []
    end.
Proof.
  unfold navigate. destruct goto as [duration | duration [tag | tag]].
  - destruct (wait_for_page_ready_returns env (clock + Z.max 0 duration)
                (advance env duration clock (set_navigating self true (network_tracker self)))
                current_url timeout)
      as (ready & c3 & s3 & cs & Hw & Hcalls & Hl).
    rewrite Hw. do 4 eexists. split; [reflexivity |].
    split; [reflexivity |]. split; [reflexivity |].
    exists ready, s3, cs. split; [reflexivity |]. split; [exact Hcalls |].
    rewrite Hl. reflexivity.
  - do 4 eexists. split; [reflexivity |]. repeat split.
  - do 4 eexists. split; [reflexivity |]. repeat split.
Qed.

(** With a request that never completes, the page is not ready within the
    300 ms allowed, and [navigate] returns True at that time all the
    same. *)
Example navigate_true_although_not_ready :
  answered
    (wait_for_page_ready (fun _ => []) 0
       (advance (fun _ => []) 0 0
          (set_navigating manager_with_stuck_request true
             (network_tracker manager_with_stuck_request)))
       (py "https://x/") 300)
  = Some (false, 300) /\
  answered
    (navigate (fun _ => []) 0 manager_with_stuck_request (py "https://x/")
       (py "https://x/") 300 (goto_returns 0))
  = Some (navigate_returns true, 300).
Proof. split; vm_compute; reflexivity. Qed.

(** ** [wait_for_navigation] *)

Lemma wait_for_navigation_loop_spec navigating_at timeout start fuel : forall clock,
  timeout - (clock - start) < 100 * (Z.of_nat fuel - 1) ->
  (1 <= fuel)%nat ->
  exists r (k : nat) clock',
    wait_for_navigation_loop fuel navigating_at timeout start clock = Some (r, clock') /\
    clock' = clock + 100 * Z.of_nat k /\
    (forall j : nat, (j < k)%nat ->
       navigating_at (clock + 100 * Z.of_nat j) = true /\
       clock + 100 * Z.of_nat j - start <= timeout) /\
    (r = true -> navigating_at clock' = false) /\
    (r = false -> navigating_at clock' = true /\ timeout < clock' - start).
Proof.
  induction fuel as [| fuel IH]; intros clock Hfuel Hone; [lia |].
  simpl. destruct (navigating_at clock) eqn:En.
  - destruct (clock - start >? timeout) eqn:Et.
    + apply Z.gtb_lt in Et.
      exists false, 0%nat, clock. split; [reflexivity |]. split; [lia |].
      split; [intros j Hj; lia |]. split; [discriminate |]. intros _. split; [exact En | lia].
    + assert (clock - start <= timeout).
      { destruct (Z.gtb_spec (clock - start) timeout); [discriminate | lia]. }
      destruct (IH (clock + 100) ltac:(lia) ltac:(lia))
        as (r & k & c' & Hl & Hc & Hbefore & Ht & Hf).
      exists r, (S k), c'. split; [exact Hl |]. split; [lia |].
      split; [| split; [exact Ht | exact Hf]].
      intros [| j] Hj.
      * replace (clock + 100 * Z.of_nat 0) with clock by lia. split; [exact En | lia].
      * replace (clock + 100 * Z.of_nat (S j)) with (clock + 100 + 100 * Z.of_nat j) by lia.
        apply Hbefore. lia.
  - exists true, 0%nat, clock. split; [reflexivity |]. split; [lia |].
    split; [intros j Hj; lia |]. split; [intros _; exact En | discriminate].
Qed.

(** [wait_for_navigation] always returns.  It looks at the navigating flag
    at the call and then every 100 ms, and returns at the first of these
    moments at which the flag is clear (True) or more than [timeout] ms have
    passed with the flag still set (False); the flag is looked at first, so
    a flag found clear gives True however late it is.  A False answer comes
    more than [timeout] and at most [timeout + 100] ms after the call (at
    once for a negative timeout). *)
Theorem wait_for_navigation_spec (navigating_at : Z -> bool) (clock timeout : Z) :
  exists r (k : nat) clock',
    wait_for_navigation navigating_at clock timeout = Some (r, clock') /\
    clock' = clock + 100 * Z.of_nat k /\
    (forall j : nat, (j < k)%nat ->
       navigating_at (clock + 100 * Z.of_nat j) = true /\ 100 * Z.of_nat j <= timeout) /\
    (r = true <-> navigating_at clock' = false) /\
    (r = false -> timeout < clock' - clock <= Z.max 0 (timeout + 100)).
Proof.
  unfold wait_for_navigation. destruct (navigating_at clock) eqn:En; simpl.
  - destruct (wait_for_navigation_loop_spec navigating_at timeout clock
                (Z.to_nat (timeout / 100) + 2) clock)
      as (r & k & c' & Hl & Hc & Hbefore & Ht & Hf).
    { destruct (Z.le_gt_cases 0 timeout) as [Hpos | Hneg].
      - pose proof (Z.mul_succ_div_gt timeout 100 ltac:(lia)).
        pose proof (Z.div_pos timeout 100 Hpos ltac:(lia)). lia.
      - lia. }
    { lia. }
    exists r, k, c'. split; [exact Hl |]. split; [exact Hc |].
    split; [| split].
    + intros j Hj. destruct (Hbefore j Hj). split; [assumption | lia].
    + split; [exact Ht |]. intros Hn. destruct r; [reflexivity |].
      destruct (Hf eq_refl) as [Hy _]. congruence.
    + intros Hr. destruct (Hf Hr) as [_ Hlate]. split; [exact Hlate |].
      destruct k as [| k]; [lia |].
      destruct (Hbefore k ltac:(lia)). lia.
  - exists true, 0%nat, clock. split; [reflexivity |]. split; [lia |].
    split; [intros j Hj; lia |]. split; [tauto | discriminate].
Qed.

(** Polling a flag that is cleared 250 ms after the call: True, 300 ms after
    the call. *)
Example wait_for_navigation_polls :
  wait_for_navigation navigating_until_250 0 30000 = Some (true, 300).
Proof. vm_compute. reflexivity. Qed.

(** ** The tracker of a BrowserCommander *)

Lemma wait_true_not_before_idle env clock self timeout idle_time clock' self' :
  network_tracker.wait_for_network_idle env clock self timeout idle_time
  = Some (true, clock', self') ->
  clock + Z.max 0 (default (network_tracker.idle_timeout self) idle_time) <= clock'.
Proof.
  unfold network_tracker.wait_for_network_idle, network_tracker.sleep.
  set (idle := default (network_tracker.idle_timeout self) idle_time).
  intros E.
  destruct (Nat.eqb (network_tracker.get_pending_count self) 0).
  - destruct (Nat.eqb _ 0 && _)%bool.
    + injection E as <- <-. lia.
    + apply NetworkTrackerFacts.poll_sound in E; [| lia].
      destruct E as [Ht _]. destruct (Ht eq_refl) as (o & a & Ho & _ & Hc & _). lia.
  - apply NetworkTrackerFacts.poll_sound in E; [| lia].
    destruct E as [Ht _]. destruct (Ht eq_refl) as (o & a & Ho & _ & Hc & _). lia.
Qed.

Lemma idle_timeout_kept ops : forall tracker,
  network_tracker.idle_timeout (fold_left network_tracker.perform ops tracker)
  = network_tracker.idle_timeout tracker.
Proof.
  intros tracker.
  apply (NetworkTrackerLaws.kept_by_operations
           (fun t => network_tracker.idle_timeout t = network_tracker.idle_timeout tracker)).
  - intros now self ev H. rewrite <- H. destruct ev; simpl; try reflexivity.
    + destruct (network_tracker.page_handlers self); [| reflexivity].
      unfold network_tracker._on_request. destruct (_ || _)%bool; [reflexivity |].
      simpl. destruct (network_tracker._idle_timer self); reflexivity.
    + destruct (network_tracker.page_handlers self); [| reflexivity].
      unfold network_tracker._on_request_end. destruct (_ !! _); reflexivity.
    + destruct (network_tracker.page_handlers self); [| reflexivity].
      unfold network_tracker._on_request_end. destruct (_ !! _); reflexivity.
  - intros self key H. exact H.
  - intros self H. unfold network_tracker.start_tracking.
    destruct (network_tracker._is_tracking self); exact H.
  - intros self H. unfold network_tracker.stop_tracking.
    destruct (negb _); exact H.
  - intros self event callback H. unfold network_tracker.on.
    repeat (destruct (String.eqb event _); [exact H |]). exact H.
  - intros self event callback H. unfold network_tracker.off.
    repeat (destruct (String.eqb event _); [exact H |]). exact H.
  - reflexivity.
Qed.

(** The tracker a BrowserCommander creates has an idle time of 30000 ms,
    and [NavigationManager.wait_for_page_ready] passes no idle time of its
    own.  So, whatever has happened to that tracker since, a page-ready
    wait of the commander's navigation manager with a positive timeout does
    not answer True before 30 seconds have passed, and [navigate] does not
    return before that either when the page does become ready. *)
Theorem commander_page_ready_takes_30_seconds
    (engine : network_tracker.EngineType) (ops : list network_tracker.Operation)
    (env : Z -> list network_tracker.Event) (clock : Z) (self : NavigationManager)
    (current_url : str) (timeout clock' : Z) :
  network_tracker self
  = Some (fold_left network_tracker.perform ops (factory.commander_tracker engine)) ->
  0 < timeout ->
  answered (wait_for_page_ready env clock self current_url timeout) = Some (true, clock') ->
  clock + 30000 <= clock'.
Proof.
  intros Htr Hpos E. unfold wait_for_page_ready in E. rewrite Htr in E.
  replace (timeout - (clock - clock)) with timeout in E by lia.
  destruct (timeout >? 0) eqn:Eto.
  2:{ destruct (Z.gtb_spec timeout 0); [discriminate | lia]. }
  destruct (network_tracker.wait_for_network_idle env clock _ timeout None)
    as [[[idle c1] tr1] |] eqn:Ew; [| discriminate].
  destruct idle; simpl in E; [| discriminate].
  injection E as <-.
  apply wait_true_not_before_idle in Ew. simpl in Ew.
  rewrite idle_timeout_kept in Ew. simpl in Ew.
  unfold factory.commander_tracker, network_tracker.start_tracking in Ew. simpl in Ew. lia.
Qed.

Lemma commander_page_ready_takes_30_seconds_witness :
  let self := __init__ network_tracker.playwright
                (Some (factory.commander_tracker network_tracker.playwright)) in
  network_tracker self
  = Some (fold_left network_tracker.perform []
            (factory.commander_tracker network_tracker.playwright)) /\
  0 < 30000 /\
  answered (wait_for_page_ready (fun _ => []) 0 self (py "https://x/") 30000)
  = Some (true, 30000) /\
  0 + 30000 <= 30000.
Proof.
  assert (H1 : network_tracker
                 (__init__ network_tracker.playwright
                    (Some (factory.commander_tracker network_tracker.playwright)))
               = Some (fold_left network_tracker.perform []
                         (factory.commander_tracker network_tracker.playwright)))
    by reflexivity.
  assert (H2 : 0 < 30000) by lia.
  assert (H3 : answered
                 (wait_for_page_ready (fun _ => []) 0
                    (__init__ network_tracker.playwright
                       (Some (factory.commander_tracker network_tracker.playwright)))
                    (py "https://x/") 30000)
               = Some (true, 30000)) by (vm_compute; reflexivity).
  exact (conj H1 (conj H2 (conj H3
    (commander_page_ready_takes_30_seconds network_tracker.playwright [] (fun _ => []) 0
       (__init__ network_tracker.playwright
          (Some (factory.commander_tracker network_tracker.playwright)))
       (py "https://x/") 30000 30000 H1 H2 H3)))).
Defined.

End NavigationManagerLaws.

Module WorldLaws.
Import page_trigger_manager.

(** ** Every operation is a sequence of elementary changes *)

Lemma reaches_call_listener w c : rtc step w (call_listener w c).
Proof.
  destruct c as [fn old new | fn u | fn u | fn u]; simpl;
    try (apply rtc_once, step_observe).
  destruct fn; apply rtc_once; [apply step_observe | apply step_stop_active].
Qed.

Lemma reaches_fold_calls calls : forall w, rtc step w (fold_left call_listener calls w).
Proof.
  induction calls as [| c calls IH]; intros w; simpl; [reflexivity |].
  etrans; [apply reaches_call_listener | apply IH].
Qed.

Lemma deliver_frame w is_main_frame url :
  deliver w (framenavigated is_main_frame url)
  = fold_left call_listener (snd (frame_navigated w is_main_frame url))
      (fst (frame_navigated w is_main_frame url)).
Proof.
  unfold deliver, frame_navigated.
  destruct (navigation_manager.page_handler _); [| reflexivity].
  destruct (navigation_manager._on_frame_navigated _ _ _ _) as [[nm st] calls].
  reflexivity.
Qed.

Lemma reaches_deliver w ev : rtc step w (deliver w ev).
Proof.
  destruct ev as [main u]. rewrite deliver_frame.
  etrans; [apply rtc_once, (step_frame w main u) | apply reaches_fold_calls].
Qed.

Lemma reaches_events evs : forall w, rtc step w (fold_left deliver evs w).
Proof.
  induction evs as [| ev evs IH]; intros w; simpl; [reflexivity |].
  etrans; [apply reaches_deliver | apply IH].
Qed.

Lemma reaches_tick env w : rtc step w (tick env w).
Proof.
  unfold tick. etrans; [apply rtc_once, (step_clock w (clock w + 1)) |].
  apply reaches_events.
Qed.

Lemma reaches_run_ticks env n : forall w, rtc step w (run_ticks env n w).
Proof.
  induction n as [| n IH]; intros w; simpl; [reflexivity |].
  etrans; [apply reaches_tick | apply IH].
Qed.

Lemma reaches_wait_ticks env signal n : forall w,
  rtc step w (snd (wait_ticks env signal n w)).
Proof.
  induction n as [| n IH]; intros w; [reflexivity |].
  destruct n as [| n]; [simpl; apply reaches_tick |].
  change (wait_ticks env signal (S (S n)) w)
    with (if asyncio.is_set signal (events (tick env w))
          then (raised ActionStoppedError, tick env w)
          else wait_ticks env signal (S n) (tick env w)).
  destruct (asyncio.is_set signal (events (tick env w))).
  - simpl. apply reaches_tick.
  - etrans; [apply reaches_tick | apply IH].
Qed.

Lemma reaches_wait env ctx ms w : rtc step w (snd (wait env ctx ms w)).
Proof.
  unfold wait. destruct (ms <=? 0); [reflexivity |].
  destruct (asyncio.is_set _ _); [reflexivity | apply reaches_wait_ticks].
Qed.

Lemma reaches_run_callbacks ctx_id callbacks : forall w,
  rtc step w (snd (run_callbacks ctx_id callbacks w)).
Proof.
  induction callbacks as [| cb callbacks IH]; intros w; simpl; [reflexivity |].
  destruct (callback_raises cb) as [error |]; [destruct (is_Exception error) |];
    simpl; try (etrans; [apply rtc_once, step_observe | apply IH]).
  apply rtc_once, step_observe.
Qed.

Lemma reaches_cleanup ctx_id w : rtc step w (snd (cleanup ctx_id w)).
Proof.
  unfold cleanup. destruct (contexts w !! ctx_id); [apply reaches_run_callbacks | reflexivity].
Qed.

Lemma reaches_run_action env ctx_id steps : forall w,
  rtc step w (snd (run_action env ctx_id steps w)).
Proof.
  induction steps as [| s steps IH]; intros w; simpl; [reflexivity |].
  destruct s as [callback | ms | | ms | error |]; simpl; try reflexivity.
  - etrans; [apply rtc_once, step_on_cleanup | apply IH].
  - destruct (contexts w !! ctx_id) as [ctx |]; [| apply IH].
    pose proof (reaches_wait env ctx ms w) as Hw.
    destruct (wait env ctx ms w) as [[| error] w']; simpl in *;
      [etrans; [exact Hw | apply IH] | exact Hw].
  - destruct (contexts w !! ctx_id) as [ctx |]; [| apply IH].
    destruct (check_stopped ctx w); [apply IH | reflexivity].
  - etrans; [apply reaches_run_ticks | apply IH].
Qed.

Lemma elem_of_remove_first (x y : nat) l :
  y ∈ navigation_manager.remove_first x l -> y ∈ l.
Proof.
  induction l as [| z l IH]; simpl; [auto |].
  destruct (decide (x = z)); [intros H; right; exact H |].
  intros [-> | H]%elem_of_cons; [left | right; auto].
Qed.

Lemma reaches_end_trigger ctx_id pending w :
  rtc step w (snd (end_trigger ctx_id pending w)).
Proof.
  unfold end_trigger. pose proof (reaches_cleanup ctx_id w) as Hc.
  destruct (cleanup ctx_id w) as [[| error] w1]; simpl in *; [| exact Hc].
  etrans; [exact Hc |]. apply rtc_once, step_manager. simpl.
  intros id. apply elem_of_remove_first.
Qed.

Lemma reaches_run_trigger env trigger u w :
  rtc step w (snd (_run_trigger env trigger u w)).
Proof.
  unfold _run_trigger.
  pose proof (step_begin w trigger u) as Hb.
  destruct (begin_trigger trigger u w) as [ctx_id w1]. simpl in Hb.
  pose proof (reaches_run_action env ctx_id (action trigger) w1) as Hr.
  destruct (run_action env ctx_id (action trigger) w1) as [[[| error] |] w2];
    simpl in *; [| destruct (is_Exception error) |];
    try (etrans; [apply rtc_once, Hb |]; etrans; [exact Hr | apply reaches_end_trigger]).
  etrans; [apply rtc_once, Hb | exact Hr].
Qed.

Lemma reaches_check_each env u triggers : forall w,
  rtc step w (snd (check_each env u triggers w)).
Proof.
  induction triggers as [| t triggers IH]; intros w; simpl; [reflexivity |].
  destruct (condition t u); [| apply IH].
  pose proof (reaches_run_trigger env t u w) as Hr.
  destruct (_run_trigger env t u w) as [[[| error] |] w1]; simpl in *; try exact Hr.
  etrans; [exact Hr | apply IH].
Qed.

Lemma reaches_destroy_each active : forall w,
  rtc step w (snd (destroy_each active w)).
Proof.
  induction active as [| id active IH]; intros w; simpl; [reflexivity |].
  set (w1 := match contexts w !! id with
             | Some ctx => set_events w (asyncio.set (_abort_signal ctx) (events w))
             | None => w
             end).
  assert (H1 : rtc step w w1).
  { subst w1. destruct (contexts w !! id) as [ctx |] eqn:E; [| reflexivity].
    apply rtc_once. eapply step_set_signal. exact E. }
  pose proof (reaches_cleanup id w1) as Hc.
  destruct (cleanup id w1) as [[| error] w2]; simpl in *.
  - etrans; [exact H1 |]. etrans; [exact Hc | apply IH].
  - etrans; [exact H1 | exact Hc].
Qed.

Lemma reaches_perform env w op : rtc step w (perform env w op).
Proof.
  destruct op as [ms | ev | | trigger u | config | | | |]; simpl.
  - apply reaches_run_ticks.
  - apply reaches_deliver.
  - unfold run_background_task.
    destruct (_background_tasks (manager w)) as [| u rest]; [reflexivity |].
    etrans; [| apply reaches_check_each].
    apply rtc_once, step_manager. simpl. auto.
  - apply reaches_run_trigger.
  - unfold page_trigger.
    destruct (config_condition config) as [cond |]; [| reflexivity].
    destruct (config_action config) as [act |]; [| reflexivity].
    destruct (falsy cond); [reflexivity |].
    destruct cond as [f | r | p0 | ];
      try (destruct (UrlCondition.make_url_condition _));
      try reflexivity; apply rtc_once, step_manager; simpl; auto.
  - apply rtc_once, step_on.
  - pose proof (step_start_listening w) as Hs.
    destruct (navigation_manager.start_listening _ _ _) as [nm st]. simpl in Hs.
    apply rtc_once, Hs.
  - apply rtc_once, step_stop_listening.
  - unfold destroy.
    pose proof (reaches_destroy_each (_active_actions (manager w)) w) as Hd.
    destruct (destroy_each (_active_actions (manager w)) w) as [[| error] w1];
      simpl in *; [| exact Hd].
    etrans; [exact Hd |].
    etrans; [apply rtc_once, (step_manager w1
               {| _triggers := []; _active_actions := [];
                  _background_tasks := _background_tasks (manager w1) |}) |].
    { simpl. intros id Hin. inversion Hin. }
    apply rtc_once.
    exact (step_off (set_manager w1
                       {| _triggers := []; _active_actions := [];
                          _background_tasks := _background_tasks (manager w1) |})
             "on_url_change" navigation_manager.page_trigger_handler).
Qed.

Lemma reaches_operations env ops : forall w, rtc step w (fold_left (perform env) ops w).
Proof.
  induction ops as [| op ops IH]; intros w; simpl; [reflexivity |].
  etrans; [apply reaches_perform | apply IH].
Qed.

(** A property of the new world that every elementary change keeps holds
    in every world the program can get into. *)
Lemma invariant_of_steps (P : World -> Prop) :
  (forall w w', step w w' -> P w -> P w') ->
  forall env page_url engine tracker ops,
    P (new_world page_url (navigation_manager.__init__ engine tracker)) ->
    P (fold_left (perform env) ops
         (new_world page_url (navigation_manager.__init__ engine tracker))).
Proof.
  intros Hstep env page_url engine tracker ops H0.
  pose proof (reaches_operations env ops
                (new_world page_url (navigation_manager.__init__ engine tracker))) as Hr.
  induction Hr as [| w1 w2 w3 H12 H23 IH]; [exact H0 |].
  apply IH. eapply Hstep; eauto.
Qed.

(** ** What every elementary change keeps *)

Lemma sound_step w w' : step w w' -> sound w -> sound w'.
Proof.
  intros Hs H. destruct Hs as [w c | w main u | w o | w u | w id cb | w t u | w m Hm
                               | w id ctx Hctx | w ev fn | w ev fn | w | w].
  - eapply PageTriggerFacts.sound_frame; [| | | | exact H]; reflexivity.
  - unfold frame_navigated.
    set (w1 := if main then set_page_url w u else w).
    assert (H1 : sound w1) by (subst w1; destruct main; exact H).
    destruct (navigation_manager.page_handler (navigation w1)); [| exact H1].
    unfold navigation_manager._on_frame_navigated.
    destruct (negb main).
    { simpl. eapply PageTriggerFacts.sound_frame; [| | | | exact H1]; reflexivity. }
    destruct (negb _).
    + pose proof (PageTriggerFacts.sound_nav_url_change (page_url w1) w1 H1) as H2.
      destruct (navigation_manager._on_url_change (navigation w1) (page_url w1) (events w1))
        as [[nm st] calls]. exact H2.
    + simpl. eapply PageTriggerFacts.sound_frame; [| | | | exact H1]; reflexivity.
  - eapply PageTriggerFacts.sound_frame; [| | | | exact H]; reflexivity.
  - apply PageTriggerFacts.sound_on_url_change, H.
  - apply PageTriggerFacts.sound_on_cleanup, H.
  - apply PageTriggerFacts.sound_begin_trigger, H.
  - destruct H as [(W1 & W2 & W3) S]. split; [| exact S].
    split; [| split; [exact W2 | exact W3]]. simpl.
    rewrite Forall_forall in W1. apply Forall_forall. intros id Hin. apply W1, Hm, Hin.
  - apply PageTriggerFacts.sound_set_signal; [| exact H].
    destruct H as [(_ & W2 & _) _]. rewrite Forall_forall in W2. apply W2.
    apply list_elem_of_fmap. exists ctx. split; [reflexivity |].
    eapply list_elem_of_lookup_2; eauto.
  - eapply PageTriggerFacts.sound_frame; [| | | | exact H];
      first [reflexivity | apply PageTriggerFacts.on_keeps_controller].
  - eapply PageTriggerFacts.sound_frame; [| | | | exact H];
      first [reflexivity | apply PageTriggerFacts.off_keeps_controller].
  - pose proof (PageTriggerFacts.sound_perform quiet_env w op_start_listening H) as Hp.
    simpl in Hp.
    destruct (navigation_manager.start_listening (navigation w) (page_url w) (events w))
      as [nm st]. exact Hp.
  - exact (PageTriggerFacts.sound_perform quiet_env w op_stop_listening H).
Qed.

Lemma controller_unset_frame w w' :
  navigation_manager._abort_controller (navigation w')
  = navigation_manager._abort_controller (navigation w) ->
  asyncio.fired (events w') = asyncio.fired (events w) ->
  _abort_signal <$> contexts w' = _abort_signal <$> contexts w ->
  controller_unset w -> controller_unset w'.
Proof. unfold controller_unset. intros -> -> ->. auto. Qed.

Lemma signal_of_context w ctx_id ctx :
  contexts w !! ctx_id = Some ctx -> _abort_signal ctx ∈ (_abort_signal <$> contexts w).
Proof.
  intros H. apply list_elem_of_fmap. exists ctx. split; [reflexivity |].
  eapply list_elem_of_lookup_2; eauto.
Qed.

Lemma controller_unset_step w w' :
  step w w' -> sound w -> controller_unset w -> controller_unset w'.
Proof.
  intros Hs [(W1 & W2 & W3) [S1 S2]] U.
  assert (Hfresh : (asyncio.allocated (events w) ∉ asyncio.fired (events w)) /\
                   (asyncio.allocated (events w) ∉ (_abort_signal <$> contexts w))).
  { split.
    - intros Hin. specialize (S1 _ Hin). lia.
    - intros Hin. rewrite Forall_forall in W2. specialize (W2 _ Hin). simpl in W2. lia. }
  destruct Hs as [w c | w main u | w o | w u | w id cb | w t u | w m Hm
                  | w id ctx Hctx | w ev fn | w ev fn | w | w].
  - eapply controller_unset_frame; [| | | exact U]; reflexivity.
  - unfold frame_navigated.
    set (w1 := if main then set_page_url w u else w).
    assert (E1 : navigation w1 = navigation w /\ events w1 = events w
                 /\ contexts w1 = contexts w)
      by (subst w1; destruct main; auto).
    destruct E1 as (En & Ee & Ec).
    assert (U1 : controller_unset w1).
    { eapply controller_unset_frame; [| | | exact U]; congruence. }
    destruct (navigation_manager.page_handler (navigation w1)); [| exact U1].
    unfold navigation_manager._on_frame_navigated.
    destruct (negb main).
    { simpl. eapply controller_unset_frame; [| | | exact U1]; reflexivity. }
    destruct (negb _).
    2:{ simpl. eapply controller_unset_frame; [| | | exact U1]; reflexivity. }
    unfold navigation_manager._on_url_change. rewrite En, Ee.
    destruct (navigation_manager._abort_controller (navigation w)) as [signal |] eqn:Ectl.
    + simpl. intros s [= <-]. simpl. rewrite Ec. destruct Hfresh as [F1 F2].
      split; [| exact F2].
      intros [Hin | Hin]%elem_of_union; [| exact (F1 Hin)].
      apply elem_of_singleton in Hin. specialize (S2 signal eq_refl). lia.
    + simpl. intros s Hs. simpl in Hs. discriminate.
  - eapply controller_unset_frame; [| | | exact U]; reflexivity.
  - intros s Hs. simpl in Hs. destruct (U s Hs) as [U1 U2]. split; [| exact U2].
    intros Hin. apply PageTriggerFacts.on_url_change_fired in Hin as [Hin | Ha];
      [exact (U1 Hin) |].
    destruct Ha as (id & ctx & _ & Hl & <-). apply U2. eapply signal_of_context; eauto.
  - eapply controller_unset_frame; [| | | exact U].
    + unfold on_cleanup. destruct (contexts w !! id); reflexivity.
    + unfold on_cleanup. destruct (contexts w !! id); reflexivity.
    + rewrite !PageTriggerFacts.signals_of_identity.
      f_equal. apply (PageTriggerFacts.steady_on_cleanup id cb w).
  - intros s Hs. simpl in Hs. destruct (U s Hs) as [U1 U2]. specialize (S2 s Hs).
    split; [exact U1 |]. simpl. rewrite fmap_app.
    intros [Hin | Hin]%elem_of_app; [exact (U2 Hin) |].
    simpl in Hin. apply list_elem_of_singleton in Hin. lia.
  - eapply controller_unset_frame; [| | | exact U]; reflexivity.
  - intros s Hs. simpl in Hs. destruct (U s Hs) as [U1 U2]. split; [| exact U2].
    simpl. intros [Hin | Hin]%elem_of_union; [| exact (U1 Hin)].
    apply elem_of_singleton in Hin. subst s. apply U2. eapply signal_of_context; eauto.
  - eapply controller_unset_frame; [| | | exact U];
      first [reflexivity | apply PageTriggerFacts.on_keeps_controller].
  - eapply controller_unset_frame; [| | | exact U];
      first [reflexivity | apply PageTriggerFacts.off_keeps_controller].
  - unfold navigation_manager.start_listening.
    destruct (navigation_manager._is_listening (navigation w)).
    + simpl. eapply controller_unset_frame; [| | | exact U]; reflexivity.
    + simpl. intros s [= <-]. exact Hfresh.
  - unfold navigation_manager.stop_listening.
    destruct (negb _); (eapply controller_unset_frame; [| | | exact U]; reflexivity).
Qed.

Lemma tracks_page_frame w w' :
  navigation w' = navigation w -> page_url w' = page_url w ->
  tracks_page w -> tracks_page w'.
Proof. unfold tracks_page. intros -> ->. auto. Qed.

Lemma tracks_page_listeners w nm :
  navigation_manager.page_handler nm = navigation_manager.page_handler (navigation w) ->
  navigation_manager._is_listening nm = navigation_manager._is_listening (navigation w) ->
  navigation_manager.engine nm = navigation_manager.engine (navigation w) ->
  navigation_manager._last_url nm = navigation_manager._last_url (navigation w) ->
  navigation_manager._abort_controller nm
  = navigation_manager._abort_controller (navigation w) ->
  tracks_page w -> tracks_page (set_navigation w nm).
Proof. unfold tracks_page. simpl. intros -> -> -> -> ->. auto. Qed.

Lemma tracks_page_step w w' : step w w' -> tracks_page w -> tracks_page w'.
Proof.
  intros Hs T.
  destruct Hs as [w c | w main u | w o | w u | w id cb | w t u | w m Hm
                  | w id ctx Hctx | w ev fn | w ev fn | w | w];
    try (eapply tracks_page_frame; [| | exact T]; reflexivity).
  - destruct T as (Th & Tu & Tc). unfold frame_navigated.
    destruct main; simpl.
    + destruct (navigation_manager.page_handler (navigation w)) eqn:Eh in |- *.
      * unfold navigation_manager._on_frame_navigated. simpl.
        unfold Re.str_eqb.
        destruct (bool_decide (u = navigation_manager._last_url (navigation w))) eqn:Eu;
          simpl.
        -- apply bool_decide_eq_true in Eu.
           split; [exact Th |]. split; [intros _; symmetry; exact Eu | exact Tc].
        -- unfold navigation_manager._on_url_change.
           destruct (navigation_manager._abort_controller (navigation w)) as [signal |]
             eqn:Ectl; simpl.
           ++ split; [exact Th |]. split; [reflexivity | eauto].
           ++ split; [exact Th |]. split; [reflexivity |].
              intros Hl. destruct (Tc Hl) as [x Hx]. discriminate.
      * simpl. split; [exact Th |]. split; [intros Hh | exact Tc].
        simpl in Hh. congruence.
    + destruct (navigation_manager.page_handler (navigation w)) in |- *; simpl;
        (split; [exact Th | split; [exact Tu | exact Tc]]).
  - eapply tracks_page_frame; [| | exact T];
      unfold on_cleanup; destruct (contexts w !! id); reflexivity.
  - apply tracks_page_listeners; [| | | | | exact T]; unfold navigation_manager.on;
      repeat (match goal with |- context [if ?b then _ else _] => destruct b end);
      reflexivity.
  - apply tracks_page_listeners; [| | | | | exact T]; unfold navigation_manager.off;
      repeat (match goal with |- context [if ?b then _ else _] => destruct b end);
      reflexivity.
  - destruct T as (Th & Tu & Tc). unfold navigation_manager.start_listening.
    destruct (navigation_manager._is_listening (navigation w)) eqn:El in |- *.
    + simpl. split; [exact Th |]. split; [exact Tu | exact Tc].
    + unfold tracks_page. simpl. rewrite El in Th. simpl in Th.
      split; [| split; [reflexivity | eauto]].
      destruct (navigation_manager.engine (navigation w)); simpl;
        [reflexivity | exact Th].
  - destruct T as (Th & Tu & Tc). unfold navigation_manager.stop_listening.
    destruct (navigation_manager._is_listening (navigation w)) eqn:El in |- *;
      unfold tracks_page; simpl.
    + rewrite El in Th. split; [| split; [| discriminate]].
      * destruct (navigation_manager.engine (navigation w)); simpl in *;
          [reflexivity | exact Th].
      * destruct (navigation_manager.engine (navigation w)); simpl in *;
          [discriminate | exact Tu].
    + split; [exact Th |]. split; [exact Tu | exact Tc].
Qed.

(** The invariants of a world the program can get into, together. *)
Lemma reachable_worlds_are_calm env page_url engine tracker ops :
  let w := fold_left (perform env) ops
             (new_world page_url (navigation_manager.__init__ engine tracker)) in
  sound w /\ controller_unset w /\ tracks_page w.
Proof.
  apply (invariant_of_steps (fun w => sound w /\ controller_unset w /\ tracks_page w)).
  - intros w w' Hs (H1 & H2 & H3). split; [| split].
    + eapply sound_step; eauto.
    + eapply controller_unset_step; eauto.
    + eapply tracks_page_step; eauto.
  - split; [| split].
    + exact (PageTriggerFacts.reachable_worlds_are_sound env page_url engine tracker []).
    + intros s Hs. discriminate.
    + split; [reflexivity |]. split; discriminate.
Qed.

(** ** The abort signal of the navigation manager *)

(** In every world the program can get into, [should_abort()] answers
    False: the event that [_on_url_change] sets is replaced at once by a new
    one, and nothing else sets the manager's event.  The event
    [get_abort_signal()] hands out is unset at that moment and is the event
    of no trigger context. *)
Theorem should_abort_is_never_true
    (env : Z -> list PageEvent) (page_url : str)
    (engine : network_tracker.EngineType)
    (tracker : option network_tracker.NetworkTracker) (ops : list Operation) :
  let w := fold_left (perform env) ops
             (new_world page_url (navigation_manager.__init__ engine tracker)) in
  navigation_manager.should_abort (navigation w) (events w) = false /\
  forall s, navigation_manager.get_abort_signal (navigation w) = Some s ->
            asyncio.is_set s (events w) = false /\
            forall ctx, ctx ∈ contexts w -> _abort_signal ctx <> s.
Proof.
  intros w.
  destruct (reachable_worlds_are_calm env page_url engine tracker ops) as (_ & U & _).
  fold w in U.
  assert (H : forall s, navigation_manager._abort_controller (navigation w) = Some s ->
                        asyncio.is_set s (events w) = false /\
                        forall ctx, ctx ∈ contexts w -> _abort_signal ctx <> s).
  { intros s Hs. destruct (U s Hs) as [U1 U2]. split.
    - unfold asyncio.is_set. apply bool_decide_eq_false. exact U1.
    - intros ctx Hin <-. apply U2. apply list_elem_of_fmap. eauto. }
  split; [| exact H].
  unfold navigation_manager.should_abort.
  destruct (navigation_manager._abort_controller (navigation w)) as [s |] eqn:E;
    [apply (H s eq_refl) | reflexivity].
Qed.

(** In every world the program can get into, the manager's frame handler
    is on the page exactly while the manager listens with the Playwright
    engine; while it is there, [_last_url] is the URL the page shows, so
    that [_on_url_change] runs for a frame event exactly when the main
    frame shows another URL than before; and a listening manager has an
    abort event. *)
Theorem listening_manager_tracks_page
    (env : Z -> list PageEvent) (page_url0 : str)
    (engine : network_tracker.EngineType)
    (tracker : option network_tracker.NetworkTracker) (ops : list Operation) :
  let w := fold_left (perform env) ops
             (new_world page_url0 (navigation_manager.__init__ engine tracker)) in
  navigation_manager.page_handler (navigation w)
  = (navigation_manager._is_listening (navigation w)
     && network_tracker.is_playwright (navigation_manager.engine (navigation w)))%bool /\
  (navigation_manager.page_handler (navigation w) = true ->
   navigation_manager._last_url (navigation w) = page_url w) /\
  (navigation_manager._is_listening (navigation w) = true ->
   exists s, navigation_manager.get_abort_signal (navigation w) = Some s) /\
  (forall is_main_frame url,
     navigation_manager.page_handler (navigation w) = true ->
     navigation_manager._last_url
       (navigation (deliver w (framenavigated is_main_frame url)))
     = page_url (deliver w (framenavigated is_main_frame url)) /\
     (navigation_manager._last_url (navigation w)
      <> navigation_manager._last_url
           (navigation (deliver w (framenavigated is_main_frame url)))
      <-> is_main_frame = true /\ url <> page_url w)).
Proof.
  intros w.
  destruct (reachable_worlds_are_calm env page_url0 engine tracker ops) as (_ & _ & T).
  fold w in T.
  destruct T as (Th & Tu & Tc).
  split; [exact Th |]. split; [exact Tu |]. split; [exact Tc |].
  intros main url Hh.
  assert (T' : tracks_page (deliver w (framenavigated main url))).
  { assert (R : rtc step w (deliver w (framenavigated main url)))
      by apply reaches_deliver.
    assert (T0 : tracks_page w) by (split; [exact Th | split; [exact Tu | exact Tc]]).
    clear -R T0. induction R as [| w1 w2 w3 H12 H23 IH]; [exact T0 |].
    apply IH. eapply tracks_page_step; eauto. }
  assert (Hnav : forall calls w0,
             navigation (fold_left call_listener calls w0) = navigation w0 /\
             page_url (fold_left call_listener calls w0) = page_url w0).
  { induction calls as [| c calls IH]; intros w0; simpl; [auto |].
    destruct (IH (call_listener w0 c)) as [-> ->].
    destruct c as [fn ? ? | fn ? | fn ? | fn ?]; try (split; reflexivity).
    destruct fn; split; reflexivity. }
  rewrite deliver_frame in *.
  destruct (Hnav (snd (frame_navigated w main url)) (fst (frame_navigated w main url)))
    as [En Ep].
  destruct T' as (_ & Tu' & _). rewrite En, Ep in Tu'. rewrite En, Ep.
  assert (Hh' : navigation_manager.page_handler (navigation (fst (frame_navigated w main url)))
                = true).
  { unfold frame_navigated. destruct main; simpl; rewrite Hh.
    - unfold navigation_manager._on_frame_navigated. simpl.
      destruct (negb _); [| simpl; exact Hh].
      unfold navigation_manager._on_url_change.
      destruct (navigation_manager._abort_controller (navigation w)); simpl; exact Hh.
    - simpl. exact Hh. }
  split; [apply Tu', Hh' |].
  rewrite (Tu' Hh'), (Tu Hh).
  assert (Hp : page_url (fst (frame_navigated w main url))
               = if main then url else page_url w).
  { unfold frame_navigated. destruct main; simpl; rewrite Hh;
      [destruct (navigation_manager._on_frame_navigated _ _ _ _) as [[nm st] calls] |];
      reflexivity. }
  rewrite Hp. destruct main.
  - split; [intros Hne; split; [reflexivity | congruence] | intros [_ Hne]; congruence].
  - split; [congruence | intros [Hm _]; discriminate].
Qed.

End WorldLaws.

Module CommanderLaws.
Import page_trigger_manager.

(** ** [destroy] *)





(** ** [for_each] *)

Section ForEachFacts.

Context {A R : Type}.

Lemma for_each_from_results (ctx : ActionContext) (fn : @ItemFunction A R) items :
  forall i acc w results w',
    for_each_from ctx fn i items acc w = Some (inl results, w') ->
    exists rs ws,
      results = acc ++ rs /\ length rs = length items /\
      length ws = S (length items) /\ ws !! 0%nat = Some w /\
      ws !! length items = Some w' /\
      forall k item, items !! k = Some item ->
        exists wk wk' r,
          ws !! k = Some wk /\ ws !! S k = Some wk' /\ rs !! k = Some r /\
          is_stopped ctx wk = false /\ fn item (i + k)%nat wk = Some (inl r, wk').
Proof.
  induction items as [| item items IH]; intros i acc w results w' E; simpl in E.
  - injection E as <- <-. exists [], [w]. rewrite app_nil_r.
    repeat split; auto. intros k item Hk. discriminate.
  - unfold check_stopped in E.
    destruct (is_stopped ctx w) eqn:Es; [discriminate |].
    destruct (fn item i w) as [[[r | error] w1] |] eqn:Ef; try discriminate.
    apply IH in E as (rs & ws & -> & Hl & Hws & H0 & Hlast & Hall).
    exists (r :: rs), (w :: ws). rewrite <- app_assoc. simpl.
    split; [reflexivity |]. split; [lia |]. split; [lia |].
    split; [reflexivity |]. split; [exact Hlast |].
    intros [| k] it Hk; simpl in Hk.
    + injection Hk as <-. exists w, w1, r. rewrite Nat.add_0_r.
      repeat split; auto.
    + destruct (Hall k it Hk) as (wk & wk' & r' & G1 & G2 & G3 & G4 & G5).
      exists wk, wk', r'. replace (i + S k)%nat with (S i + k)%nat by lia.
      repeat split; auto.
Qed.

(** [for_each] looks at the stop signal before every item.  With no items
    it returns the empty list, stopped or not.  With a context that is
    already stopped and at least one item it raises [ActionStoppedError]
    without calling the function.  When it returns, there is one result for
    each item, in order, and the result for item [k] was produced by the
    function called with that item and the index [k] in a world in which the
    context was not stopped, each call starting in the world the previous
    one left. *)
Theorem for_each_outcome (ctx : ActionContext) (items : list A)
    (fn : @ItemFunction A R) (w : World) :
  (items = [] -> for_each ctx items fn w = Some (inl [], w)) /\
  (items <> [] -> is_stopped ctx w = true ->
   for_each ctx items fn w = Some (inr ActionStoppedError, w)) /\
  (forall results w',
     for_each ctx items fn w = Some (inl results, w') ->
     length results = length items /\
     exists ws,
       length ws = S (length items) /\ ws !! 0%nat = Some w /\
       ws !! length items = Some w' /\
       forall k item, items !! k = Some item ->
         exists wk wk' r,
           ws !! k = Some wk /\ ws !! S k = Some wk' /\ results !! k = Some r /\
           is_stopped ctx wk = false /\ fn item k wk = Some (inl r, wk')).
Proof.
  split; [| split].
  - intros ->. reflexivity.
  - intros Hne Hs. destruct items as [| item items]; [congruence |].
    unfold for_each. simpl. unfold check_stopped. rewrite Hs. reflexivity.
  - intros results w' E. unfold for_each in E.
    apply for_each_from_results in E as (rs & ws & -> & Hl & Hws & H0 & Hlast & Hall).
    simpl. split; [exact Hl |]. exists ws. repeat split; auto.
Qed.

End ForEachFacts.

(** ** Waiting with the commander *)

(** In every world the program can get into, [commander.wait(ms)] raises
    [ValueError] for [ms = 0]; otherwise it is never skipped as already
    aborted, it is aborted exactly when the abort signal the manager had at
    the call becomes set at a tick before [ms] ms have passed (a URL change
    handled by the manager), and it then returns at the first tick at which
    that signal is set, in the world that tick leaves; if not, it returns
    completed after [ms] ms (at once for a negative [ms]), in the world
    those ticks leave. *)
Theorem commander_wait
    (env : Z -> list PageEvent) (page_url : str)
    (engine : network_tracker.EngineType)
    (tracker : option network_tracker.NetworkTracker) (ops : list Operation)
    (env' : Z -> list PageEvent) (ms : Z) :
  let w := fold_left (perform env) ops
             (new_world page_url (navigation_manager.__init__ engine tracker)) in
  let result := factory.wait env' ms w in
  (ms = 0 -> result = (utilities.wait_ValueError, w)) /\
  (ms <> 0 ->
   exists r,
     fst result = utilities.wait_returns r /\
     utilities.completed r = negb (utilities.aborted r) /\
     (utilities.aborted r = true <->
      exists s k,
        navigation_manager.get_abort_signal (navigation w) = Some s /\
        (0 < k)%nat /\ Z.of_nat k < ms /\ set_after env' s w k = true) /\
     (utilities.aborted r = true ->
      clock w < clock (snd result) < clock w + ms) /\
     (utilities.aborted r = true ->
      exists s k,
        navigation_manager.get_abort_signal (navigation w) = Some s /\
        (0 < k)%nat /\ Z.of_nat k < ms /\
        set_after env' s w k = true /\
        (forall j, (j < k)%nat -> set_after env' s w j = false) /\
        snd result = run_ticks env' k w /\
        clock (snd result) = clock w + Z.of_nat k) /\
     (utilities.aborted r = false ->
      snd result = run_ticks env' (Z.to_nat ms) w /\
      clock (snd result) = clock w + Z.max 0 ms)).
Proof.
  intros w result. subst result.
  destruct (WorldLaws.reachable_worlds_are_calm env page_url engine tracker ops)
    as (_ & U & _).
  fold w in U. unfold factory.wait, utilities.wait, navigation_manager.get_abort_signal.
  split.
  { intros ->. reflexivity. }
  intros Hms. destruct (ms =? 0) eqn:E0; [apply Z.eqb_eq in E0; congruence |].
  destruct (navigation_manager._abort_controller (navigation w)) as [s |] eqn:Ectl.
  - destruct (U s Ectl) as [U1 _].
    assert (Eset : asyncio.is_set s (events w) = false).
    { unfold asyncio.is_set. apply bool_decide_eq_false. exact U1. }
    rewrite Eset.
    destruct (ms <? 0) eqn:Eneg.
    + apply Z.ltb_lt in Eneg. eexists. split; [reflexivity |]. simpl.
      split; [reflexivity |].
      split; [| split; [discriminate | split; [discriminate |]]].
      * split; [discriminate |]. intros (s0 & k & _ & Hk & Hlt & _). lia.
      * intros _. replace (Z.to_nat ms) with 0%nat by lia.
        split; [reflexivity | lia].
    + assert (0 < ms).
      { destruct (Z.ltb_spec ms 0); [discriminate | lia]. }
      destruct (PageTriggerFacts.wait_ticks_spec env' s (Z.to_nat ms) w Eset)
        as [(k & Hk & Hw & Hs & Hb) | (Hw & Hb)]; rewrite Hw.
      * eexists. split; [reflexivity |]. simpl. split; [reflexivity |].
        split; [| split; [| split; [| discriminate]]].
        -- split; [| reflexivity]. intros _. exists s, k.
           split; [reflexivity |]. split; [lia |]. split; [lia | exact Hs].
        -- intros _. rewrite PageTriggerFacts.clock_run_ticks. lia.
        -- intros _. exists s, k.
           split; [reflexivity |]. split; [lia |]. split; [lia |].
           split; [exact Hs |]. split; [exact Hb |]. split; [reflexivity |].
           apply PageTriggerFacts.clock_run_ticks.
      * eexists. split; [reflexivity |]. simpl. split; [reflexivity |].
        split; [| split; [discriminate | split; [discriminate |]]].
        -- split; [discriminate |]. intros (s0 & k & [= <-] & Hk & Hlt & Hs).
           rewrite (Hb k) in Hs; [discriminate | lia].
        -- intros _. split; [reflexivity |].
           rewrite PageTriggerFacts.clock_run_ticks. lia.
  - eexists. split; [reflexivity |]. simpl. split; [reflexivity |].
    split; [| split; [discriminate | split; [discriminate |]]].
    + split; [discriminate |]. intros (s0 & k & Hs & _). discriminate.
    + intros _. unfold sleep. split; [reflexivity |].
      rewrite PageTriggerFacts.clock_run_ticks. lia.
Qed.

(** ** Destroying the commander *)



End CommanderLaws.

Module UrlConditionLaws.
Import Re UrlCondition.

Lemma startswith_spec (p s : str) :
  startswith p s = true <-> exists rest, s = p ++ rest.
Proof.
  revert s. induction p as [| c p IH]; intros s; simpl.
  - split; [intros _; exists s; reflexivity | reflexivity].
  - destruct s as [| d s]; [split; [discriminate | intros [rest H]; discriminate] |].
    rewrite andb_true_iff, IH. split.
    + intros [Hc [rest ->]]. apply Ascii.eqb_eq in Hc. subst d. exists rest. reflexivity.
    + intros [rest H]. injection H as -> ->. split; [apply Ascii.eqb_refl | eauto].
Qed.

(** A string pattern without [*] and without [:] is a prefix test on the
    whole URL: the condition holds exactly for the URLs that begin with the
    pattern; the comparison for equality adds nothing.  So the empty
    pattern holds for every URL, and a path such as [/cart] holds for no
    absolute URL. *)
Theorem plain_pattern_is_prefix_test (p url : str) :
  mem "*"%char p = false -> mem ":"%char p = false ->
  applied (PStr p) url = Some (startswith p url) /\
  (applied (PStr p) url = Some true <-> exists rest, url = p ++ rest).
Proof.
  intros Hstar Hcolon. unfold applied, make_url_condition. rewrite Hstar, Hcolon.
  assert (E : (str_eqb url p || startswith p url)%bool = startswith p url).
  { unfold str_eqb. destruct (bool_decide (url = p)) eqn:Eq; [| reflexivity].
    apply bool_decide_eq_true in Eq. subst url. simpl. symmetry.
    apply startswith_spec. exists []. symmetry. apply app_nil_r. }
  rewrite E. split; [reflexivity |].
  rewrite <- startswith_spec. split; [intros [= ->]; reflexivity | intros ->; reflexivity].
Qed.

Lemma plain_pattern_is_prefix_test_witness :
  mem "*"%char (py "/cart") = false /\ mem ":"%char (py "/cart") = false /\
  applied (PStr (py "/cart")) (py "https://shop.example/cart")
  = Some (startswith (py "/cart") (py "https://shop.example/cart")) /\
  (applied (PStr (py "/cart")) (py "https://shop.example/cart") = Some true
   <-> exists rest, py "https://shop.example/cart" = py "/cart" ++ rest).
Proof.
  assert (H1 : mem "*"%char (py "/cart") = false) by reflexivity.
  assert (H2 : mem ":"%char (py "/cart") = false) by reflexivity.
  exact (conj H1 (conj H2
           (plain_pattern_is_prefix_test (py "/cart") (py "https://shop.example/cart")
              H1 H2))).
Defined.

(** A path pattern does not hold for an absolute URL that ends with it. *)
Example path_pattern_misses_absolute_url :
  applied (PStr (py "/cart")) (py "https://shop.example/cart") = Some false /\
  applied (PStr (py "/cart")) (py "/cart/items") = Some true.
Proof. split; reflexivity. Qed.

(** The combinators are conjunction, disjunction and negation, URL by URL:
    De Morgan's laws hold, the empty conjunction holds for every URL and
    the empty disjunction for none, combining two lists is combining their
    combinations, and a double negation is the condition itself. *)
Theorem condition_combinators_laws (cs cs' : list (str -> bool)) (c : str -> bool)
    (url : str) :
  not_condition (all_conditions cs) url = any_condition (map not_condition cs) url /\
  not_condition (any_condition cs) url = all_conditions (map not_condition cs) url /\
  all_conditions [] url = true /\ any_condition [] url = false /\
  all_conditions (cs ++ cs') url = (all_conditions cs url && all_conditions cs' url)%bool /\
  any_condition (cs ++ cs') url = (any_condition cs url || any_condition cs' url)%bool /\
  all_conditions [all_conditions cs; all_conditions cs'] url = all_conditions (cs ++ cs') url /\
  not_condition (not_condition c) url = c url.
Proof.
  unfold not_condition, all_conditions, any_condition.
  repeat split.
  - induction cs as [| c0 cs IH]; simpl; [reflexivity |].
    rewrite negb_andb, IH. reflexivity.
  - induction cs as [| c0 cs IH]; simpl; [reflexivity |].
    rewrite negb_orb, IH. reflexivity.
  - apply forallb_app.
  - apply existsb_app.
  - simpl. rewrite andb_true_r. symmetry. apply forallb_app.
  - apply negb_involutive.
Qed.

End UrlConditionLaws.

Module NavigationSafetyLaws.
Import navigation_safety.

Lemma contains_spec (needle s : str) :
  contains needle s = true <-> UrlCondition.occurs_in needle s.
Proof.
  unfold UrlCondition.occurs_in. induction s as [| c s IH].
  - simpl. rewrite orb_false_r, UrlConditionLaws.startswith_spec. split.
    + intros [rest H]. exists [], rest. exact H.
    + intros (a & b & H). destruct a as [| x a]; [| discriminate].
      exists b. exact H.
  - simpl. rewrite orb_true_iff, UrlConditionLaws.startswith_spec, IH. split.
    + intros [[rest H] | (a & b & H)].
      * exists [], rest. exact H.
      * exists (c :: a), b. simpl. rewrite H. reflexivity.
    + intros (a & b & H). destruct a as [| x a].
      * left. exists b. exact H.
      * right. injection H as _ H. exists a, b. exact H.
Qed.

Lemma matches_spec (patterns : list str) (text : str) :
  existsb (fun pattern => contains pattern text) patterns = true
  <-> exists pattern, (pattern ∈ patterns) /\ UrlCondition.occurs_in pattern text.
Proof.
  rewrite existsb_exists. split.
  - intros (p & Hin & Hc). exists p. split; [apply list_elem_of_In, Hin |].
    apply contains_spec, Hc.
  - intros (p & Hin & Hc). exists p. split; [apply list_elem_of_In, Hin |].
    apply contains_spec, Hc.
Qed.

Lemma occurs_in_embedded (pattern text before after : str) :
  UrlCondition.occurs_in pattern text ->
  UrlCondition.occurs_in pattern (before ++ text ++ after).
Proof.
  intros (a & b & ->). exists (before ++ a), (b ++ after).
  rewrite <- !app_assoc. reflexivity.
Qed.

(** An error is a navigation error exactly when it is an instance of
    [NavigationError] or one of the fourteen patterns occurs in its
    lower-cased message; it is a timeout error exactly when one of the four
    timeout patterns does.  So the classification does not depend on the
    case of the message, and a message that is classified stays classified
    when it is embedded in a longer one: any text that mentions
    "navigation" makes an error a navigation error. *)
Theorem error_classification (error : Error) :
  (is_navigation_error error = true <->
   error_class error = NavigationError \/
   exists pattern, (pattern ∈ all_patterns) /\
                   UrlCondition.occurs_in pattern (lower (message error))) /\
  (is_timeout_error error = true <->
   exists pattern, (pattern ∈ timeout_patterns) /\
                   UrlCondition.occurs_in pattern (lower (message error))) /\
  (forall before after,
     is_navigation_error error = true ->
     is_navigation_error {| error_class := error_class error;
                            message := before ++ message error ++ after |} = true) /\
  (forall other,
     error_class other = error_class error ->
     lower (message other) = lower (message error) ->
     is_navigation_error other = is_navigation_error error /\
     is_timeout_error other = is_timeout_error error).
Proof.
  assert (Hnav : forall e,
            is_navigation_error e = true <->
            error_class e = NavigationError \/
            exists pattern, (pattern ∈ all_patterns) /\
                            UrlCondition.occurs_in pattern (lower (message e))).
  { intros e. unfold is_navigation_error.
    destruct (error_class e); rewrite ?matches_spec; split; auto;
      intros [H | H]; [discriminate | exact H | discriminate | exact H]. }
  split; [apply Hnav |]. split; [apply matches_spec |]. split.
  - intros before after H. apply Hnav. apply Hnav in H as [H | (p & Hin & Ho)].
    + left. exact H.
    + right. exists p. split; [exact Hin |]. simpl. unfold lower.
      rewrite !map_app. apply occurs_in_embedded, Ho.
  - intros other Hc Hm. unfold is_navigation_error, is_timeout_error.
    rewrite Hc, Hm. split; reflexivity.
Qed.

(** A selector error that has nothing to do with navigating is taken for a
    navigation error because of a word in its message; and one message can
    be a navigation error and a timeout error at once. *)
Example word_in_message_decides :
  is_navigation_error {| error_class := OtherException;
                         message := py "Invalid selector for the Navigation menu" |} = true /\
  is_navigation_error {| error_class := OtherException;
                         message := py "Timeout 30000ms exceeded" |} = false /\
  is_timeout_error {| error_class := OtherException;
                      message := py "Navigation timeout of 30000 ms exceeded" |} = true /\
  is_navigation_error {| error_class := OtherException;
                         message := py "Navigation timeout of 30000 ms exceeded" |} = true.
Proof. repeat split; vm_compute; reflexivity. Qed.

(** What comes out of a call wrapped by [safe_operation] is the value of
    the call, the default value in place of a navigation error, or the
    error of the call if it is not a navigation error: a wrapped call never
    raises a navigation error, and wrapping twice is wrapping once. *)
Theorem safe_operation_outcome {A : Type} (default_value : A) (func : Read A) :
  (forall a, func = read_value a -> safe_operation default_value func = read_value a) /\
  (forall e, safe_operation default_value func = read_raises e ->
             func = read_raises e /\ is_navigation_error e = false) /\
  (forall e, func = read_raises e -> is_navigation_error e = true ->
             safe_operation default_value func = read_value default_value) /\
  safe_operation default_value (safe_operation default_value func)
  = safe_operation default_value func.
Proof.
  unfold safe_operation. destruct func as [a | e0]; repeat split;
    try discriminate; try congruence.
  - destruct (is_navigation_error e0) eqn:E; [discriminate | congruence].
  - destruct (is_navigation_error e0) eqn:E; [discriminate |]. congruence.
  - intros e [= <-] H. rewrite H. reflexivity.
  - destruct (is_navigation_error e0) eqn:E; [reflexivity |]. rewrite E. reflexivity.
Qed.

End NavigationSafetyLaws.

Module VerificationLaws.
Import retry.

Lemma contains_full (s : str) : navigation_safety.contains s s = true.
Proof.
  apply NavigationSafetyLaws.contains_spec. exists [], []. rewrite app_nil_r. reflexivity.
Qed.

Lemma equal_or_contains (actual expected : str) :
  (Re.str_eqb actual expected || navigation_safety.contains expected actual)%bool
  = navigation_safety.contains expected actual.
Proof.
  unfold Re.str_eqb. destruct (bool_decide (actual = expected)) eqn:E; [| reflexivity].
  apply bool_decide_eq_true in E. subst. simpl. symmetry. apply contains_full.
Qed.

(** [get_input_value] turns a navigation error of the adapter into the
    empty string, so the default fill verification never reports a
    navigation error: during a navigation it reports the field as empty.
    It reports the fill as verified exactly when the expected text occurs
    somewhere in the value it read, so an empty expected text is always
    verified.  It raises only for a missing element or an adapter error
    that is not a navigation error. *)
Theorem default_fill_verification_outcome
    (locator_or_element : bool) (adapter : navigation_safety.Read str)
    (expected_text : str) :
  match fill.default_fill_verification
          (content.get_input_value locator_or_element adapter) expected_text with
  | value r =>
      locator_or_element = true /\
      fill.navigation_error r = false /\
      fill.attempts r = 0%nat /\
      (adapter = navigation_safety.read_value (fill.actual_value r) \/
       exists error, adapter = navigation_safety.read_raises error /\
                     navigation_safety.is_navigation_error error = true /\
                     fill.actual_value r = []) /\
      (fill.verified r = true <->
       UrlCondition.occurs_in expected_text (fill.actual_value r))
  | exception_raised =>
      locator_or_element = false \/
      exists error, adapter = navigation_safety.read_raises error /\
                    navigation_safety.is_navigation_error error = false
  end.
Proof.
  unfold content.get_input_value, fill.default_fill_verification.
  destruct locator_or_element; simpl.
  - destruct adapter as [actual | error].
    + simpl. rewrite equal_or_contains, NavigationSafetyLaws.contains_spec.
      repeat split; auto; tauto.
    + destruct (navigation_safety.is_navigation_error error) eqn:E.
      * simpl. rewrite equal_or_contains, NavigationSafetyLaws.contains_spec.
        repeat split; eauto; tauto.
      * rewrite E. right. eauto.
  - left. reflexivity.
Qed.

Lemma verify_fill_loop_no_navigation_error verify_fn timeout retry_interval start fuel :
  (forall n t r, verify_fn n t = value r -> fill.navigation_error r = false) ->
  forall clock attempts last calls r clock' calls',
    fill.verify_fill_loop fuel verify_fn timeout retry_interval start clock attempts last calls
    = Some (value r, clock', calls') ->
    fill.navigation_error r = false.
Proof.
  intros Hfn. induction fuel as [| fuel IH];
    intros clock attempts last calls r clock' calls' E; [discriminate |].
  simpl in E. destruct (clock - start <? timeout); [| injection E as <- _ _; reflexivity].
  destruct (verify_fn (length calls) clock) as [res |] eqn:Ev; [| discriminate].
  destruct (fill.verified res); [injection E as <- _ _; reflexivity |].
  rewrite (Hfn _ _ _ Ev) in E. eapply IH. exact E.
Qed.

(** [verify_fill] with the default verification function.  With a timeout
    that is not positive the field is not looked at and the fill is
    reported unverified after 0 attempts.  With a positive timeout, a first
    look that finds the expected text somewhere in the field is reported at
    once, verified, as 1 attempt; a first look during a navigation is
    reported as verified when the expected text is empty.  And whatever
    happens, the result never reports a navigation error: that exit of the
    loop is not reachable with the default function. *)
Theorem verify_fill_by_default_outcome
    (locator_or_element : bool) (adapter : nat -> Z -> navigation_safety.Read str)
    (expected_text : str) (timeout retry_interval : option Z) (clock : Z) :
  let run := fill.verify_fill_by_default locator_or_element adapter expected_text
               timeout retry_interval clock in
  (default constants.VERIFICATION_TIMEOUT timeout <= 0 ->
   run = Some (value {| fill.verified := false; fill.actual_value := [];
                        fill.navigation_error := false; fill.attempts := 0 |},
               clock, [])) /\
  (0 < default constants.VERIFICATION_TIMEOUT timeout ->
   locator_or_element = true ->
   (forall actual,
      adapter 0%nat clock = navigation_safety.read_value actual ->
      UrlCondition.occurs_in expected_text actual ->
      run = Some (value {| fill.verified := true; fill.actual_value := actual;
                           fill.navigation_error := false; fill.attempts := 1 |},
                  clock, [clock])) /\
   (forall error,
      adapter 0%nat clock = navigation_safety.read_raises error ->
      navigation_safety.is_navigation_error error = true ->
      expected_text = [] ->
      run = Some (value {| fill.verified := true; fill.actual_value := [];
                           fill.navigation_error := false; fill.attempts := 1 |},
                  clock, [clock]))) /\
  (forall r clock' calls,
     run = Some (value r, clock', calls) -> fill.navigation_error r = false).
Proof.
  intros run. subst run. unfold fill.verify_fill_by_default, fill.verify_fill.
  set (T := default constants.VERIFICATION_TIMEOUT timeout).
  set (I := default constants.VERIFICATION_RETRY_INTERVAL retry_interval).
  assert (Hfuel : exists f, enough_fuel T I = S f).
  { unfold enough_fuel. exists (Z.to_nat (T / Z.max 1 I) + 1)%nat. lia. }
  destruct Hfuel as [f Hf]. rewrite Hf.
  split; [| split].
  - intros Hle. simpl. replace (clock - clock) with 0 by lia.
    destruct (0 <? T) eqn:E; [apply Z.ltb_lt in E; lia | reflexivity].
  - intros Hpos ->. cbn [fill.verify_fill_loop length].
    replace (clock - clock) with 0 by lia.
    destruct (0 <? T) eqn:E; [| destruct (Z.ltb_spec 0 T); [discriminate | lia]].
    split.
    + intros actual Ha Ho. rewrite Ha.
      unfold content.get_input_value, fill.default_fill_verification. cbn [negb].
      rewrite equal_or_contains.
      apply NavigationSafetyLaws.contains_spec in Ho. rewrite Ho. reflexivity.
    + intros error Ha He ->. rewrite Ha.
      unfold content.get_input_value, fill.default_fill_verification. cbn [negb].
      rewrite He. reflexivity.
  - intros r clock' calls E.
    eapply verify_fill_loop_no_navigation_error; [| exact E].
    intros n t res Hres.
    pose proof (default_fill_verification_outcome locator_or_element (adapter n t)
                  expected_text) as Ho.
    rewrite Hres in Ho. apply Ho.
Qed.

(** The default navigation verification.  Without an expected URL (or with
    the empty string) it answers verified whenever the URL can be read,
    whether or not the URL differs from the start URL, which only selects
    the reason given.  With an expected string it answers verified exactly
    when that string occurs somewhere in the URL read; with a compiled
    pattern, exactly when the pattern is found in it.  When reading the URL
    raises, a navigation error or an [ActionStoppedError] gives a result
    flagged as navigation error and any other exception is raised again. *)
Theorem default_navigation_verification_outcome
    (url : navigation_safety.Read str) (expected_url : navigation.Expected)
    (start_url : option str) :
  match url with
  | navigation_safety.read_value actual =>
      exists r,
        navigation.default_navigation_verification url expected_url start_url = value r /\
        navigation.actual_url r = actual /\
        navigation.navigation_error r = false /\
        match expected_url with
        | navigation.expected_none | navigation.expected_str [] =>
            navigation.verified r = true
        | navigation.expected_str expected =>
            navigation.verified r = true <-> UrlCondition.occurs_in expected actual
        | navigation.expected_pattern regex _ =>
            navigation.verified r = Re.search regex actual
        end
  | navigation_safety.read_raises error =>
      if (navigation_safety.is_navigation_error error
          || match navigation_safety.error_class error with
             | navigation_safety.ActionStoppedError => true
             | _ => false
             end)%bool
      then exists r,
             navigation.default_navigation_verification url expected_url start_url
             = value r /\
             navigation.verified r = false /\ navigation.navigation_error r = true
      else navigation.default_navigation_verification url expected_url start_url
           = exception_raised
  end.
Proof.
  destruct url as [actual | error];
    unfold navigation.default_navigation_verification; cbv beta zeta.
  - assert (Hun : exists r,
              (if match start_url with
                  | Some start =>
                      (negb (Re.str_eqb start []) && negb (Re.str_eqb actual start))%bool
                  | None => false
                  end
               then value {| navigation.verified := true; navigation.actual_url := actual;
                             navigation.reason := py "URL changed from start";
                             navigation.navigation_error := false;
                             navigation.attempts := 0 |}
               else value {| navigation.verified := true; navigation.actual_url := actual;
                             navigation.reason := py "navigation completed";
                             navigation.navigation_error := false;
                             navigation.attempts := 0 |}) = value r /\
              navigation.actual_url r = actual /\
              navigation.navigation_error r = false /\ navigation.verified r = true).
    { destruct (match start_url with Some _ => _ | None => _ end);
        eexists; repeat split. }
    destruct expected_url as [| [| c expected] | regex printed].
    + exact Hun.
    + exact Hun.
    + destruct (Re.str_eqb actual (c :: expected)) eqn:Eeq.
      * eexists. split; [reflexivity |]. repeat split.
        intros _. unfold Re.str_eqb in Eeq. apply bool_decide_eq_true in Eeq.
        subst actual. exists [], []. rewrite app_nil_r. reflexivity.
      * destruct (navigation_safety.contains (c :: expected) actual
                  || UrlCondition.startswith (c :: expected) actual)%bool eqn:Ec.
        -- eexists. split; [reflexivity |]. repeat split. intros _.
           apply orb_true_iff in Ec as [Ec | Es].
           ++ apply NavigationSafetyLaws.contains_spec, Ec.
           ++ apply UrlConditionLaws.startswith_spec in Es as [rest Hr].
              exists [], rest. exact Hr.
        -- eexists. split; [reflexivity |]. repeat split; [discriminate |].
           intros Ho. apply NavigationSafetyLaws.contains_spec in Ho.
           apply orb_false_iff in Ec as [Ec _]. congruence.
    + destruct (Re.search regex actual); eexists; repeat split.
  - destruct (_ || _)%bool; [| reflexivity]. eexists. repeat split.
Qed.

(** A field showing more than was typed counts as filled, and the URL of
    another page counts as the expected one when it contains it. *)
Example containment_is_enough :
  fill.default_fill_verification (navigation_safety.read_value (py "hello world"))
    (py "hello")
  = value {| fill.verified := true; fill.actual_value := py "hello world";
             fill.navigation_error := false; fill.attempts := 0 |} /\
  navigation.verified <$>
    (match navigation.default_navigation_verification
             (navigation_safety.read_value (py "https://evil.example/?next=https://a.com"))
             (navigation.expected_str (py "https://a.com")) None with
     | value r => Some r
     | exception_raised => None
     end) = Some true.
Proof. split; vm_compute; reflexivity. Qed.

End VerificationLaws.

Module UrlStabilizationLaws.
Import navigation.

Section Polling.
Variable page : option (Z -> str).
Variable wait_fn : Z -> Z -> Z.
Variables stable_checks check_interval timeout clock : Z.

Local Abbreviation time := (check_time wait_fn check_interval clock).
Local Abbreviation reading := (url_read page wait_fn check_interval clock).
Local Abbreviation is_settled := (settled page wait_fn stable_checks check_interval clock).
Local Abbreviation run_of := (navigation.run_of page wait_fn check_interval clock).
Local Abbreviation outcome :=
  (navigation.outcome page wait_fn stable_checks check_interval timeout clock).

Lemma check_time_S (n : nat) : time (S n) = wait_fn (time n) check_interval.
Proof. reflexivity. Qed.

Lemma run_of_settled (n k : nat) :
  run_of n k -> stable_checks <= Z.of_nat k -> is_settled n.
Proof.
  intros (Hk & Hrun & _) Hs. split; [lia |].
  intros j Hj. apply Hrun. lia.
Qed.

Lemma run_of_not_settled (n k : nat) :
  run_of n k -> Z.of_nat k < stable_checks -> ~ is_settled n.
Proof.
  intros (Hk & _ & Hmax) Hs (Hn & Hwin).
  apply Hmax; [lia |]. apply Hwin. lia.
Qed.

Lemma run_of_grows (n k : nat) :
  run_of n k -> reading (S n) = reading n -> run_of (S n) (S k).
Proof.
  intros (Hk & Hrun & Hmax) E. split; [lia |]. split.
  - intros j Hj. destruct (decide (j = S n)) as [-> | Hne]; [reflexivity |].
    cbv beta in *. rewrite E. apply Hrun. lia.
  - intros Hlt. cbv beta in *. rewrite E.
    replace (S n - S k - 1)%nat with (n - k - 1)%nat by lia.
    apply Hmax. lia.
Qed.

Lemma run_of_restarts (n : nat) :
  reading (S n) <> reading n -> run_of (S n) 0.
Proof.
  intros Hne. split; [lia |]. split.
  - intros j Hj. replace j with (S n) by lia. reflexivity.
  - intros _. replace (S n - 0 - 1)%nat with n by lia.
    intros E. apply Hne. symmetry. exact E.
Qed.

Lemma loop_sound (fuel : nat) : forall (n k : nat) (result : bool) (clock' : Z),
  run_of n k ->
  (forall m : nat, (m < n)%nat -> ~ is_settled m /\ time m - clock <= timeout) ->
  wait_for_url_stabilization_loop fuel page wait_fn stable_checks check_interval
    timeout clock (time n) (Z.of_nat k) (reading n) = Some (result, clock') ->
  exists n' : nat, (n <= n')%nat /\ clock' = time n' /\ outcome result n'.
Proof.
  induction fuel as [| fuel IH]; intros n k result clock' Hrun Hbefore E;
    [discriminate |].
  cbn [wait_for_url_stabilization_loop] in E.
  destruct (Z.of_nat k <? stable_checks) eqn:Ek.
  - apply Z.ltb_lt in Ek.
    pose proof (run_of_not_settled n k Hrun Ek) as Hns.
    destruct (time n - clock >? timeout) eqn:Et.
    + injection E as <- <-. exists n. split; [lia |]. split; [reflexivity |].
      split; [exact Hbefore |]. split; [discriminate |].
      intros _. split; [exact Hns | lia].
    + assert (Hbefore' : forall m : nat, (m < S n)%nat ->
                ~ is_settled m /\ time m - clock <= timeout).
      { intros m Hm. destruct (decide (m = n)) as [-> | Hne].
        - split; [exact Hns | lia].
        - apply Hbefore. lia. }
      cbv zeta in E. rewrite <- check_time_S in E.
      unfold Re.str_eqb in E.
      change (read_url page (time (S n))) with (reading (S n)) in E.
      destruct (bool_decide (reading (S n) = reading n)) eqn:Eu.
      * apply bool_decide_eq_true in Eu.
        replace (Z.of_nat k + 1) with (Z.of_nat (S k)) in E by lia.
        rewrite <- Eu in E.
        destruct (IH (S n) (S k) result clock' (run_of_grows n k Hrun Eu) Hbefore' E)
          as (n' & Hle & Hc & Ho).
        exists n'. split; [lia |]. split; assumption.
      * apply bool_decide_eq_false in Eu.
        change 0 with (Z.of_nat 0) in E.
        destruct (IH (S n) 0%nat result clock' (run_of_restarts n Eu) Hbefore' E)
          as (n' & Hle & Hc & Ho).
        exists n'. split; [lia |]. split; assumption.
  - apply Z.ltb_ge in Ek. injection E as <- <-.
    exists n. split; [lia |]. split; [reflexivity |].
    split; [exact Hbefore |]. split; [| discriminate].
    intros _. exact (run_of_settled n k Hrun Ek).
Qed.

(** Each wait takes at least one millisecond. *)
Hypothesis wait_takes_time : forall t : Z, t + 1 <= wait_fn t check_interval.

Lemma check_time_grows (n : nat) : clock + Z.of_nat n <= time n.
Proof.
  induction n as [| n IH]; [simpl; lia |].
  rewrite check_time_S. pose proof (wait_takes_time (time n)). lia.
Qed.

Lemma loop_returns (fuel : nat) : forall (n : nat) (k : Z) (last_url : str),
  (forall m : nat, (m < n)%nat -> time m - clock <= timeout) ->
  (Z.to_nat (timeout + 1) + 1 <= fuel + n)%nat ->
  exists r, wait_for_url_stabilization_loop fuel page wait_fn stable_checks
              check_interval timeout clock (time n) k last_url = Some r.
Proof.
  induction fuel as [| fuel IH]; intros n k last_url Hbefore Hfuel.
  - exfalso.
    assert (Hm : (Z.to_nat (timeout + 1) < n)%nat) by lia.
    pose proof (Hbefore _ Hm) as Hin.
    pose proof (check_time_grows (Z.to_nat (timeout + 1))). lia.
  - cbn [wait_for_url_stabilization_loop].
    destruct (k <? stable_checks); [| eexists; reflexivity].
    destruct (time n - clock >? timeout) eqn:Et; [eexists; reflexivity |].
    cbv zeta. rewrite <- check_time_S.
    assert (Hbefore' : forall m : nat, (m < S n)%nat -> time m - clock <= timeout).
    { intros m Hm. destruct (decide (m = n)) as [-> | Hne]; [lia |].
      apply Hbefore. lia. }
    destruct (Re.str_eqb _ _); apply IH; try assumption; lia.
Qed.

End Polling.

(** The legacy loop, started at time [clock], looks at the URL at the
    times [clock], [wait_fn clock check_interval], ...; it stops at the
    first look at which either the URL has settled (the look and the
    [stable_checks] looks before it agree) or more than [timeout] ms have
    passed, and returns True in the first case (also when both hold) and
    False in the second. *)
Lemma stabilization_loop_outcome (page : option (Z -> str)) (wait_fn : Z -> Z -> Z)
    (stable_checks check_interval timeout clock : Z) (fuel : nat)
    (env : Z -> list network_tracker.Event) (current_url : str) :
  (forall t : Z, t + 1 <= wait_fn t check_interval) ->
  (Z.to_nat (timeout + 1) + 1 <= fuel)%nat ->
  exists (result : bool) (n : nat),
    wait_for_url_stabilization fuel env clock page wait_fn None current_url
      stable_checks check_interval timeout
    = Some (result, check_time wait_fn check_interval clock n) /\
    navigation.outcome page wait_fn stable_checks check_interval timeout clock result n.
Proof.
  intros Hwait Hfuel. unfold wait_for_url_stabilization. cbv zeta.
  destruct (loop_returns page wait_fn stable_checks check_interval timeout clock
              Hwait fuel 0%nat 0 (read_url page clock)) as ([result clock'] & E).
  { intros m Hm. lia. }
  { lia. }
  change (check_time wait_fn check_interval clock 0) with clock in E.
  destruct (loop_sound page wait_fn stable_checks check_interval timeout clock
              fuel 0%nat 0%nat result clock') as (n & _ & -> & Ho).
  { split; [lia |]. split.
    - intros j Hj. replace j with 0%nat by lia. reflexivity.
    - lia. }
  { intros m Hm. lia. }
  { exact E. }
  exists result, n. split; [exact E | exact Ho].
Qed.

(** X26.  [wait_for_url_stabilization] without a navigation manager, with a
    wait function that takes at least one millisecond: it returns, at one of
    the times at which it looks at the URL, namely the first look at which
    the URL has settled (that look and the [stable_checks] looks before it
    gave the same URL) or more than [timeout] ms have passed since the
    call; it returns True exactly when the URL has settled at that look,
    also when the timeout has passed as well, and False otherwise. *)
Theorem wait_for_url_stabilization_outcome (page : option (Z -> str))
    (wait_fn : Z -> Z -> Z) (stable_checks check_interval timeout clock : Z)
    (fuel : nat) (env : Z -> list network_tracker.Event) (current_url : str) :
  (forall t : Z, t + 1 <= wait_fn t check_interval) ->
  (Z.to_nat (timeout + 1) + 1 <= fuel)%nat ->
  exists (result : bool) (n : nat),
    wait_for_url_stabilization fuel env clock page wait_fn None current_url
      stable_checks check_interval timeout
    = Some (result, check_time wait_fn check_interval clock n) /\
    (forall m : nat, (m < n)%nat ->
       ~ settled page wait_fn stable_checks check_interval clock m /\
       check_time wait_fn check_interval clock m - clock <= timeout) /\
    (result = true <-> settled page wait_fn stable_checks check_interval clock n) /\
    (result = false -> timeout < check_time wait_fn check_interval clock n - clock).
Proof.
  intros Hwait Hfuel.
  destruct (stabilization_loop_outcome page wait_fn stable_checks check_interval
              timeout clock fuel env current_url Hwait Hfuel)
    as (result & n & E & Hbefore & Htrue & Hfalse).
  exists result, n. split; [exact E |]. split; [exact Hbefore |]. split.
  - split; [exact Htrue |].
    intros Hs. destruct result; [reflexivity |].
    destruct (Hfalse eq_refl) as [Hns _]. contradiction.
  - intros Hr. exact (proj2 (Hfalse Hr)).
Qed.

Lemma wait_for_url_stabilization_outcome_witness :
  exists (result : bool) (n : nat),
    wait_for_url_stabilization (Z.to_nat 30002) (fun _ => []) 0 (Some redirected_once)
      exact_sleep None [] 3 1000 30000
    = Some (result, check_time exact_sleep 1000 0 n) /\
    (forall m : nat, (m < n)%nat ->
       ~ settled (Some redirected_once) exact_sleep 3 1000 0 m /\
       check_time exact_sleep 1000 0 m - 0 <= 30000) /\
    (result = true <-> settled (Some redirected_once) exact_sleep 3 1000 0 n) /\
    (result = false -> 30000 < check_time exact_sleep 1000 0 n - 0).
Proof.
  apply (wait_for_url_stabilization_outcome (Some redirected_once) exact_sleep
           3 1000 30000 0 (Z.to_nat 30002) (fun _ => []) []).
  - intros t. unfold exact_sleep. lia.
  - lia.
Defined.

Lemma exact_sleep_time (check_interval clock : Z) (n : nat) :
  check_time exact_sleep check_interval clock n = clock + Z.of_nat n * check_interval.
Proof.
  induction n as [| n IH]; [simpl; lia |].
  change (check_time exact_sleep check_interval clock (S n))
    with (exact_sleep (check_time exact_sleep check_interval clock n) check_interval).
  rewrite IH. unfold exact_sleep. lia.
Qed.

(** X27.  With a wait function that sleeps exactly [check_interval] >= 1 ms
    and a timeout >= 0, the legacy loop returns no later than
    [timeout + check_interval] ms after the call; True is returned no
    earlier than [stable_checks * check_interval] ms after the call and
    False only more than [timeout] ms after it.  Hence, when
    [stable_checks] > 0 and [timeout] < [(stable_checks - 1) *
    check_interval], the answer is False whatever the page does; and a
    page whose URL never changes gives True after exactly [stable_checks]
    waits as soon as [(stable_checks - 1) * check_interval] <= [timeout]. *)
Theorem exact_sleep_stabilization_timing (page : option (Z -> str))
    (stable_checks check_interval timeout clock : Z)
    (fuel : nat) (env : Z -> list network_tracker.Event) (current_url : str) :
  1 <= check_interval ->
  0 <= timeout ->
  (Z.to_nat (timeout + 1) + 1 <= fuel)%nat ->
  exists (result : bool) (clock' : Z),
    wait_for_url_stabilization fuel env clock page exact_sleep None current_url
      stable_checks check_interval timeout
    = Some (result, clock') /\
    clock <= clock' <= clock + timeout + check_interval /\
    (result = true -> clock + stable_checks * check_interval <= clock') /\
    (result = false -> clock + timeout < clock') /\
    (0 < stable_checks -> timeout < (stable_checks - 1) * check_interval ->
     result = false) /\
    (0 < stable_checks -> (stable_checks - 1) * check_interval <= timeout ->
     (forall t : Z, read_url page t = read_url page clock) ->
     result = true /\ clock' = clock + stable_checks * check_interval).
Proof.
  intros Hint Hto Hfuel.
  destruct (stabilization_loop_outcome page exact_sleep stable_checks check_interval
              timeout clock fuel env current_url) as (result & n & E & Hbefore & Htrue & Hfalse).
  { intros t. unfold exact_sleep. lia. }
  { exact Hfuel. }
  exists result, (check_time exact_sleep check_interval clock n).
  split; [exact E |].
  assert (Hlate : Z.of_nat n * check_interval <= timeout + check_interval).
  { destruct n as [| n]; [lia |].
    destruct (Hbefore n) as [_ Hn]; [lia |].
    rewrite exact_sleep_time in Hn. lia. }
  assert (Hearly : result = true -> stable_checks <= Z.of_nat n).
  { intros Hr. exact (proj1 (Htrue Hr)). }
  rewrite exact_sleep_time.
  split; [nia |]. split; [| split; [| split]].
  - intros Hr. specialize (Hearly Hr). nia.
  - intros Hr. destruct (Hfalse Hr) as [_ Hn].
    rewrite exact_sleep_time in Hn. lia.
  - intros Hpos Hshort. destruct result; [| reflexivity].
    specialize (Hearly eq_refl).
    destruct (Hbefore (Z.to_nat (stable_checks - 1))) as [_ Hn]; [lia |].
    rewrite exact_sleep_time in Hn.
    replace (Z.of_nat (Z.to_nat (stable_checks - 1))) with (stable_checks - 1) in Hn by lia.
    lia.
  - intros Hpos Hlong Hconst.
    assert (Hs : forall m : nat, stable_checks <= Z.of_nat m ->
                 settled page exact_sleep stable_checks check_interval clock m).
    { intros m Hm. split; [exact Hm |].
      intros j _. unfold url_read. rewrite (Hconst (check_time _ _ _ j)).
      symmetry. apply Hconst. }
    assert (Hn : Z.of_nat n <= stable_checks).
    { destruct (Z_le_gt_dec (Z.of_nat n) stable_checks) as [Hle | Hgt]; [exact Hle |].
      destruct (Hbefore (Z.to_nat stable_checks)) as [Hns _]; [lia |].
      exfalso. apply Hns, Hs. lia. }
    destruct result.
    + specialize (Hearly eq_refl). split; [reflexivity |].
      replace (Z.of_nat n) with stable_checks by lia. reflexivity.
    + exfalso. destruct (Hfalse eq_refl) as [Hns Hlate'].
      rewrite exact_sleep_time in Hlate'.
      destruct (Z_le_gt_dec stable_checks (Z.of_nat n)) as [Hle | Hgt].
      * apply Hns, Hs. exact Hle.
      * nia.
Qed.

Lemma exact_sleep_stabilization_timing_witness :
  exists (result : bool) (clock' : Z),
    wait_for_url_stabilization (Z.to_nat 30002) (fun _ => []) 0 None
      exact_sleep None [] 3 1000 30000
    = Some (result, clock') /\
    0 <= clock' <= 0 + 30000 + 1000 /\
    (result = true -> 0 + 3 * 1000 <= clock') /\
    (result = false -> 0 + 30000 < clock') /\
    (0 < 3 -> 30000 < (3 - 1) * 1000 -> result = false) /\
    (0 < 3 -> (3 - 1) * 1000 <= 30000 ->
     (forall t : Z, read_url None t = read_url None 0) ->
     result = true /\ clock' = 0 + 3 * 1000).
Proof.
  apply (exact_sleep_stabilization_timing None
           3 1000 30000 0 (Z.to_nat 30002) (fun _ => []) []).
  - lia.
  - lia.
  - lia.
Defined.

(** The page redirected once after 2.5 s is reported stable 6 s after the
    call: the looks at 3, 4, 5 and 6 s agree. *)
Example redirected_once_settles :
  wait_for_url_stabilization (Z.to_nat 30002) (fun _ => []) 0 (Some redirected_once)
    exact_sleep None [] 3 1000 30000 = Some (true, 6000).
Proof. vm_compute. reflexivity. Qed.

End UrlStabilizationLaws.
